(** * The sdb expression engine and watchpoint pool of NEMU

    A shallow embedding of [src/monitor/sdb/expr.c],
    [src/monitor/sdb/watchpoint.c] and the command handlers of
    [src/monitor/sdb/sdb.c] that call them, followed by the properties of
    the debugger's specification that concern them and by further
    properties of the code.

    Conventions of the embedding.
    - C [int], [int64_t] and [word_t] values are integers in [Z]; the
      64-bit wrap-around is written out with [to_int64] and [to_word].
    - A call either returns, or stops the process on a failed [assert], or
      does something the C language leaves open; [outcome] keeps the three
      apart.  Loops that follow pointers or recurse on a range take fuel;
      running out is a fourth outcome and is shown not to happen.
    - The static token buffer is the list of the tokens written by the
      current [make_token]; a read of any other slot is [Undef].
    - The register file and the memory of the simulated machine are the
      functions [isa_reg_str2val] and [vaddr_read], taken as parameters.
    - An out-parameter or uninitialised local is passed as the value it
      holds before the call ([success] of [expr], [garbage] of [check_wp]).
    - The watchpoint memory is a store from node addresses to records; the
      statements of the C functions are store updates executed in order, so
      aliasing between the pointers is whatever the store says.
    - What the C functions print is not modelled, except the lines of
      [check_wp] and [print_wp], the id printed by [wp_watch] and what the
      command handlers print, which are returned. *)

From Stdlib Require Import ZArith String Ascii List Bool Lia Permutation.
Import ListNotations.
Open Scope Z_scope.

(** ** Outcomes of a call *)

Inductive outcome (A : Type) : Type :=
| Ret (a : A)     (* the call returns [a] *)
| Abort           (* an assertion fails: the process is terminated *)
| Undef           (* not determined by the program text: out-of-bounds access,
                     division trap, read of a token slot left over from an
                     earlier call *)
| OutOfFuel.      (* the model's fuel ran out *)

Arguments Ret {A} a.
Arguments Abort {A}.
Arguments Undef {A}.
Arguments OutOfFuel {A}.

Definition bind {A B : Type} (m : outcome A) (k : A -> outcome B) : outcome B :=
  match m with
  | Ret a => k a
  | Abort => Abort
  | Undef => Undef
  | OutOfFuel => OutOfFuel
  end.

Notation "x <- m ;; k" := (bind m (fun x => k))
  (at level 61, m at next level, right associativity).

(** ** Machine integers *)

Definition two64 : Z := 2 ^ 64.
Definition INT64_MAX : Z := 2 ^ 63 - 1.
Definition INT64_MIN : Z := - 2 ^ 63.

(** Conversion to [word_t] (unsigned, 64 bits). *)
Definition to_word (z : Z) : Z := z mod two64.

(** Conversion to [int64_t] (two's complement). *)
Definition to_int64 (z : Z) : Z := (z + 2 ^ 63) mod two64 - 2 ^ 63.

Module Expr.

(** ** Tokens *)

Inductive token_enum_t : Type :=
| DUMMY_1 (* '+' *) | DUMMY_2 (* '-' *) | DUMMY_3 (* '*' *) | TK_DIV (* '/' *)
| TK_PAR_L (* '(' *) | TK_PAR_R (* ')' *) | TK_BOOL_LT (* '<' *) | TK_BOOL_GT (* '>' *)
| TK_NOTYPE | TK_BOOL_EQ | TK_INT | TK_REG | TK_BOOL_LE | TK_BOOL_GE
| TK_ADD | TK_MINUS | TK_MUL
| TK_POS | TK_NEG | TK_DEREF.

Definition token_enum_eqb (a b : token_enum_t) : bool :=
  match a, b with
  | DUMMY_1, DUMMY_1 | DUMMY_2, DUMMY_2 | DUMMY_3, DUMMY_3 | TK_DIV, TK_DIV
  | TK_PAR_L, TK_PAR_L | TK_PAR_R, TK_PAR_R | TK_BOOL_LT, TK_BOOL_LT
  | TK_BOOL_GT, TK_BOOL_GT | TK_NOTYPE, TK_NOTYPE | TK_BOOL_EQ, TK_BOOL_EQ
  | TK_INT, TK_INT | TK_REG, TK_REG | TK_BOOL_LE, TK_BOOL_LE
  | TK_BOOL_GE, TK_BOOL_GE | TK_ADD, TK_ADD | TK_MINUS, TK_MINUS
  | TK_MUL, TK_MUL | TK_POS, TK_POS | TK_NEG, TK_NEG | TK_DEREF, TK_DEREF => true
  | _, _ => false
  end.

(** [get_priority]: 3 for the unary operators, 2 for [*] and [/], 1 for [+]
    and [-], 0 for the comparisons; [assert(0)] on anything else. *)
Definition get_priority (op_type : token_enum_t) : outcome Z :=
  match op_type with
  | TK_POS | TK_NEG | TK_DEREF => Ret 3
  | TK_MUL | TK_DIV => Ret 2
  | TK_ADD | TK_MINUS => Ret 1
  | TK_BOOL_EQ | TK_BOOL_LT | TK_BOOL_GT | TK_BOOL_LE | TK_BOOL_GE => Ret 0
  | _ => Abort
  end.

Definition is_operand (op_type : token_enum_t) : bool :=
  match op_type with
  | TK_INT | TK_REG | TK_PAR_R => true
  | _ => false
  end.

Record Token : Type := mkToken { type : token_enum_t; str : string }.

(** ** The rule table

    The patterns are POSIX extended regular expressions.  [regex] has the
    constructs the table uses, and [regexec] gives what the loop of
    [make_token] takes from the library call: [regexec] reports the leftmost
    match and, among those, the longest, so [res == 0 && rm_so == 0] holds
    exactly when some match starts at offset 0, and [rm_eo] is then the
    length of the longest such match. *)

Inductive regex : Type :=
| Chr (c : ascii)             (* a literal character *)
| Cls (p : ascii -> bool)     (* a character class *)
| Cat (r1 r2 : regex)
| Opt (r : regex)             (* r? *)
| Plus (r : regex).           (* r+ *)

(** One or more matches in a row, each given by [m]; [n] bounds their
    number. *)
Fixpoint plus_iter (m : string -> list (nat * string)) (n : nat) (s : string)
  : list (nat * string) :=
  match n with
  | O => []
  | S n' =>
      flat_map (fun m1 =>
                  m1 :: map (fun m2 => ((fst m1 + fst m2)%nat, snd m2))
                            (plus_iter m n' (snd m1)))
               (m s)
  end.

(** All matches of [r] at the start of [s]: the length consumed and the rest. *)
Fixpoint rmatch (r : regex) (s : string) : list (nat * string) :=
  match r with
  | Chr c =>
      match s with
      | String a s' => if Ascii.eqb a c then [(1%nat, s')] else []
      | EmptyString => []
      end
  | Cls p =>
      match s with
      | String a s' => if p a then [(1%nat, s')] else []
      | EmptyString => []
      end
  | Cat r1 r2 =>
      flat_map (fun m1 => map (fun m2 => ((fst m1 + fst m2)%nat, snd m2))
                              (rmatch r2 (snd m1)))
               (rmatch r1 s)
  | Opt r1 => (0%nat, s) :: rmatch r1 s
  | Plus r1 => plus_iter (rmatch r1) (S (String.length s)) s
  end.

Definition regexec (r : regex) (s : string) : option nat :=
  match map fst (rmatch r s) with
  | [] => None
  | n :: ns => Some (fold_left Nat.max ns n)
  end.

Definition in_range (lo hi : nat) (c : ascii) : bool :=
  let n := nat_of_ascii c in (Nat.leb lo n && Nat.leb n hi)%bool.

Definition is_digit (c : ascii) : bool := in_range 48 57 c.

(** [\w]: letters, digits and underscore. *)
Definition is_word (c : ascii) : bool :=
  (in_range 48 57 c || in_range 65 90 c || in_range 97 122 c
   || Ascii.eqb c "_"%char)%bool.

Definition rules : list (regex * token_enum_t) :=
  [ (Plus (Chr " "), TK_NOTYPE);                                (* " +" *)
    (Chr "+", DUMMY_1);                                         (* "\\+" *)
    (Chr "-", DUMMY_2);                                         (* "-" *)
    (Chr "*", DUMMY_3);                                         (* "\\*" *)
    (Chr "/", TK_DIV);                                          (* "/" *)
    (Cat (Chr "=") (Chr "="), TK_BOOL_EQ);                      (* "==" *)
    (Cat (Opt (Cat (Chr "0") (Chr "x"))) (Plus (Cls is_digit)), TK_INT);
                                                                (* "(0x)?[0-9]+" *)
    (Chr "(", TK_PAR_L);                                        (* "\\(" *)
    (Chr ")", TK_PAR_R);                                        (* "\\)" *)
    (Cat (Chr "$") (Plus (Cls is_word)), TK_REG);               (* "\\$\\w+" *)
    (Chr "<", TK_BOOL_LT);                                      (* "<" *)
    (Chr ">", TK_BOOL_GT);                                      (* ">" *)
    (Cat (Chr "<") (Chr "="), TK_BOOL_LE);                      (* "<=" *)
    (Cat (Chr ">") (Chr "="), TK_BOOL_GE) ]%char.               (* ">=" *)

(** ** [make_token] *)

(** The [for] loop over the rules: the first rule with a match at offset 0. *)
Fixpoint first_rule (rs : list (regex * token_enum_t)) (s : string)
  : option (nat * token_enum_t) :=
  match rs with
  | [] => None
  | (r, ty) :: rs' =>
      match regexec r s with
      | Some len => Some (len, ty)
      | None => first_rule rs' s
      end
  end.

(** [tokens[num_of_token] = t; num_of_token++] on the 32-slot buffer. *)
Definition store_token (toks : list Token) (t : Token) : outcome (list Token) :=
  if (32 <=? length toks)%nat then Undef else Ret (toks ++ [t]).

(** The unary reading applies to a first token and after a token that is not
    an operand. *)
Definition unary_position (toks : list Token) : bool :=
  (length toks =? 0)%nat
  || match nth_error toks (length toks - 1) with
     | Some prev => negb (is_operand (type prev))    (* tokens[num_of_token-1] *)
     | None => true
     end.

(** The [switch] on the type of the matching rule.  [str] is written for
    registers and integers only and is the empty string otherwise (it is
    then only ever printed). *)
Definition record_token (ty : token_enum_t) (substr : string) (toks : list Token)
  : outcome (list Token) :=
  match ty with
  | TK_NOTYPE => Ret toks
  | TK_REG | TK_INT =>
      if (32 <=? String.length substr)%nat then Undef   (* str has 32 bytes *)
      else store_token toks (mkToken ty substr)
  | DUMMY_3 | DUMMY_2 | DUMMY_1 =>
      if unary_position toks then
        match ty with
        | DUMMY_1 => store_token toks (mkToken TK_POS "")
        | DUMMY_2 => store_token toks (mkToken TK_NEG "")
        | DUMMY_3 => store_token toks (mkToken TK_DEREF "")
        | _ => Abort
        end
      else
        match ty with
        | DUMMY_1 => store_token toks (mkToken TK_ADD "")
        | DUMMY_2 => store_token toks (mkToken TK_MINUS "")
        | DUMMY_3 => store_token toks (mkToken TK_MUL "")
        | _ => Abort
        end
  | _ => store_token toks (mkToken ty "")
  end.

Fixpoint skip (n : nat) (s : string) : string :=
  match n, s with
  | S n', String _ s' => skip n' s'
  | _, _ => s
  end.

Fixpoint prefix_of (n : nat) (s : string) : string :=
  match n, s with
  | S n', String a s' => String a (prefix_of n' s')
  | _, _ => EmptyString
  end.

(** The result of lexing: the tokens, or the position with no match. *)
Inductive lexed : Type :=
| LexOk (toks : list Token)          (* return true *)
| LexFail (parse_position : Z).      (* return false *)

(** One turn of the [while] loop on the unread input [s]. *)
Definition lex_step (s : string) (toks : list Token)
  : option (outcome (nat * list Token)) :=
  match first_rule rules s with
  | None => None
  | Some (substr_len, ty) =>
      Some (toks' <- record_token ty (prefix_of substr_len s) toks ;;
            Ret (substr_len, toks'))
  end.

Fixpoint make_token_loop (fuel : nat) (s : string) (parse_position : Z)
  (toks : list Token) : outcome lexed :=
  match s with
  | EmptyString => Ret (LexOk toks)
  | _ =>
      match fuel with
      | O => OutOfFuel
      | S fuel' =>
          match lex_step s toks with
          | None => Ret (LexFail parse_position)
          | Some step =>
              r <- step ;;
              make_token_loop fuel' (skip (fst r) s)
                              (parse_position + Z.of_nat (fst r)) (snd r)
          end
      end
  end.

Definition make_token (str_to_be_parsed : string) : outcome lexed :=
  make_token_loop (String.length str_to_be_parsed) str_to_be_parsed 0 [].

(** ** [strtol] with base 0

    Leading white space, an optional sign, then [0x]/[0X] before a
    hexadecimal digit selects base 16, another leading [0] base 8, anything
    else base 10; conversion stops at the first character that is not a
    digit of the base, and the result saturates at the bounds of [long]. *)

Definition digit_val (c : ascii) : option Z :=
  let n := Z.of_nat (nat_of_ascii c) in
  if in_range 48 57 c then Some (n - 48)
  else if in_range 97 122 c then Some (n - 87)
  else if in_range 65 90 c then Some (n - 55)
  else None.

Fixpoint strtol_digits (base : Z) (s : string) (acc : Z) : Z :=
  match s with
  | String c s' =>
      match digit_val c with
      | Some d => if d <? base then strtol_digits base s' (acc * base + d) else acc
      | None => acc
      end
  | EmptyString => acc
  end.

Definition is_space (c : ascii) : bool :=
  (Ascii.eqb c " "%char || in_range 9 13 c)%bool.

Fixpoint skip_spaces (s : string) : string :=
  match s with
  | String c s' => if is_space c then skip_spaces s' else s
  | EmptyString => s
  end.

Definition is_hex_digit (c : ascii) : bool :=
  match digit_val c with
  | Some d => d <? 16
  | None => false
  end.

Definition strtol_unsigned (s : string) : Z :=
  match s with
  | String "0" (String x (String h s')) =>
      if ((Ascii.eqb x "x" || Ascii.eqb x "X") && is_hex_digit h)%bool
      then strtol_digits 16 (String h s') 0
      else strtol_digits 8 s 0
  | String "0" _ => strtol_digits 8 s 0
  | _ => strtol_digits 10 s 0
  end%char.

Definition strtol (nptr : string) : Z :=
  match skip_spaces nptr with
  | String "-" s => Z.max INT64_MIN (- strtol_unsigned s)
  | String "+" s => Z.min INT64_MAX (strtol_unsigned s)
  | s => Z.min INT64_MAX (strtol_unsigned s)
  end%char.

(** ** The evaluator *)

Section Evaluator.

(** The register file and the memory of the simulated machine, as the two
    functions [cal_expr] calls: [isa_reg_str2val] gives the value and the
    flag it stores through its second argument. *)
Variable isa_reg_str2val : string -> Z * bool.
Variable vaddr_read : Z -> Z -> Z.

(** The tokens left by [make_token]: [tokens[0 .. num_of_token-1]]. *)
Variable tokens : list Token.

Definition token_at (i : Z) : outcome Token :=
  if i <? 0 then Undef
  else match nth_error tokens (Z.to_nat i) with
       | Some t => Ret t
       | None => Undef
       end.

(** [check_parentheses]: [n] turns of the loop are left, [i] is the index
    and [num] the number of parentheses opened and not closed. *)
Fixpoint check_parentheses_loop (n : nat) (i num : Z) : outcome bool :=
  match n with
  | O => Ret true
  | S n' =>
      t <- token_at i ;;
      let num := if token_enum_eqb (type t) TK_PAR_L then num + 1 else num in
      if token_enum_eqb (type t) TK_PAR_R then
        let num := num - 1 in
        if num <? 0 then Ret false else check_parentheses_loop n' (i + 1) num
      else check_parentheses_loop n' (i + 1) num
  end.

Definition check_parentheses (begin_index end_index : Z) : outcome bool :=
  check_parentheses_loop (Z.to_nat (end_index - begin_index + 1)) begin_index 0.

(** [find_major_operator]: the loop runs over [begin_index <= i < end_index]. *)
Fixpoint find_major_operator_loop (n : nat) (i : Z)
  (major_op_pos num_of_left_parentheses min_priority : Z) : outcome Z :=
  match n with
  | O => Ret major_op_pos
  | S n' =>
      t <- token_at i ;;
      match type t with
      | TK_INT =>
          find_major_operator_loop n' (i + 1) major_op_pos
                                   num_of_left_parentheses min_priority
      | TK_PAR_L =>
          find_major_operator_loop n' (i + 1) major_op_pos
                                   (num_of_left_parentheses + 1) min_priority
      | TK_PAR_R =>
          find_major_operator_loop n' (i + 1) major_op_pos
                                   (num_of_left_parentheses - 1) min_priority
      | ty =>
          if num_of_left_parentheses >? 0 then
            find_major_operator_loop n' (i + 1) major_op_pos
                                     num_of_left_parentheses min_priority
          else if num_of_left_parentheses <? 0 then Abort
          else
            p <- get_priority ty ;;
            if p <=? min_priority then
              find_major_operator_loop n' (i + 1) i num_of_left_parentheses p
            else
              find_major_operator_loop n' (i + 1) major_op_pos
                                       num_of_left_parentheses min_priority
      end
  end.

Definition find_major_operator (begin_index end_index : Z) : outcome Z :=
  find_major_operator_loop (Z.to_nat (end_index - begin_index)) begin_index
                           (-1) 0 2.

Definition bool_to_int (b : bool) : Z := if b then 1 else 0.

(** The [switch] on the major operator, on [int64_t] operands.  Sums,
    differences and products wrap around; a division the hardware traps on
    is [Undef]. *)
Definition apply_binary (op_type : token_enum_t) (val_1 val_2 : Z) : outcome Z :=
  match op_type with
  | TK_ADD => Ret (to_int64 (val_1 + val_2))
  | TK_MINUS => Ret (to_int64 (val_1 - val_2))
  | TK_MUL => Ret (to_int64 (val_1 * val_2))
  | TK_DIV =>
      if val_2 =? 0 then Undef
      else if (val_1 =? INT64_MIN) && (val_2 =? -1) then Undef
      else Ret (Z.quot val_1 val_2)
  | TK_BOOL_EQ => Ret (bool_to_int (val_1 =? val_2))
  | TK_BOOL_GT => Ret (bool_to_int (val_1 >? val_2))
  | TK_BOOL_LT => Ret (bool_to_int (val_1 <? val_2))
  | TK_BOOL_GE => Ret (bool_to_int (val_1 >=? val_2))
  | TK_BOOL_LE => Ret (bool_to_int (val_1 <=? val_2))
  | _ => Abort
  end.

Fixpoint cal_expr_fuel (fuel : nat) (begin_index end_index : Z) : outcome Z :=
  match fuel with
  | O => OutOfFuel
  | S fuel' =>
      ok <- check_parentheses begin_index end_index ;;
      if negb ok then Ret 0          (* "Parentheses not match." *)
      else
        first <- token_at begin_index ;;
        strip <- (if token_enum_eqb (type first) TK_PAR_L then
                    last <- token_at end_index ;;
                    Ret (token_enum_eqb (type last) TK_PAR_R)
                  else Ret false) ;;
        let begin_index := if strip then begin_index + 1 else begin_index in
        let end_index := if strip then end_index - 1 else end_index in
        if begin_index >? end_index then
          Abort                      (* prints, then reaches the final assert(0) *)
        else if begin_index =? end_index then
          t <- token_at begin_index ;;
          match type t with
          | TK_INT => Ret (strtol (str t))
          | TK_REG =>
              let (result, feedback) := isa_reg_str2val (str t) in
              if feedback then Ret (to_int64 result) else Ret 0
          | _ => Ret 0
          end
        else if end_index - begin_index =? 1 then
          t <- token_at begin_index ;;
          match type t with
          | TK_POS => cal_expr_fuel fuel' (begin_index + 1) end_index
          | TK_NEG =>
              v <- cal_expr_fuel fuel' (begin_index + 1) end_index ;;
              Ret (to_int64 (- v))
          | TK_DEREF =>
              v <- cal_expr_fuel fuel' (begin_index + 1) end_index ;;
              Ret (to_int64 (vaddr_read (to_word v) 8))
          | _ => Abort               (* prints, then reaches the final assert(0) *)
          end
        else
          major_op_pos <- find_major_operator begin_index end_index ;;
          if major_op_pos =? -1 then Abort
          else
            val_1 <- cal_expr_fuel fuel' begin_index (major_op_pos - 1) ;;
            val_2 <- cal_expr_fuel fuel' (major_op_pos + 1) end_index ;;
            t <- token_at major_op_pos ;;
            apply_binary (type t) val_1 val_2
  end.

(** Every recursive call is on a strictly shorter range, so the length of
    the range plus one is enough fuel. *)
Definition cal_expr (begin_index end_index : Z) : outcome Z :=
  cal_expr_fuel (S (Z.to_nat (end_index - begin_index + 1))) begin_index end_index.

End Evaluator.

(** [expr]: [success] is the content of [*success] before the call; the
    result carries the returned word and the content after the call.  The
    only store to [*success] is the one on a lexing failure. *)
Definition expr (isa_reg_str2val : string -> Z * bool) (vaddr_read : Z -> Z -> Z)
  (e : string) (success : bool) : outcome (Z * bool) :=
  l <- make_token e ;;
  match l with
  | LexFail _ => Ret (0, false)
  | LexOk toks =>
      v <- cal_expr isa_reg_str2val vaddr_read toks 0 (Z.of_nat (length toks) - 1) ;;
      Ret (to_word v, success)
  end.

End Expr.

Module Watchpoint.

Definition NR_WP : Z := 32.

(** ** Records and their addresses *)

Inductive ptr : Type :=
| null
| dummy (i : Z)      (* &wp_dummy[i] *)
| pool (i : Z).      (* &wp_pool[i] *)

Definition ptr_eqb (p q : ptr) : bool :=
  match p, q with
  | null, null => true
  | dummy i, dummy j => i =? j
  | pool i, pool j => i =? j
  | _, _ => false
  end.

Record watchpoint_t : Type := mkWp {
  id : Z;
  next : ptr;
  prev : ptr;
  last_val : Z;
  expr : string;
  counter : Z
}.

(** The memory holding [wp_pool] and [wp_dummy], and the two static
    pointers [head] and [free_]. *)
Record state : Type := mkState {
  mem : ptr -> watchpoint_t;
  head : ptr;
  free_ : ptr
}.

(** Static storage before [init_wp_pool] runs. *)
Definition zero_state : state :=
  mkState (fun _ => mkWp 0 null null 0 "" 0) null null.

Definition update (st : state) (p : ptr) (f : watchpoint_t -> watchpoint_t) : state :=
  mkState (fun q => if ptr_eqb q p then f (mem st q) else mem st q)
          (head st) (free_ st).

(** [p->id = v], [p->next = v], ... *)
Definition set_id (st : state) (p : ptr) (v : Z) : state :=
  update st p (fun w => mkWp v (next w) (prev w) (last_val w) (expr w) (counter w)).
Definition set_next (st : state) (p : ptr) (v : ptr) : state :=
  update st p (fun w => mkWp (id w) v (prev w) (last_val w) (expr w) (counter w)).
Definition set_prev (st : state) (p : ptr) (v : ptr) : state :=
  update st p (fun w => mkWp (id w) (next w) v (last_val w) (expr w) (counter w)).
Definition set_last_val (st : state) (p : ptr) (v : Z) : state :=
  update st p (fun w => mkWp (id w) (next w) (prev w) v (expr w) (counter w)).
Definition set_expr (st : state) (p : ptr) (v : string) : state :=
  update st p (fun w => mkWp (id w) (next w) (prev w) (last_val w) v (counter w)).
Definition set_counter (st : state) (p : ptr) (v : Z) : state :=
  update st p (fun w => mkWp (id w) (next w) (prev w) (last_val w) (expr w) v).

(** [p->next], [p->prev] and [p->id] in state [st]. *)
Definition nxt (st : state) (p : ptr) : ptr := next (mem st p).
Definition prv (st : state) (p : ptr) : ptr := prev (mem st p).
Definition id_of (st : state) (p : ptr) : Z := id (mem st p).

(** Conversion to [int] (32 bits, two's complement), for [counter]. *)
Definition to_int32 (z : Z) : Z := (z + 2 ^ 31) mod 2 ^ 32 - 2 ^ 31.

(** ** [init_wp_pool] *)

Fixpoint init_pool_loop (n : nat) (i : Z) (st : state) : state :=
  match n with
  | O => st
  | S n' =>
      let st := set_id st (pool i) i in
      let st := set_next st (pool i) (pool (i + 1)) in
      let st := set_prev st (pool i) (pool (i - 1)) in
      init_pool_loop n' (i + 1) st
  end.

Fixpoint init_dummy_loop (n : nat) (i : Z) (st : state) : state :=
  match n with
  | O => st
  | S n' => init_dummy_loop n' (i + 1) (set_id st (dummy i) (- i - 1))
  end.

Definition init_wp_pool (st : state) : state :=
  let st := mkState (mem st) (dummy 0) (free_ st) in
  let st := mkState (mem st) (head st) (dummy 1) in
  let st := init_pool_loop (Z.to_nat NR_WP) 0 st in
  let st := init_dummy_loop 2 0 st in
  let st := set_next st (pool (NR_WP - 1)) (free_ st) in
  let st := set_prev st (pool 0) (free_ st) in
  let st := set_next st (free_ st) (pool 0) in
  let st := set_prev st (free_ st) (pool (NR_WP - 1)) in
  let st := set_next st (head st) (head st) in
  let st := set_prev st (head st) (head st) in
  st.

(** ** [new_wp] and [free_wp] *)

Definition new_wp (st : state) : outcome (state * ptr) :=
  if id_of st (nxt st (free_ st)) =? -2 then Abort      (* assert(0) *)
  else
    let res := nxt st (free_ st) in
    let st := set_next st (free_ st) (nxt st res) in
    let st := set_prev st (nxt st (free_ st)) (free_ st) in
    let st := set_prev st (nxt st (head st)) res in
    let st := set_prev st res (head st) in
    let st := set_next st res (nxt st (head st)) in
    let st := set_next st (head st) res in
    let st := set_counter st res 0 in
    Ret (st, res).

Definition free_wp (st : state) (n : Z) : state * Z :=
  if (n <? 0) || (n >=? NR_WP) then (st, -1)
  else
    let wp := pool n in
    let st := set_next st (prv st wp) (nxt st wp) in
    let st := set_prev st (nxt st wp) (prv st wp) in
    let st := set_prev st (nxt st (free_ st)) wp in
    let st := set_prev st wp (free_ st) in
    let st := set_next st wp (nxt st (free_ st)) in
    let st := set_next st (free_ st) wp in
    (st, 0).

(** ** [wp_watch]

    [strcpy] into the 100-byte field; the call prints the id of the record
    it took, which is the second component of the result. *)
Definition wp_watch (st : state) (e : string) (res : Z) : outcome (state * Z) :=
  r <- new_wp st ;;
  let (st, wp) := r in
  if (100 <=? String.length e)%nat then Undef
  else
    let st := set_expr st wp e in
    let st := set_last_val st wp res in
    Ret (st, id_of st wp).

(** ** [check_wp] and [print_wp] *)

(** A line printed by [check_wp]: id, expression, old and new value.  The
    two values are printed with [%d]: the line shows their low 32 bits, read
    as an [int]. *)
Record change : Type := mkChange {
  ch_id : Z; ch_expr : string; ch_old : Z; ch_new : Z
}.

Section Check.

Variable isa_reg_str2val : string -> Z * bool.
Variable vaddr_read : Z -> Z -> Z.

(** The local [success] of [check_wp] is not initialised: [garbage] is what
    it holds when [expr] is called. *)
Variable garbage : bool.

Fixpoint check_wp_loop (fuel : nat) (st : state) (cur : ptr) (res : Z)
  (out : list change) : outcome (state * Z * list change) :=
  match fuel with
  | O => OutOfFuel
  | S fuel' =>
      if id_of st (nxt st cur) =? -1 then Ret (st, res, out)
      else
        let cur := nxt st cur in
        if counter (mem st cur) =? 0 then
          let st := set_counter st cur (to_int32 (counter (mem st cur) + 1)) in
          check_wp_loop fuel' st cur res out
        else
          let st := set_counter st cur (to_int32 (counter (mem st cur) + 1)) in
          r <- Expr.expr isa_reg_str2val vaddr_read (expr (mem st cur)) garbage ;;
          let (val, success) := r in
          if negb success then Abort                    (* assert(0) *)
          else
            let changed := negb (val =? last_val (mem st cur)) in
            let out :=
              if changed
              then out ++ [mkChange (id (mem st cur)) (expr (mem st cur))
                                    (to_int32 (last_val (mem st cur)))
                                    (to_int32 val)]
              else out in
            let res := if changed then 1 else res in
            let st := set_last_val st cur val in
            check_wp_loop fuel' st cur res out
  end.

Definition check_wp (fuel : nat) (st : state) : outcome (state * Z * list change) :=
  check_wp_loop fuel st (head st) 0 [].

End Check.

(** A line printed by [print_wp]: id, expression and last value. *)
Fixpoint print_wp_loop (fuel : nat) (st : state) (cur : ptr)
  (out : list (Z * string * Z)) : outcome (list (Z * string * Z)) :=
  match fuel with
  | O => OutOfFuel
  | S fuel' =>
      if id_of st (prv st cur) =? -1 then Ret out
      else
        let cur := prv st cur in
        print_wp_loop fuel' st cur
          (out ++ [(id (mem st cur), expr (mem st cur), last_val (mem st cur))])
  end.

Definition print_wp (fuel : nat) (st : state) : outcome (list (Z * string * Z)) :=
  print_wp_loop fuel st (head st) [].

End Watchpoint.

Module Sdb.

Import Expr.
Import Watchpoint.

(** ** The command handlers of [sdb.c] that use the two modules

    A handler gets [args], the text after the command (a null pointer when
    there is none), and returns the [int] the main loop looks at.  What it
    prints is returned as a list of [printed]. *)

Inductive printed : Type :=
| Usage                               (* "Usage: w EXPR", "Usage: d N" *)
| Invalid_expression                  (* "Invalid expression. ", "invalid expression" *)
| Result (v : Z)                      (* the value, in the four formats of cmd_p *)
| Watchpoint (id : Z) (e : string)    (* "Watchpoint %d: %s", by wp_watch *)
| Param (s : string)                  (* "param: %s", by cmd_info *)
| Registers                           (* the output of isa_reg_display *)
| Listing (l : list (Z * string * Z)). (* the lines of print_wp *)

(** [strtol] with base 10. *)
Definition strtol10 (nptr : string) : Z :=
  match skip_spaces nptr with
  | String "-" s => Z.max INT64_MIN (- strtol_digits 10 s 0)
  | String "+" s => Z.min INT64_MAX (strtol_digits 10 s 0)
  | s => Z.min INT64_MAX (strtol_digits 10 s 0)
  end%char.

Section Handlers.

Variable isa_reg_str2val : string -> Z * bool.
Variable vaddr_read : Z -> Z -> Z.

(** [cmd_p]: [result] is what the uninitialised local holds. *)
Definition cmd_p (args : option string) (result : bool) : outcome (list printed * Z) :=
  match args with
  | None => Undef                     (* make_token reads through the null pointer *)
  | Some e =>
      r <- Expr.expr isa_reg_str2val vaddr_read e result ;;
      let (expr_cal_result, result) := r in
      if result then Ret ([Result expr_cal_result], 0)
      else Ret ([Invalid_expression], 0)
  end.

(** [cmd_w]: [success] is what the uninitialised local holds. *)
Definition cmd_w (st : state) (args : option string) (success : bool)
  : outcome (state * list printed * Z) :=
  match args with
  | None => Ret (st, [Usage], 0)
  | Some e =>
      r <- Expr.expr isa_reg_str2val vaddr_read e success ;;
      let (res, success) := r in
      if negb success then Ret (st, [Invalid_expression], 0)
      else
        r' <- wp_watch st e res ;;
        Ret (fst r', [Watchpoint (snd r') e], 0)
  end.

(** [cmd_d]: [arg] is what [strtok(NULL, "")] returns, the rest of the line
    after the command; the [long] of [strtol] is converted to [int]. *)
Definition cmd_d (st : state) (arg : option string) : state * list printed * Z :=
  match arg with
  | None => (st, [Usage], 0)
  | Some a =>
      let no := to_int32 (strtol10 a) in
      (fst (free_wp st no), [], 0)
  end.

(** [cmd_info]: [cmd_arg] is what [strtok(NULL, " ")] returns, the first
    word after the command. *)
Definition cmd_info (fuel : nat) (st : state) (cmd_arg : option string)
  : outcome (list printed * Z) :=
  match cmd_arg with
  | None => Undef                     (* strcmp on the null pointer *)
  | Some a =>
      let out := [Param a] in
      let out := if (String.eqb a "r" || String.eqb a "reg" || String.eqb a "register")%bool
                 then out ++ [Registers] else out in
      if String.eqb a "w" then
        l <- print_wp fuel st ;;
        Ret (out ++ [Listing l], 0)
      else Ret (out, 0)
  end.

End Handlers.

End Sdb.

(** * Properties of the expression engine *)

Import Expr.

(** ** What the specification calls the major operator

    The running parenthesis counter of a range that starts at [b], the
    binary operators with their priorities, and the token the specification
    describes: at depth 0, of minimal priority among the binary operators of
    the range, and the rightmost such. *)

Definition paren_delta (tokens : list Token) (i : Z) : Z :=
  match token_at tokens i with
  | Ret t =>
      match type t with
      | TK_PAR_L => 1
      | TK_PAR_R => -1
      | _ => 0
      end
  | _ => 0
  end.

(** The counter after the first [n] tokens of the range. *)
Fixpoint depth_after (tokens : list Token) (b : Z) (n : nat) : Z :=
  match n with
  | O => 0
  | S n' => depth_after tokens b n' + paren_delta tokens (b + Z.of_nat n')
  end.

(** The counter when the scan reaches token [j]. *)
Definition depth_at (tokens : list Token) (b j : Z) : Z :=
  depth_after tokens b (Z.to_nat (j - b)).

Definition binary_priority (ty : token_enum_t) : option Z :=
  match ty with
  | TK_MUL | TK_DIV => Some 2
  | TK_ADD | TK_MINUS => Some 1
  | TK_BOOL_EQ | TK_BOOL_LT | TK_BOOL_GT | TK_BOOL_LE | TK_BOOL_GE => Some 0
  | _ => None
  end.

(** Token [j] is a binary operator of priority [p] at depth 0. *)
Definition candidate (tokens : list Token) (b j p : Z) : Prop :=
  exists t, token_at tokens j = Ret t
            /\ binary_priority (type t) = Some p
            /\ depth_at tokens b j = 0.

(** [m] is the rightmost candidate of minimal priority among the tokens
    [b .. e]. *)
Definition split_point (tokens : list Token) (b e m : Z) : Prop :=
  b <= m <= e
  /\ exists pm, candidate tokens b m pm
                /\ forall j pj, b <= j <= e -> candidate tokens b j pj ->
                                pm <= pj /\ (pj = pm -> j <= m).

(** The state of the scan of [find_major_operator] before token [i]. *)
Definition scan_inv (tokens : list Token) (b i major minp : Z) : Prop :=
  (major = -1 /\ minp = 2
   /\ forall j p, b <= j < i -> ~ candidate tokens b j p)
  \/ (b <= major < i /\ split_point tokens b (i - 1) major
      /\ candidate tokens b major minp).

Section MajorOperator.

Variable tokens : list Token.
Variable b : Z.

Lemma depth_at_start : depth_at tokens b b = 0.
Proof. unfold depth_at. now rewrite Z.sub_diag. Qed.

Lemma depth_at_succ (i : Z) :
  b <= i -> depth_at tokens b (i + 1) = depth_at tokens b i + paren_delta tokens i.
Proof.
  intros Hi. unfold depth_at.
  replace (Z.to_nat (i + 1 - b)) with (S (Z.to_nat (i - b))) by lia.
  simpl. f_equal. f_equal. lia.
Qed.

Lemma candidate_priority (j p : Z) : candidate tokens b j p -> 0 <= p <= 2.
Proof.
  intros (t & _ & Hp & _). destruct (type t); simpl in Hp; inversion Hp; lia.
Qed.

Lemma candidate_fun (j p q : Z) :
  candidate tokens b j p -> candidate tokens b j q -> p = q.
Proof.
  intros (t & Ht & Hp & _) (t' & Ht' & Hq & _). congruence.
Qed.

(** A token that is not a candidate leaves the invariant as it is. *)
Lemma scan_inv_skip (i major minp : Z) :
  b <= i ->
  (forall p, ~ candidate tokens b i p) ->
  scan_inv tokens b i major minp ->
  scan_inv tokens b (i + 1) major minp.
Proof.
  intros Hi Hno [(Hm & Hp & Hnone) | (Hm & (Hr & pm & Hc & Hmin) & Hcm)].
  - left. repeat split; auto. intros j p Hj.
    destruct (Z.eq_dec j i) as [-> | Hne]; [apply Hno | apply Hnone; lia].
  - right. split; [lia |]. split; [| exact Hcm].
    split; [lia |]. exists pm. split; [exact Hc |].
    intros j pj Hj Hcj.
    destruct (Z.eq_dec j i) as [-> | Hne]; [destruct (Hno _ Hcj) |].
    apply Hmin; [lia | exact Hcj].
Qed.

(** A candidate whose priority does not exceed the minimum becomes the major
    operator. *)
Lemma scan_inv_take (i major minp p : Z) :
  b <= i ->
  candidate tokens b i p ->
  p <= minp ->
  scan_inv tokens b i major minp ->
  scan_inv tokens b (i + 1) i p.
Proof.
  intros Hi Hc Hle Hinv. right. split; [lia |]. split; [| exact Hc].
  split; [lia |]. exists p. split; [exact Hc |].
  intros j pj Hj Hcj.
  destruct (Z.eq_dec j i) as [-> | Hne].
  - rewrite (candidate_fun _ _ _ Hcj Hc). split; lia.
  - destruct Hinv as [(_ & _ & Hnone) | (_ & (_ & pm & Hcm & Hmin) & Hcm')].
    + destruct (Hnone j pj); [lia | exact Hcj].
    + rewrite (candidate_fun _ _ _ Hcm' Hcm) in Hle.
      destruct (Hmin j pj) as [H1 _]; [lia | exact Hcj |]. split; lia.
Qed.

(** A candidate of higher priority than the minimum is passed over. *)
Lemma scan_inv_pass (i major minp p : Z) :
  b <= i ->
  candidate tokens b i p ->
  minp < p ->
  scan_inv tokens b i major minp ->
  scan_inv tokens b (i + 1) major minp.
Proof.
  intros Hi Hc Hlt [(Hm & Hp & Hnone) | (Hm & (Hr & pm & Hcm & Hmin) & Hcm')].
  - pose proof (candidate_priority _ _ Hc). lia.
  - right. split; [lia |]. split; [| exact Hcm'].
    split; [lia |]. exists pm. split; [exact Hcm |].
    intros j pj Hj Hcj.
    destruct (Z.eq_dec j i) as [-> | Hne].
    + rewrite (candidate_fun _ _ _ Hcj Hc).
      rewrite (candidate_fun _ _ _ Hcm' Hcm) in Hlt. split; lia.
    + apply Hmin; [lia | exact Hcj].
Qed.

Lemma scan_inv_bound (i major minp : Z) :
  scan_inv tokens b i major minp -> minp <= 2.
Proof.
  intros [(_ & -> & _) | (_ & _ & Hc)]; [lia |].
  pose proof (candidate_priority _ _ Hc). lia.
Qed.

Lemma find_major_operator_loop_inv (n : nat) :
  forall i major depth minp m,
    b <= i ->
    depth = depth_at tokens b i ->
    scan_inv tokens b i major minp ->
    find_major_operator_loop tokens n i major depth minp = Ret m ->
    exists minp', scan_inv tokens b (i + Z.of_nat n) m minp'.
Proof.
  induction n as [| n IH]; intros i major depth minp m Hi Hd Hinv Hrun.
  - simpl in Hrun. inversion Hrun; subst m. exists minp.
    now rewrite Z.add_0_r.
  - replace (i + Z.of_nat (S n)) with ((i + 1) + Z.of_nat n) by lia.
    simpl in Hrun.
    destruct (token_at tokens i) as [t | | |] eqn:Ht; simpl in Hrun;
      try discriminate.
    assert (Hdelta : paren_delta tokens i =
                     match type t with TK_PAR_L => 1 | TK_PAR_R => -1 | _ => 0 end)
      by (unfold paren_delta; now rewrite Ht).
    pose proof (depth_at_succ i Hi) as Hsucc. rewrite Hdelta in Hsucc.
    assert (Hcand : forall p, candidate tokens b i p ->
                              binary_priority (type t) = Some p
                              /\ depth_at tokens b i = 0).
    { intros p (t' & Ht' & Hp & H0). rewrite Ht in Ht'. inversion Ht'; subst t'.
      now split. }
    pose proof (scan_inv_bound _ _ _ Hinv) as Hbound.
    assert (Hskip : binary_priority (type t) = None \/ depth <> 0 ->
                    scan_inv tokens b (i + 1) major minp).
    { intros Hwhy. apply scan_inv_skip; auto. intros p Hc.
      destruct (Hcand p Hc) as [Hp H0]. destruct Hwhy; [congruence | lia]. }
    destruct (type t) eqn:Hty;
      try (apply (IH (i + 1) _ _ _ m) in Hrun;
           [exact Hrun | lia | rewrite Hsucc; lia | apply Hskip; now left]);
      (destruct (depth >? 0) eqn:Hpos;
       [ apply (IH (i + 1) _ _ _ m) in Hrun;
         [exact Hrun | lia | rewrite Hsucc; lia | apply Hskip; right; lia]
       | destruct (depth <? 0) eqn:Hneg; [discriminate |] ]);
      simpl in Hrun; try discriminate;
      match type of Hrun with
      | (if 3 <=? minp then _ else _) = _ =>
          destruct (3 <=? minp) eqn:Hle; [lia |];
          apply (IH (i + 1) _ _ _ m) in Hrun;
          [exact Hrun | lia | rewrite Hsucc; lia | apply Hskip; now left]
      | (if ?p <=? minp then _ else _) = _ =>
          assert (Hc : candidate tokens b i p)
            by (exists t; rewrite Hty; repeat split; auto; lia);
          destruct (p <=? minp) eqn:Hle;
          [ apply (IH (i + 1) _ _ _ m) in Hrun;
            [exact Hrun | lia | rewrite Hsucc; lia
            | apply (scan_inv_take i major minp); auto; lia ]
          | apply (IH (i + 1) _ _ _ m) in Hrun;
            [exact Hrun | lia | rewrite Hsucc; lia
            | apply (scan_inv_pass i major minp p); auto; lia ] ]
      end.
Qed.

End MajorOperator.

Lemma find_major_operator_scan (tokens : list Token) (b e m : Z) :
  find_major_operator tokens b e = Ret m ->
  exists minp, scan_inv tokens b (b + Z.of_nat (Z.to_nat (e - b))) m minp.
Proof.
  intros H. unfold find_major_operator in H.
  apply (find_major_operator_loop_inv tokens b _ b (-1) 0 2 m); auto.
  - lia.
  - now rewrite depth_at_start.
  - left. repeat split; auto. intros j p Hj. lia.
Qed.

Lemma candidate_index (tokens : list Token) (b j p : Z) :
  candidate tokens b j p -> 0 <= j.
Proof.
  intros (t & Ht & _). unfold token_at in Ht.
  destruct (j <? 0) eqn:E; [discriminate | lia].
Qed.

(** ** The unary or binary reading of [+], [-] and [*] *)

(** The three characters with their unary and binary token types. *)
Inductive sign_char : ascii -> token_enum_t -> token_enum_t -> Prop :=
| sign_plus : sign_char "+" TK_POS TK_ADD
| sign_minus : sign_char "-" TK_NEG TK_MINUS
| sign_star : sign_char "*" TK_DEREF TK_MUL.

(** The condition of the specification on the tokens emitted so far: there
    is none, or the last one is not an integer, a register or a closing
    parenthesis. *)
Definition first_or_after_non_operand (toks : list Token) : Prop :=
  toks = []
  \/ exists init prev, toks = init ++ [prev]
                       /\ type prev <> TK_INT
                       /\ type prev <> TK_REG
                       /\ type prev <> TK_PAR_R.

Definition is_unary_type (ty : token_enum_t) : Prop :=
  ty = TK_POS \/ ty = TK_NEG \/ ty = TK_DEREF.

Definition is_binary_sign_type (ty : token_enum_t) : Prop :=
  ty = TK_ADD \/ ty = TK_MINUS \/ ty = TK_MUL.

(** Every token of the sequence that comes from one of the three characters
    has the reading its predecessors call for. *)
Definition resolved (toks : list Token) : Prop :=
  forall init t rest,
    toks = init ++ t :: rest ->
    (is_unary_type (type t) -> first_or_after_non_operand init)
    /\ (is_binary_sign_type (type t) -> ~ first_or_after_non_operand init).

Lemma is_operand_false (ty : token_enum_t) :
  is_operand ty = false <-> ty <> TK_INT /\ ty <> TK_REG /\ ty <> TK_PAR_R.
Proof.
  destruct ty; simpl; split; intros H; try discriminate; try reflexivity;
    try (repeat split; discriminate);
    destruct H as (H1 & H2 & H3); congruence.
Qed.

Lemma unary_position_snoc (init : list Token) (prev : Token) :
  unary_position (init ++ [prev]) = negb (is_operand (type prev)).
Proof.
  unfold unary_position. rewrite length_app. simpl.
  replace (length init + 1 - 1)%nat with (length init) by lia.
  rewrite nth_error_app2 by lia. rewrite Nat.sub_diag. simpl.
  destruct (length init + 1 =? 0)%nat eqn:E; [| reflexivity].
  apply Nat.eqb_eq in E. lia.
Qed.

Lemma unary_position_spec (toks : list Token) :
  unary_position toks = true <-> first_or_after_non_operand toks.
Proof.
  induction toks as [| prev init _] using rev_ind.
  - split; [now left | reflexivity].
  - rewrite unary_position_snoc. split.
    + intros H. right. exists init, prev. split; [reflexivity |].
      apply is_operand_false. now destruct (is_operand (type prev)).
    + intros [H | (init' & prev' & E & H)].
      * destruct init; discriminate.
      * apply app_inj_tail in E. destruct E as [_ ->].
        apply is_operand_false in H. now rewrite H.
Qed.

Lemma resolved_nil : resolved [].
Proof. intros init t rest E. destruct init; discriminate. Qed.

Lemma resolved_snoc (toks : list Token) (x : Token) :
  resolved toks ->
  (is_unary_type (type x) -> first_or_after_non_operand toks) ->
  (is_binary_sign_type (type x) -> ~ first_or_after_non_operand toks) ->
  resolved (toks ++ [x]).
Proof.
  intros Hres Hu Hb init t rest E.
  induction rest as [| y rest' _] using rev_ind.
  - apply app_inj_tail in E. destruct E as [-> ->]. now split.
  - change (init ++ t :: rest' ++ [y]) with (init ++ (t :: rest') ++ [y]) in E.
    rewrite app_assoc in E. apply app_inj_tail in E. destruct E as [E _].
    exact (Hres _ _ _ E).
Qed.

(** The types the rule table can hand to the [switch] of [make_token]. *)
Definition rule_type (ty : token_enum_t) : Prop := In ty (map snd rules).

Lemma first_rule_in (rs : list (regex * token_enum_t)) (s : string) (n : nat)
  (ty : token_enum_t) :
  first_rule rs s = Some (n, ty) ->
  exists r, In (r, ty) rs /\ regexec r s = Some n.
Proof.
  induction rs as [| [r ty'] rs IH]; simpl; [discriminate |].
  destruct (regexec r s) as [len |] eqn:E.
  - intros H. inversion H; subst. exists r. split; [now left | exact E].
  - intros H. destruct (IH H) as (r' & Hin & Hr). exists r'. split; [now right | exact Hr].
Qed.

Lemma first_rule_type (s : string) (n : nat) (ty : token_enum_t) :
  first_rule rules s = Some (n, ty) -> rule_type ty.
Proof.
  intros H. destruct (first_rule_in _ _ _ _ H) as (r & Hin & _).
  unfold rule_type. change ty with (snd (r, ty)). now apply in_map.
Qed.

Lemma store_token_ret (toks toks' : list Token) (t : Token) :
  store_token toks t = Ret toks' -> toks' = toks ++ [t].
Proof.
  unfold store_token. destruct (32 <=? length toks)%nat; intros H; now inversion H.
Qed.

Lemma record_token_resolved (ty : token_enum_t) (substr : string)
  (toks toks' : list Token) :
  rule_type ty ->
  resolved toks ->
  record_token ty substr toks = Ret toks' ->
  resolved toks'.
Proof.
  intros Hty Hres H. unfold rule_type in Hty. simpl in Hty.
  assert (Hplain : forall ty',
             ~ is_unary_type ty' -> ~ is_binary_sign_type ty' ->
             store_token toks (mkToken ty' "") = Ret toks' -> resolved toks').
  { intros ty' Hu Hb E. apply store_token_ret in E. subst toks'.
    apply resolved_snoc; auto; simpl; intros; tauto. }
  assert (Hnot : forall a b c d : token_enum_t,
             (a <> b /\ a <> c /\ a <> d) -> ~ (a = b \/ a = c \/ a = d))
    by (intros; tauto).
  repeat (destruct Hty as [<- | Hty]); try contradiction;
    cbv beta iota delta [record_token] in H;
    try (apply (Hplain _) in H; [exact H | | ];
         apply Hnot; repeat split; discriminate).
  - inversion H; now subst.
  - destruct (unary_position toks) eqn:E; apply store_token_ret in H; subst toks';
      apply resolved_snoc; auto; simpl; unfold is_unary_type, is_binary_sign_type;
      intros Hk; try (now apply unary_position_spec);
      try (destruct Hk as [Hk | [Hk | Hk]]; discriminate).
    intros Hf. apply unary_position_spec in Hf. congruence.
  - destruct (unary_position toks) eqn:E; apply store_token_ret in H; subst toks';
      apply resolved_snoc; auto; simpl; unfold is_unary_type, is_binary_sign_type;
      intros Hk; try (now apply unary_position_spec);
      try (destruct Hk as [Hk | [Hk | Hk]]; discriminate).
    intros Hf. apply unary_position_spec in Hf. congruence.
  - destruct (unary_position toks) eqn:E; apply store_token_ret in H; subst toks';
      apply resolved_snoc; auto; simpl; unfold is_unary_type, is_binary_sign_type;
      intros Hk; try (now apply unary_position_spec);
      try (destruct Hk as [Hk | [Hk | Hk]]; discriminate).
    intros Hf. apply unary_position_spec in Hf. congruence.
  - destruct (32 <=? String.length substr)%nat; [discriminate |].
    apply store_token_ret in H. subst toks'.
    apply resolved_snoc; auto; simpl; unfold is_unary_type, is_binary_sign_type;
      intros Hk; destruct Hk as [Hk | [Hk | Hk]]; discriminate.
  - destruct (32 <=? String.length substr)%nat; [discriminate |].
    apply store_token_ret in H. subst toks'.
    apply resolved_snoc; auto; simpl; unfold is_unary_type, is_binary_sign_type;
      intros Hk; destruct Hk as [Hk | [Hk | Hk]]; discriminate.
Qed.

Lemma make_token_loop_resolved (fuel : nat) :
  forall s pos toks r,
    resolved toks ->
    make_token_loop fuel s pos toks = Ret (LexOk r) ->
    resolved r.
Proof.
  induction fuel as [| fuel IH]; intros s pos toks r Hres H;
    destruct s as [| a s]; cbn [make_token_loop] in H;
    try (inversion H; now subst); try discriminate.
  unfold lex_step in H.
  destruct (first_rule rules (String a s)) as [[n ty] |] eqn:E; [| discriminate].
  destruct (record_token ty (prefix_of n (String a s)) toks) as [toks' | | |] eqn:R;
    cbn [bind fst snd] in H; try discriminate.
  apply (IH _ _ _ _ (record_token_resolved _ _ _ _ (first_rule_type _ _ _ E) Hres R) H).
Qed.

Lemma lex_step_sign (c : ascii) (u bn : token_enum_t) (rest : string)
  (toks : list Token) :
  sign_char c u bn ->
  (length toks < 32)%nat ->
  lex_step (String c rest) toks =
  Some (Ret (1%nat, toks ++ [mkToken (if unary_position toks then u else bn) ""])).
Proof.
  intros Hc Hlen.
  assert (Hstore : forall t, store_token toks t = Ret (toks ++ [t])).
  { intros t. unfold store_token.
    destruct (32 <=? length toks)%nat eqn:E; [| reflexivity].
    apply Nat.leb_le in E. lia. }
  destruct Hc; unfold lex_step;
    [ change (first_rule rules (String "+" rest)) with (Some (1%nat, DUMMY_1))
    | change (first_rule rules (String "-" rest)) with (Some (1%nat, DUMMY_2))
    | change (first_rule rules (String "*" rest)) with (Some (1%nat, DUMMY_3)) ];
    cbv beta iota delta [record_token];
    destruct (unary_position toks); rewrite Hstore; reflexivity.
Qed.

(** ** The fuel of [make_token] is enough *)

(** Patterns that cannot match the empty string. *)
Fixpoint nonnull (r : regex) : bool :=
  match r with
  | Chr _ | Cls _ => true
  | Cat r1 r2 => nonnull r1 || nonnull r2
  | Opt _ => false
  | Plus r1 => nonnull r1
  end.

Lemma plus_iter_sound (m : string -> list (nat * string)) :
  (forall s n s', In (n, s') (m s) -> String.length s = (n + String.length s')%nat) ->
  forall k s n s',
    In (n, s') (plus_iter m k s) -> String.length s = (n + String.length s')%nat.
Proof.
  intros Hm k. induction k as [| k IH]; intros s n s' H; simpl in H; [contradiction |].
  apply in_flat_map in H. destruct H as ([n1 s1] & H1 & H).
  apply Hm in H1. destruct H as [E | H].
  - inversion E; now subst.
  - apply in_map_iff in H. destruct H as ([n2 s2] & E & H2). simpl in E, H2.
    inversion E; subst. apply IH in H2. lia.
Qed.

Lemma rmatch_sound (r : regex) :
  forall s n s',
    In (n, s') (rmatch r s) -> String.length s = (n + String.length s')%nat.
Proof.
  induction r as [c | p | r1 IH1 r2 IH2 | r1 IH1 | r1 IH1]; intros s n s' H;
    cbn [rmatch] in H.
  - destruct s as [| a s]; [contradiction |].
    destruct (Ascii.eqb a c); [| contradiction].
    destruct H as [E | []]. inversion E; now subst.
  - destruct s as [| a s]; [contradiction |].
    destruct (p a); [| contradiction].
    destruct H as [E | []]. inversion E; now subst.
  - apply in_flat_map in H. destruct H as ([n1 s1] & H1 & H).
    apply in_map_iff in H. destruct H as ([n2 s2] & E & H2). simpl in E, H2.
    inversion E; subst. apply IH1 in H1. apply IH2 in H2. lia.
  - destruct H as [E | H]; [inversion E; now subst | now apply IH1].
  - now apply (plus_iter_sound _ IH1) in H.
Qed.

Lemma plus_iter_nonnull (m : string -> list (nat * string)) :
  (forall s n s', In (n, s') (m s) -> (1 <= n)%nat) ->
  forall k s n s', In (n, s') (plus_iter m k s) -> (1 <= n)%nat.
Proof.
  intros Hm k. induction k as [| k IH]; intros s n s' H; simpl in H; [contradiction |].
  apply in_flat_map in H. destruct H as ([n1 s1] & H1 & H).
  apply Hm in H1. destruct H as [E | H].
  - inversion E; now subst.
  - apply in_map_iff in H. destruct H as ([n2 s2] & E & H2). simpl in E.
    inversion E; subst. lia.
Qed.

Lemma rmatch_nonnull (r : regex) :
  nonnull r = true ->
  forall s n s', In (n, s') (rmatch r s) -> (1 <= n)%nat.
Proof.
  induction r as [c | p | r1 IH1 r2 IH2 | r1 IH1 | r1 IH1]; cbn [nonnull rmatch];
    intros Hr s n s' H.
  - destruct s as [| a s]; [contradiction |].
    destruct (Ascii.eqb a c); [| contradiction].
    destruct H as [E | []]. inversion E; subst. lia.
  - destruct s as [| a s]; [contradiction |].
    destruct (p a); [| contradiction].
    destruct H as [E | []]. inversion E; subst. lia.
  - apply in_flat_map in H. destruct H as ([n1 s1] & H1 & H).
    apply in_map_iff in H. destruct H as ([n2 s2] & E & H2). simpl in E, H2.
    inversion E; subst. apply orb_true_iff in Hr. destruct Hr as [Hr | Hr].
    + apply (IH1 Hr) in H1. lia.
    + apply (IH2 Hr) in H2. lia.
  - discriminate.
  - now apply (plus_iter_nonnull _ (IH1 Hr)) in H.
Qed.

Lemma fold_max_in (ns : list nat) : forall n, In (fold_left Nat.max ns n) (n :: ns).
Proof.
  induction ns as [| k ns IH]; intros n; simpl; [now left |].
  destruct (IH (Nat.max n k)) as [E | H]; [| now right; right].
  rewrite <- E. destruct (Nat.max_spec n k) as [[_ ->] | [_ ->]]; auto.
Qed.

Lemma regexec_bounds (r : regex) (s : string) (n : nat) :
  nonnull r = true -> regexec r s = Some n -> (1 <= n <= String.length s)%nat.
Proof.
  intros Hr H. unfold regexec in H.
  destruct (map fst (rmatch r s)) as [| k ks] eqn:E; [discriminate |].
  inversion H; subst n.
  pose proof (fold_max_in ks k) as Hin. rewrite <- E in Hin.
  apply in_map_iff in Hin. destruct Hin as ([n s'] & En & Hin). simpl in En.
  rewrite <- En. pose proof (rmatch_sound _ _ _ _ Hin).
  pose proof (rmatch_nonnull _ Hr _ _ _ Hin). lia.
Qed.

Lemma first_rule_bounds (s : string) (n : nat) (ty : token_enum_t) :
  first_rule rules s = Some (n, ty) -> (1 <= n <= String.length s)%nat.
Proof.
  intros H. destruct (first_rule_in _ _ _ _ H) as (r & Hin & Hr).
  apply (regexec_bounds r); [| exact Hr].
  assert (Hall : forallb (fun rt => nonnull (fst rt)) rules = true) by reflexivity.
  rewrite forallb_forall in Hall. exact (Hall _ Hin).
Qed.

Lemma skip_length (n : nat) :
  forall s, (n <= String.length s)%nat ->
            String.length (skip n s) = (String.length s - n)%nat.
Proof.
  induction n as [| n IH]; intros s H; simpl.
  - lia.
  - destruct s as [| a s]; simpl in *; [lia |]. apply IH. lia.
Qed.

Lemma make_token_loop_fuel (fuel : nat) :
  forall s pos toks,
    (String.length s <= fuel)%nat ->
    make_token_loop fuel s pos toks <> OutOfFuel.
Proof.
  induction fuel as [| fuel IH]; intros s pos toks Hlen;
    destruct s as [| a s]; simpl in Hlen; cbn [make_token_loop];
    try discriminate; try lia.
  unfold lex_step.
  destruct (first_rule rules (String a s)) as [[n ty] |] eqn:E; [| discriminate].
  pose proof (first_rule_bounds _ _ _ E) as Hn.
  assert (Hrec : record_token ty (prefix_of n (String a s)) toks <> OutOfFuel).
  { unfold record_token, store_token.
    destruct ty; repeat match goal with
                        | |- context [if ?c then _ else _] => destruct c
                        end; discriminate. }
  destruct (record_token ty (prefix_of n (String a s)) toks) as [toks' | | |];
    cbn [bind fst snd]; try discriminate; [| contradiction].
  apply IH. rewrite skip_length by exact (proj2 Hn).
  change (String.length (String a s)) with (S (String.length s)) in *. lia.
Qed.

Lemma make_token_fuel (s : string) : make_token s <> OutOfFuel.
Proof. unfold make_token. now apply make_token_loop_fuel. Qed.

(** ** The fuel of [cal_expr] is enough *)

Section EvaluatorFuel.

Variable isa_reg_str2val : string -> Z * bool.
Variable vaddr_read : Z -> Z -> Z.
Variable tokens : list Token.

Lemma token_at_fuel (i : Z) : token_at tokens i <> OutOfFuel.
Proof.
  unfold token_at. destruct (i <? 0); [discriminate |].
  destruct (nth_error tokens (Z.to_nat i)); discriminate.
Qed.

Lemma check_parentheses_loop_fuel (n : nat) :
  forall i num, check_parentheses_loop tokens n i num <> OutOfFuel.
Proof.
  induction n as [| n IH]; intros i num; simpl; [discriminate |].
  pose proof (token_at_fuel i) as Ht.
  destruct (token_at tokens i) as [t | | |]; cbn [bind]; try discriminate;
    [| contradiction].
  destruct (token_enum_eqb (type t) TK_PAR_R); [| apply IH].
  match goal with |- context [if ?c then _ else _] => destruct c end;
    [discriminate | apply IH].
Qed.

Lemma find_major_operator_loop_fuel (n : nat) :
  forall i major depth minp,
    find_major_operator_loop tokens n i major depth minp <> OutOfFuel.
Proof.
  induction n as [| n IH]; intros i major depth minp; simpl; [discriminate |].
  pose proof (token_at_fuel i) as Ht.
  destruct (token_at tokens i) as [t | | |]; cbn [bind]; try discriminate;
    [| contradiction].
  destruct (type t); try apply IH;
    (destruct (depth >? 0); [apply IH |]);
    (destruct (depth <? 0); [discriminate |]);
    cbn [get_priority bind]; try discriminate;
    match goal with |- context [if ?c then _ else _] => destruct c end; apply IH.
Qed.

Lemma find_major_operator_range (b e m : Z) :
  find_major_operator tokens b e = Ret m -> m = -1 \/ b <= m < e.
Proof.
  intros H. destruct (find_major_operator_scan _ _ _ _ H) as (minp & Hinv).
  destruct Hinv as [(Hm & _) | (Hm & _)]; [now left | right; lia].
Qed.

Lemma apply_binary_fuel (ty : token_enum_t) (v1 v2 : Z) :
  apply_binary ty v1 v2 <> OutOfFuel.
Proof.
  destruct ty; simpl; try discriminate.
  destruct (v2 =? 0); [discriminate |].
  destruct ((v1 =? INT64_MIN) && (v2 =? -1)); discriminate.
Qed.

(** The part of [cal_expr] after the parentheses were stripped never runs
    out of fuel when its recursive calls do not. *)
Lemma cal_expr_fuel_enough (fuel : nat) :
  forall b e,
    (Z.to_nat (e - b + 1) < fuel)%nat ->
    cal_expr_fuel isa_reg_str2val vaddr_read tokens fuel b e <> OutOfFuel.
Proof.
  induction fuel as [| fuel IH]; intros b e Hf; [lia |].
  cbn [cal_expr_fuel].
  pose proof (check_parentheses_loop_fuel (Z.to_nat (e - b + 1)) b 0) as Hcp.
  fold (check_parentheses tokens b e) in Hcp.
  destruct (check_parentheses tokens b e) as [[|] | | |]; cbn [bind negb];
    try discriminate; [| contradiction].
  pose proof (token_at_fuel b) as Hb.
  destruct (token_at tokens b) as [first | | |]; cbn [bind]; try discriminate;
    [| contradiction].
  assert (Hrest : forall b' e',
             b <= b' -> e' <= e ->
             (if b' >? e' then Abort
              else if b' =? e' then
                t <- token_at tokens b' ;;
                match type t with
                | TK_INT => Ret (strtol (str t))
                | TK_REG =>
                    let (result, feedback) := isa_reg_str2val (str t) in
                    if feedback then Ret (to_int64 result) else Ret 0
                | _ => Ret 0
                end
              else if e' - b' =? 1 then
                t <- token_at tokens b' ;;
                match type t with
                | TK_POS => cal_expr_fuel isa_reg_str2val vaddr_read tokens fuel (b' + 1) e'
                | TK_NEG =>
                    v <- cal_expr_fuel isa_reg_str2val vaddr_read tokens fuel (b' + 1) e' ;;
                    Ret (to_int64 (- v))
                | TK_DEREF =>
                    v <- cal_expr_fuel isa_reg_str2val vaddr_read tokens fuel (b' + 1) e' ;;
                    Ret (to_int64 (vaddr_read (to_word v) 8))
                | _ => Abort
                end
              else
                major_op_pos <- find_major_operator tokens b' e' ;;
                if major_op_pos =? -1 then Abort
                else
                  val_1 <- cal_expr_fuel isa_reg_str2val vaddr_read tokens fuel b'
                                         (major_op_pos - 1) ;;
                  val_2 <- cal_expr_fuel isa_reg_str2val vaddr_read tokens fuel
                                         (major_op_pos + 1) e' ;;
                  t <- token_at tokens major_op_pos ;;
                  apply_binary (type t) val_1 val_2) <> OutOfFuel).
  { intros b' e' Hb' He'.
    destruct (Z.gtb_spec b' e'); [discriminate |].
    destruct (Z.eqb_spec b' e').
    { pose proof (token_at_fuel b') as Ht.
      destruct (token_at tokens b') as [t | | |]; cbn [bind]; try discriminate;
        [| contradiction].
      destruct (type t); try discriminate.
      destruct (isa_reg_str2val (str t)) as [r [|]]; discriminate. }
    destruct (Z.eqb_spec (e' - b') 1).
    { pose proof (token_at_fuel b') as Ht.
      pose proof (IH (b' + 1) e' ltac:(lia)) as Hrec.
      destruct (token_at tokens b') as [t | | |]; cbn [bind]; try discriminate;
        [| contradiction].
      destruct (type t); try discriminate; try exact Hrec;
        destruct (cal_expr_fuel isa_reg_str2val vaddr_read tokens fuel (b' + 1) e');
        cbn [bind]; try discriminate; contradiction. }
    pose proof (find_major_operator_loop_fuel (Z.to_nat (e' - b')) b' (-1) 0 2) as Hm.
    fold (find_major_operator tokens b' e') in Hm.
    destruct (find_major_operator tokens b' e') as [m | | |] eqn:Em; cbn [bind];
      try discriminate; [| contradiction].
    destruct (Z.eqb_spec m (-1)); [discriminate |].
    destruct (find_major_operator_range _ _ _ Em) as [-> | Hr]; [contradiction |].
    pose proof (IH b' (m - 1) ltac:(lia)) as H1.
    pose proof (IH (m + 1) e' ltac:(lia)) as H2.
    destruct (cal_expr_fuel isa_reg_str2val vaddr_read tokens fuel b' (m - 1));
      cbn [bind]; try discriminate; [| contradiction].
    destruct (cal_expr_fuel isa_reg_str2val vaddr_read tokens fuel (m + 1) e');
      cbn [bind]; try discriminate; [| contradiction].
    pose proof (token_at_fuel m) as Ht.
    destruct (token_at tokens m) as [t | | |]; cbn [bind]; try discriminate;
      [| contradiction].
    apply apply_binary_fuel. }
  destruct (token_enum_eqb (type first) TK_PAR_L); cbn [bind].
  - pose proof (token_at_fuel e) as He.
    destruct (token_at tokens e) as [last | | |]; cbn [bind]; try discriminate;
      [| contradiction].
    destruct (token_enum_eqb (type last) TK_PAR_R); apply Hrest; lia.
  - apply Hrest; lia.
Qed.

Lemma cal_expr_total (b e : Z) :
  cal_expr isa_reg_str2val vaddr_read tokens b e <> OutOfFuel.
Proof. unfold cal_expr. apply cal_expr_fuel_enough. lia. Qed.

End EvaluatorFuel.

Lemma expr_total (regs : string -> Z * bool) (vmem : Z -> Z -> Z) (e : string)
  (success : bool) :
  Expr.expr regs vmem e success <> OutOfFuel.
Proof.
  unfold Expr.expr. pose proof (make_token_fuel e) as Hm.
  destruct (make_token e) as [[toks | pos] | | |]; cbn [bind]; try discriminate;
    [| contradiction].
  pose proof (cal_expr_total regs vmem toks 0 (Z.of_nat (length toks) - 1)) as Hc.
  destruct (cal_expr regs vmem toks 0 (Z.of_nat (length toks) - 1)); cbn [bind];
    try discriminate; contradiction.
Qed.

(** * The claims about the expression engine *)

(** ** Token sequences used below *)

Definition tokens_1_mul_2_add : list Token :=
  [mkToken TK_INT "1"; mkToken TK_MUL ""; mkToken TK_INT "2"; mkToken TK_ADD ""].

Definition tokens_1_2_3 : list Token :=
  [mkToken TK_INT "1"; mkToken TK_INT "2"; mkToken TK_INT "3"].

Definition tokens_par1_add_par2 : list Token :=
  [mkToken TK_PAR_L ""; mkToken TK_INT "1"; mkToken TK_PAR_R "";
   mkToken TK_ADD "";
   mkToken TK_PAR_L ""; mkToken TK_INT "2"; mkToken TK_PAR_R ""].

Definition tokens_open_1_add_2 : list Token :=
  [mkToken TK_PAR_L ""; mkToken TK_INT "1"; mkToken TK_ADD ""; mkToken TK_INT "2"].

(** A register file that knows no name. *)
Definition no_register (name : string) : Z * bool := (0, false).

(** ** C1

    C1 says that on a range that passes the balance check, is not empty
    after stripping and has more than two tokens, the major-operator search
    succeeds and neither assertion can fire.  The program reaches both:
    on [1 2 3] the range [0..2] passes [check_parentheses] and
    [find_major_operator] returns -1, so [assert(major_op_pos != -1)]
    fails; on [(1)+(2)] the range [0..6] passes [check_parentheses], the
    outer parentheses (which do not match each other) are stripped, and in
    the range [1..5] the counter of [find_major_operator] is -1 when it
    meets [+], which is the [assert(0)] marked as never reached. *)
Theorem C1_assertions_reached :
  (make_token "1 2 3" = Ret (LexOk tokens_1_2_3)
   /\ check_parentheses tokens_1_2_3 0 2 = Ret true
   /\ find_major_operator tokens_1_2_3 0 2 = Ret (-1)
   /\ forall regs vmem s, expr regs vmem "1 2 3" s = Abort)
  /\ (make_token "(1)+(2)" = Ret (LexOk tokens_par1_add_par2)
      /\ check_parentheses tokens_par1_add_par2 0 6 = Ret true
      /\ find_major_operator tokens_par1_add_par2 1 5 = Abort
      /\ forall regs vmem s, expr regs vmem "(1)+(2)" s = Abort).
Proof. repeat split. Qed.

(** ** C2

    C2 says that evaluating [(1+2] returns with [ok = false].  The program
    does not return: the counter of [check_parentheses] ends at 1 and is
    never negative, so the check passes; no token of the range is at depth
    0, [find_major_operator] returns -1 and the assertion in [cal_expr]
    stops the process. *)
Theorem C2_unclosed_parenthesis_aborts :
  make_token "(1+2" = Ret (LexOk tokens_open_1_add_2)
  /\ check_parentheses tokens_open_1_add_2 0 3 = Ret true
  /\ find_major_operator tokens_open_1_add_2 0 3 = Ret (-1)
  /\ forall regs vmem s, expr regs vmem "(1+2" s = Abort.
Proof. repeat split. Qed.

(** ** C3 *)

(** C3 as stated fails where the last token of the range is a binary
    operator: for [1*2+] the rightmost operator of minimal priority at
    depth 0 in the range [0..3] is the [+] at index 3, and the program's
    choice is the [*] at index 1, because its scan stops before
    [end_index]. *)
Lemma C3_last_token_not_scanned :
  make_token "1*2+" = Ret (LexOk tokens_1_mul_2_add)
  /\ find_major_operator tokens_1_mul_2_add 0 3 = Ret 1
  /\ split_point tokens_1_mul_2_add 0 3 3
  /\ ~ split_point tokens_1_mul_2_add 0 3 1.
Proof.
  assert (Hadd : candidate tokens_1_mul_2_add 0 3 1)
    by (exists (mkToken TK_ADD ""); repeat split).
  assert (Hmul : candidate tokens_1_mul_2_add 0 1 2)
    by (exists (mkToken TK_MUL ""); repeat split).
  repeat split; try lia.
  - exists 1. split; [exact Hadd |].
    intros j pj Hj Hc. pose proof (candidate_priority _ _ _ _ Hc) as Hp.
    assert (Hcases : j = 0 \/ j = 1 \/ j = 2 \/ j = 3) by lia.
    destruct Hcases as [-> | [-> | [-> | ->]]];
      destruct Hc as (t & Ht & Hb & _); inversion Ht; subst t;
      simpl in Hb; inversion Hb; lia.
  - intros (_ & pm & Hc & Hmin).
    rewrite (candidate_fun _ _ _ _ _ Hc Hmul) in Hmin.
    destruct (Hmin 3 1) as [H _]; [lia | exact Hadd | lia].
Qed.

(** C3, amended: whenever [find_major_operator] returns a position, it is
    the rightmost token of minimal priority among the binary operators at
    depth 0 of the range without its last token, and it returns -1 only when
    that part of the range has no such operator; [1+2*3] evaluates to 7 and
    [10-2-3] to 5. *)
Theorem C3_major_operator :
  (forall tokens b e m,
      find_major_operator tokens b e = Ret m ->
      (m <> -1 -> split_point tokens b (e - 1) m)
      /\ (m = -1 -> forall j p, b <= j <= e - 1 -> ~ candidate tokens b j p))
  /\ (forall regs vmem s, expr regs vmem "1+2*3" s = Ret (7, s))
  /\ (forall regs vmem s, expr regs vmem "10-2-3" s = Ret (5, s)).
Proof.
  split; [| split; reflexivity].
  intros tokens b e m H.
  destruct (find_major_operator_scan _ _ _ _ H) as (minp & Hinv).
  destruct Hinv as [(Hm & _ & Hnone) | (Hm & Hsp & Hc)].
  - split; [congruence |]. intros _ j p Hj. apply Hnone. lia.
  - pose proof (candidate_index _ _ _ _ Hc) as H0.
    split; [| lia]. intros _.
    replace (e - 1) with (b + Z.of_nat (Z.to_nat (e - b)) - 1) by lia.
    exact Hsp.
Qed.

Lemma C3_major_operator_witness :
  find_major_operator tokens_1_mul_2_add 0 3 = Ret 1
  /\ split_point tokens_1_mul_2_add 0 2 1.
Proof.
  split; [reflexivity |].
  apply (proj1 (proj1 C3_major_operator tokens_1_mul_2_add 0 3 1 eq_refl)).
  discriminate.
Defined.

(** ** C4

    C4 says that [5==5], [1<2] and [2>=3] evaluate to 1, 1 and 0 with
    [ok = true].  For [2>=3] the rule [">"] stands before [">="] in the
    table and wins at offset 1; nothing matches ["=3"] at offset 0, so
    [make_token] fails at position 2 and [expr] stores [false] in
    [*success].  For the other two the value is as claimed, and [*success]
    is left as the caller had it. *)
Theorem C4_relational_operators :
  make_token "2>=3" = Ret (LexFail 2)
  /\ (forall regs vmem s, expr regs vmem "2>=3" s = Ret (0, false))
  /\ (forall regs vmem s, expr regs vmem "5==5" s = Ret (1, s))
  /\ (forall regs vmem s, expr regs vmem "1<2" s = Ret (1, s)).
Proof. repeat split. Qed.

(** ** C5 *)

(** C5: a [+], [-] or [*] at the head of the unread input becomes one token,
    the unary one when no token was emitted yet or the last emitted token is
    not an integer, a register or a closing parenthesis, and the binary one
    otherwise; so in every token sequence [make_token] returns, each unary
    token stands in such a position and each binary [+], [-], [*] does not.
    [-3+4] evaluates to 1, [3-4] to -1 and [3*-4] to -12 (as 64-bit words). *)
Theorem C5_unary_or_binary :
  (forall c u bn rest toks,
      sign_char c u bn ->
      (length toks < 32)%nat ->
      exists ty,
        lex_step (String c rest) toks = Some (Ret (1%nat, toks ++ [mkToken ty ""]))
        /\ (first_or_after_non_operand toks -> ty = u)
        /\ (~ first_or_after_non_operand toks -> ty = bn))
  /\ (forall s toks, make_token s = Ret (LexOk toks) -> resolved toks)
  /\ (forall regs vmem s, expr regs vmem "-3+4" s = Ret (1, s))
  /\ (forall regs vmem s, expr regs vmem "3-4" s = Ret (to_word (-1), s))
  /\ (forall regs vmem s, expr regs vmem "3*-4" s = Ret (to_word (-12), s)).
Proof.
  split; [| split; [| repeat split]].
  - intros c u bn rest toks Hc Hlen.
    exists (if unary_position toks then u else bn).
    split; [now apply lex_step_sign |].
    pose proof (unary_position_spec toks) as Hspec.
    destruct (unary_position toks); split; intros H; try reflexivity.
    + destruct H. now apply Hspec.
    + apply Hspec in H. discriminate.
  - intros s toks H. unfold make_token in H.
    exact (make_token_loop_resolved _ _ _ _ _ resolved_nil H).
Qed.

Lemma C5_unary_or_binary_witness :
  (make_token "3*-4" =
   Ret (LexOk [mkToken TK_INT "3"; mkToken TK_MUL ""; mkToken TK_NEG "";
               mkToken TK_INT "4"])
   /\ first_or_after_non_operand [mkToken TK_INT "3"; mkToken TK_MUL ""]
   /\ ~ first_or_after_non_operand [mkToken TK_INT "3"])
  /\ lex_step "-4" [mkToken TK_INT "3"; mkToken TK_MUL ""] =
     Some (Ret (1%nat, [mkToken TK_INT "3"; mkToken TK_MUL ""; mkToken TK_NEG ""])).
Proof.
  pose proof (proj1 (proj2 C5_unary_or_binary) "3*-4"%string _ eq_refl) as H.
  assert (Hpos : first_or_after_non_operand [mkToken TK_INT "3"; mkToken TK_MUL ""]).
  { apply (proj1 (H [mkToken TK_INT "3"; mkToken TK_MUL ""] (mkToken TK_NEG "")
                    [mkToken TK_INT "4"] eq_refl)).
    right. now left. }
  split; [split; [reflexivity | split; [exact Hpos |]] |].
  - apply (proj2 (H [mkToken TK_INT "3"] (mkToken TK_MUL "")
                    [mkToken TK_NEG ""; mkToken TK_INT "4"] eq_refl)).
    right. right. reflexivity.
  - destruct (proj1 C5_unary_or_binary "-"%char TK_NEG TK_MINUS "4"%string
                    [mkToken TK_INT "3"; mkToken TK_MUL ""] sign_minus
                    ltac:(simpl; lia))
      as (ty & Hstep & Hunary & _).
    rewrite Hstep, (Hunary Hpos). reflexivity.
Defined.

(** ** C6 *)

(** The only store of [expr] to [*success] is [false], on a lexing failure;
    on every other returning path the flag is what it was before the call. *)
Lemma expr_success_flag (regs : string -> Z * bool) (vmem : Z -> Z -> Z)
  (e : string) (s ok : bool) (v : Z) :
  expr regs vmem e s = Ret (v, ok) ->
  (ok = false /\ v = 0 /\ exists pos, make_token e = Ret (LexFail pos))
  \/ (ok = s /\ exists toks, make_token e = Ret (LexOk toks)).
Proof.
  unfold expr. destruct (make_token e) as [[toks | pos] | | |]; cbn [bind];
    try discriminate.
  - destruct (cal_expr regs vmem toks 0 (Z.of_nat (length toks) - 1)); cbn [bind];
      try discriminate.
    intros H. inversion H; subst. right. split; [reflexivity | now exists toks].
  - intros H. inversion H; subst. left. repeat split. now exists pos.
Qed.

(** C6 says that [ok] is false exactly when the evaluation fails.  For a
    register name the register file does not know, [cal_expr] prints its
    message and returns 0, and [expr] returns without a store to
    [*success]: a caller whose flag held [true] still reads [true]. *)
Theorem C6_unknown_register_not_reported :
  forall vmem s, expr no_register vmem "$name" s = Ret (0, s).
Proof. reflexivity. Qed.

(** * Further properties of the expression engine *)

(** ** The rule table read character by character *)

(** The number of leading characters of [s] in the class [p]. *)
Fixpoint span (p : ascii -> bool) (s : string) : nat :=
  match s with
  | String a s' => if p a then S (span p s') else O
  | EmptyString => O
  end.

Definition is_blank (c : ascii) : bool := Ascii.eqb c " ".

(** The length of the integer literal at the head of [s]: the decimal
    digits, or [0x] and the decimal digits after it when there is one. *)
Definition int_length (s : string) : nat :=
  match s with
  | String c (String x r) =>
      if (Ascii.eqb c "0" && Ascii.eqb x "x")%bool then
        match span is_digit r with
        | O => 1%nat
        | S k => S (S (S k))
        end
      else span is_digit s
  | _ => span is_digit s
  end.

(** The first character of [s] is in the class [p]. *)
Definition head_in (p : ascii -> bool) (s : string) : bool :=
  match s with
  | String a _ => p a
  | EmptyString => false
  end.

(** What the loop over the rules finds at the head of [s]. *)
Definition next_token (s : string) : option (nat * token_enum_t) :=
  match s with
  | EmptyString => None
  | String c rest =>
      if is_blank c then Some (span is_blank s, TK_NOTYPE)
      else if Ascii.eqb c "+" then Some (1%nat, DUMMY_1)
      else if Ascii.eqb c "-" then Some (1%nat, DUMMY_2)
      else if Ascii.eqb c "*" then Some (1%nat, DUMMY_3)
      else if Ascii.eqb c "/" then Some (1%nat, TK_DIV)
      else if Ascii.eqb c "=" then
        if head_in (fun a => Ascii.eqb a "=") rest then Some (2%nat, TK_BOOL_EQ)
        else None
      else if is_digit c then Some (int_length s, TK_INT)
      else if Ascii.eqb c "(" then Some (1%nat, TK_PAR_L)
      else if Ascii.eqb c ")" then Some (1%nat, TK_PAR_R)
      else if Ascii.eqb c "$" then
        match span is_word rest with
        | O => None
        | S k => Some (S (S k), TK_REG)
        end
      else if Ascii.eqb c "<" then Some (1%nat, TK_BOOL_LT)
      else if Ascii.eqb c ">" then Some (1%nat, TK_BOOL_GT)
      else None
  end%char.

Lemma span_le (p : ascii -> bool) (s : string) : (span p s <= String.length s)%nat.
Proof.
  induction s as [| a s IH]; simpl; [lia |]. destruct (p a); lia.
Qed.

Lemma skip_0 (s : string) : skip 0 s = s.
Proof. now destruct s. Qed.

(** The matches of [r+] for a pattern [r] of one character of class [p]:
    every non-empty prefix of the leading run. *)
Lemma plus_iter_span (m : string -> list (nat * string)) (p : ascii -> bool) :
  (forall s, m s = match s with
                   | String a s' => if p a then [(1%nat, s')] else []
                   | EmptyString => []
                   end) ->
  forall n s, (span p s <= n)%nat ->
              plus_iter m n s = map (fun k => (k, skip k s)) (seq 1 (span p s)).
Proof.
  intros Hm n. induction n as [| n IH]; intros s Hn.
  - assert (E : span p s = O) by lia. now rewrite E.
  - cbn [plus_iter]. rewrite Hm. destruct s as [| a s]; [reflexivity |].
    cbn [span] in *. destruct (p a); [| reflexivity].
    cbn [flat_map fst snd]. rewrite app_nil_r, IH by lia.
    rewrite map_map. cbn [seq map skip]. f_equal.
    rewrite <- (seq_shift (span p s) 1), map_map. reflexivity.
Qed.

Lemma fold_max_seq (k : nat) :
  forall a, fold_left Nat.max (seq (S a) k) a = (a + k)%nat.
Proof.
  induction k as [| k IH]; intros a; cbn [seq fold_left]; [lia |].
  replace (Nat.max a (S a)) with (S a) by lia. rewrite IH. lia.
Qed.

Lemma rmatch_Plus_class (r : regex) (p : ascii -> bool) (s : string) :
  (forall s, rmatch r s = match s with
                          | String a s' => if p a then [(1%nat, s')] else []
                          | EmptyString => []
                          end) ->
  rmatch (Plus r) s = map (fun k => (k, skip k s)) (seq 1 (span p s)).
Proof.
  intros Hm. cbn [rmatch]. apply (plus_iter_span _ p Hm).
  pose proof (span_le p s). lia.
Qed.

Lemma rmatch_Chr_class (c : ascii) (s : string) :
  rmatch (Chr c) s = match s with
                     | String a s' => if Ascii.eqb a c then [(1%nat, s')] else []
                     | EmptyString => []
                     end.
Proof. reflexivity. Qed.

Lemma rmatch_Cls_class (p : ascii -> bool) (s : string) :
  rmatch (Cls p) s = match s with
                     | String a s' => if p a then [(1%nat, s')] else []
                     | EmptyString => []
                     end.
Proof. reflexivity. Qed.

Lemma map_add_seq (b k : nat) :
  forall a, map (fun i => (b + i)%nat) (seq a k) = seq (b + a) k.
Proof.
  induction k as [| k IH]; intros a; cbn [seq map]; [reflexivity |].
  rewrite IH. do 2 f_equal. lia.
Qed.

(** The longest of the matches [b + (a+1)], ..., [b + (a+k)]. *)
Lemma longest_seq (g : nat -> nat) (b a k : nat) :
  (forall i, g i = (b + i)%nat) ->
  match map g (seq (S a) k) with
  | [] => None
  | n :: ns => Some (fold_left Nat.max ns n)
  end = match k with O => None | S _ => Some (b + a + k)%nat end.
Proof.
  intros Hg. rewrite (map_ext _ (fun i => (b + i)%nat)) by exact Hg.
  rewrite map_add_seq. destruct k as [| k]; [reflexivity |].
  replace (b + S a)%nat with (S (b + a)) by lia. cbn [seq]. rewrite fold_max_seq.
  f_equal. lia.
Qed.

Lemma regexec_Plus_class (r : regex) (p : ascii -> bool) (s : string) :
  (forall s, rmatch r s = match s with
                          | String a s' => if p a then [(1%nat, s')] else []
                          | EmptyString => []
                          end) ->
  regexec (Plus r) s = match span p s with O => None | S k => Some (S k) end.
Proof.
  intros Hm. unfold regexec. rewrite (rmatch_Plus_class r p s Hm).
  rewrite map_map. cbn [fst].
  rewrite (longest_seq _ 0 0) by reflexivity. now destruct (span p s).
Qed.

Lemma regexec_Chr (d c : ascii) (rest : string) :
  regexec (Chr d) (String c rest) = if Ascii.eqb c d then Some 1%nat else None.
Proof. unfold regexec. cbn [rmatch]. now destruct (Ascii.eqb c d). Qed.

Lemma regexec_Chr2 (d1 d2 c : ascii) (rest : string) :
  regexec (Cat (Chr d1) (Chr d2)) (String c rest) =
  if Ascii.eqb c d1 then
    match rest with
    | String c2 _ => if Ascii.eqb c2 d2 then Some 2%nat else None
    | EmptyString => None
    end
  else None.
Proof.
  unfold regexec. cbn [rmatch]. destruct (Ascii.eqb c d1); [| reflexivity].
  cbn [flat_map fst snd]. destruct rest as [| c2 rest]; [reflexivity |].
  cbn [rmatch]. now destruct (Ascii.eqb c2 d2).
Qed.

Lemma rmatch_Cat (r1 r2 : regex) (s : string) :
  rmatch (Cat r1 r2) s =
  flat_map (fun m1 => map (fun m2 => ((fst m1 + fst m2)%nat, snd m2))
                          (rmatch r2 (snd m1)))
           (rmatch r1 s).
Proof. reflexivity. Qed.

Lemma rmatch_Cat_Chr (d : ascii) (r : regex) (c : ascii) (rest : string) :
  rmatch (Cat (Chr d) r) (String c rest) =
  if Ascii.eqb c d then map (fun m => (S (fst m), snd m)) (rmatch r rest) else [].
Proof.
  rewrite rmatch_Cat, rmatch_Chr_class. destruct (Ascii.eqb c d); [| reflexivity].
  cbn [flat_map fst snd]. now rewrite app_nil_r.
Qed.

Lemma regexec_reg (c : ascii) (rest : string) :
  regexec (Cat (Chr "$") (Plus (Cls is_word))) (String c rest) =
  if Ascii.eqb c "$" then
    match span is_word rest with
    | O => None
    | S k => Some (S (S k))
    end
  else None.
Proof.
  unfold regexec. rewrite rmatch_Cat_Chr. destruct (Ascii.eqb c "$"); [| reflexivity].
  rewrite (rmatch_Plus_class _ is_word rest (rmatch_Cls_class is_word)).
  rewrite !map_map. cbn [fst snd].
  rewrite (longest_seq _ 1 0) by reflexivity. now destruct (span is_word rest).
Qed.

Definition int_rule : regex :=
  Cat (Opt (Cat (Chr "0") (Chr "x"))) (Plus (Cls is_digit)).

Lemma rmatch_int (s : string) :
  rmatch int_rule s =
  map (fun k => (k, skip k s)) (seq 1 (span is_digit s))
  ++ match s with
     | String c (String x r) =>
         if (Ascii.eqb c "0" && Ascii.eqb x "x")%bool then
           map (fun k => ((2 + k)%nat, skip k r)) (seq 1 (span is_digit r))
         else []
     | _ => []
     end.
Proof.
  unfold int_rule. rewrite rmatch_Cat.
  change (rmatch (Opt (Cat (Chr "0") (Chr "x"))) s)
    with ((0%nat, s) :: rmatch (Cat (Chr "0") (Chr "x")) s).
  cbn [flat_map fst snd].
  rewrite (rmatch_Plus_class _ is_digit s (rmatch_Cls_class is_digit)).
  rewrite map_map. cbn [fst snd Nat.add]. f_equal.
  destruct s as [| c [| x r]]; [reflexivity | |].
  - rewrite rmatch_Cat_Chr. now destruct (Ascii.eqb c "0").
  - rewrite rmatch_Cat_Chr. destruct (Ascii.eqb c "0"); [| reflexivity].
    rewrite rmatch_Chr_class. destruct (Ascii.eqb x "x"); [| reflexivity].
    cbn [map flat_map fst snd andb]. rewrite app_nil_r.
    rewrite (rmatch_Plus_class _ is_digit r (rmatch_Cls_class is_digit)).
    rewrite map_map. reflexivity.
Qed.

Lemma regexec_int (s : string) :
  regexec int_rule s = match int_length s with O => None | S k => Some (S k) end.
Proof.
  assert (Hplain : forall s,
             match map fst (map (fun k => (k, skip k s)) (seq 1 (span is_digit s))) with
             | [] => None
             | n :: ns => Some (fold_left Nat.max ns n)
             end = match span is_digit s with O => None | S k => Some (S k) end).
  { intros s'. rewrite map_map. cbn [fst].
    rewrite (longest_seq _ 0 0) by reflexivity. now destruct (span is_digit s'). }
  unfold regexec. rewrite rmatch_int.
  destruct s as [| c [| x r]]; try (rewrite app_nil_r; apply Hplain).
  unfold int_length.
  destruct (Ascii.eqb_spec c "0") as [-> | _]; cbn [andb];
    [| rewrite app_nil_r; apply Hplain].
  destruct (Ascii.eqb_spec x "x") as [-> | _]; [| rewrite app_nil_r; apply Hplain].
  cbn [span]. change (is_digit "0") with true. change (is_digit "x") with false.
  cbn [seq map fst app]. rewrite map_map. cbn [fst].
  destruct (span is_digit r) as [| k]; [reflexivity |].
  cbn [seq map fold_left]. rewrite (map_add_seq 2 k 2).
  change (Nat.max 1 (2 + 1)) with 3%nat. change (2 + 2)%nat with (S 3).
  rewrite fold_max_seq. reflexivity.
Qed.

Lemma int_length_digit (c : ascii) (rest : string) :
  int_length (String c rest) =
  if is_digit c then S (pred (int_length (String c rest))) else O.
Proof.
  unfold int_length. destruct rest as [| x r].
  - cbn [span]. now destruct (is_digit c).
  - destruct (Ascii.eqb_spec c "0") as [-> | _]; cbn [andb].
    + destruct (Ascii.eqb x "x"); [now destruct (span is_digit r) |].
      cbn [span]. now change (is_digit "0") with true.
    + cbn [span]. now destruct (is_digit c).
Qed.

Lemma first_rule_next_token (s : string) : first_rule rules s = next_token s.
Proof.
  destruct s as [| c rest]; [reflexivity |].
  unfold rules. cbn [first_rule].
  change (Cat (Opt (Cat (Chr "0") (Chr "x"))) (Plus (Cls is_digit))) with int_rule.
  rewrite (regexec_Plus_class _ is_blank _ (rmatch_Chr_class " ")).
  rewrite !regexec_Chr, !regexec_Chr2, regexec_reg, regexec_int.
  unfold next_token. cbn [span]. rewrite int_length_digit. unfold is_blank.
  destruct (Ascii.eqb_spec c " ") as [-> | _]; [reflexivity |].
  destruct (Ascii.eqb_spec c "+") as [-> | _]; [reflexivity |].
  destruct (Ascii.eqb_spec c "-") as [-> | _]; [reflexivity |].
  destruct (Ascii.eqb_spec c "*") as [-> | _]; [reflexivity |].
  destruct (Ascii.eqb_spec c "/") as [-> | _]; [reflexivity |].
  destruct (Ascii.eqb_spec c "=") as [-> | _].
  { destruct rest as [| c2 rest]; [reflexivity |]. cbn [head_in].
    now destruct (Ascii.eqb c2 "="). }
  destruct (is_digit c); [reflexivity |].
  destruct (Ascii.eqb_spec c "(") as [-> | _]; [reflexivity |].
  destruct (Ascii.eqb_spec c ")") as [-> | _]; [reflexivity |].
  destruct (Ascii.eqb_spec c "$") as [-> | _].
  { now destruct (span is_word rest). }
  destruct (Ascii.eqb_spec c "<") as [-> | _]; [reflexivity |].
  destruct (Ascii.eqb_spec c ">") as [-> | _]; reflexivity.
Qed.

(** ** The loop of [make_token], turn by turn *)

Lemma next_token_bounds (s : string) (n : nat) (ty : token_enum_t) :
  next_token s = Some (n, ty) -> (1 <= n <= String.length s)%nat.
Proof. rewrite <- first_rule_next_token. apply first_rule_bounds. Qed.

Lemma make_token_loop_S (fuel : nat) (c : ascii) (rest : string) (pos : Z)
  (toks : list Token) :
  make_token_loop (S fuel) (String c rest) pos toks =
  match next_token (String c rest) with
  | None => Ret (LexFail pos)
  | Some (n, ty) =>
      toks' <- record_token ty (prefix_of n (String c rest)) toks ;;
      make_token_loop fuel (skip n (String c rest)) (pos + Z.of_nat n) toks'
  end.
Proof.
  cbn [make_token_loop]. unfold lex_step. rewrite first_rule_next_token.
  destruct (next_token (String c rest)) as [[n ty] |]; [| reflexivity].
  now destruct (record_token ty (prefix_of n (String c rest)) toks).
Qed.

(** Any fuel that covers the unread input gives the same result. *)
Lemma make_token_loop_fuel_irrel (f1 : nat) :
  forall f2 s pos toks,
    (String.length s <= f1)%nat -> (String.length s <= f2)%nat ->
    make_token_loop f1 s pos toks = make_token_loop f2 s pos toks.
Proof.
  induction f1 as [| f1 IH]; intros f2 s pos toks H1 H2;
    destruct s as [| c rest]; destruct f2 as [| f2]; try reflexivity;
    cbn [String.length] in H1, H2; try lia.
  rewrite !make_token_loop_S.
  destruct (next_token (String c rest)) as [[n ty] |] eqn:E; [| reflexivity].
  pose proof (next_token_bounds _ _ _ E) as Hn. cbn [String.length] in Hn.
  destruct (record_token ty (prefix_of n (String c rest)) toks); cbn [bind];
    try reflexivity.
  apply IH; rewrite skip_length; cbn [String.length]; lia.
Qed.

Lemma make_token_unfold (c : ascii) (rest : string) :
  make_token (String c rest) =
  match next_token (String c rest) with
  | None => Ret (LexFail 0)
  | Some (n, ty) =>
      toks' <- record_token ty (prefix_of n (String c rest)) [] ;;
      make_token_loop (String.length (skip n (String c rest)))
                      (skip n (String c rest)) (Z.of_nat n) toks'
  end.
Proof.
  unfold make_token. cbn [String.length]. rewrite make_token_loop_S.
  destruct (next_token (String c rest)) as [[n ty] |] eqn:E; [| reflexivity].
  pose proof (next_token_bounds _ _ _ E) as Hn. cbn [String.length] in Hn.
  destruct (record_token ty (prefix_of n (String c rest)) []); cbn [bind];
    try reflexivity.
  cbn [Z.add]. apply make_token_loop_fuel_irrel; [| lia].
  rewrite skip_length; cbn [String.length]; lia.
Qed.

(** The positions reported by a run that starts [d] characters later. *)
Definition shift (d : Z) (r : outcome lexed) : outcome lexed :=
  match r with
  | Ret (LexFail p) => Ret (LexFail (p + d))
  | _ => r
  end.

Lemma make_token_loop_shift (fuel : nat) :
  forall s pos toks d,
    make_token_loop fuel s (pos + d) toks = shift d (make_token_loop fuel s pos toks).
Proof.
  induction fuel as [| fuel IH]; intros s pos toks d; destruct s as [| c rest];
    try reflexivity.
  rewrite !make_token_loop_S.
  destruct (next_token (String c rest)) as [[n ty] |]; [| reflexivity].
  destruct (record_token ty (prefix_of n (String c rest)) toks); cbn [bind];
    try reflexivity.
  replace (pos + d + Z.of_nat n) with (pos + Z.of_nat n + d) by lia. apply IH.
Qed.


(** ** Where [make_token] fails *)

(** The characters a token can start with: [c], with [rest] after it. *)
Definition starts_token (c : ascii) (rest : string) : bool :=
  is_blank c || Ascii.eqb c "+" || Ascii.eqb c "-" || Ascii.eqb c "*"
  || Ascii.eqb c "/" || Ascii.eqb c "(" || Ascii.eqb c ")" || Ascii.eqb c "<"
  || Ascii.eqb c ">" || is_digit c
  || (Ascii.eqb c "=" && head_in (fun a => Ascii.eqb a "=") rest)
  || (Ascii.eqb c "$" && head_in is_word rest).

Lemma span_head (p : ascii -> bool) (s : string) :
  span p s = O <-> head_in p s = false.
Proof.
  destruct s as [| a s]; cbn [span head_in]; [tauto |].
  destruct (p a); split; intros H; try discriminate; reflexivity.
Qed.

Lemma next_token_none (c : ascii) (rest : string) :
  next_token (String c rest) = None <-> starts_token c rest = false.
Proof.
  unfold next_token, starts_token.
  destruct (is_blank c); [split; discriminate |].
  destruct (Ascii.eqb_spec c "+") as [-> | _]; [split; discriminate |].
  destruct (Ascii.eqb_spec c "-") as [-> | _]; [split; discriminate |].
  destruct (Ascii.eqb_spec c "*") as [-> | _]; [split; discriminate |].
  destruct (Ascii.eqb_spec c "/") as [-> | _]; [split; discriminate |].
  destruct (Ascii.eqb_spec c "=") as [-> | _].
  { cbn. destruct (head_in (fun a => Ascii.eqb a "=") rest); split;
      try discriminate; reflexivity. }
  destruct (is_digit c) eqn:Hd; [cbn; rewrite ?orb_true_r; split; discriminate |].
  destruct (Ascii.eqb_spec c "(") as [-> | _]; [split; discriminate |].
  destruct (Ascii.eqb_spec c ")") as [-> | _]; [split; discriminate |].
  destruct (Ascii.eqb_spec c "$") as [-> | _].
  { cbn. pose proof (span_head is_word rest) as Hs.
    destruct (span is_word rest); destruct (head_in is_word rest); split;
      try discriminate; try reflexivity; intros _.
    - now apply Hs.
    - destruct Hs as [_ Hs]. now specialize (Hs eq_refl). }
  destruct (Ascii.eqb_spec c "<") as [-> | _]; [split; discriminate |].
  destruct (Ascii.eqb_spec c ">") as [-> | _]; [split; discriminate |].
  cbn. split; reflexivity.
Qed.

Lemma skip_add (n : nat) : forall k s, skip k (skip n s) = skip (n + k) s.
Proof.
  induction n as [| n IH]; intros k s; [now rewrite skip_0 |].
  destruct s as [| a s]; cbn [skip Nat.add]; [now destruct k | apply IH].
Qed.

Lemma make_token_loop_fail (fuel : nat) :
  forall s pos toks p,
    make_token_loop fuel s pos toks = Ret (LexFail p) ->
    exists k c rest,
      p = pos + Z.of_nat k /\ (k < String.length s)%nat
      /\ skip k s = String c rest /\ starts_token c rest = false.
Proof.
  induction fuel as [| fuel IH]; intros s pos toks p H; destruct s as [| c rest];
    try discriminate.
  rewrite make_token_loop_S in H.
  destruct (next_token (String c rest)) as [[n ty] |] eqn:E.
  - pose proof (next_token_bounds _ _ _ E) as Hn.
    destruct (record_token ty (prefix_of n (String c rest)) toks) as [toks' | | |];
      cbn [bind] in H; try discriminate.
    destruct (IH _ _ _ _ H) as (k & c' & rest' & Hp & Hk & Hs & Hc).
    rewrite skip_length in Hk by lia. rewrite skip_add in Hs.
    exists (n + k)%nat, c', rest'. repeat split; auto; lia.
  - injection H as <-. exists O, c, rest.
    repeat split; [lia | cbn [String.length]; lia | now apply next_token_none].
Qed.

(** X2: the loop over the rules finds no match at a character exactly when
    [starts_token] is false there; when [make_token] returns [false], the
    position it reports is inside the string and holds such a character;
    and a string that starts with one fails at position 0. *)
Theorem X2_make_token_failure :
  (forall c rest,
      first_rule rules (String c rest) = None <-> starts_token c rest = false)
  /\ (forall s p,
         make_token s = Ret (LexFail p) ->
         0 <= p < Z.of_nat (String.length s)
         /\ exists c rest,
             skip (Z.to_nat p) s = String c rest /\ starts_token c rest = false)
  /\ (forall c rest,
         starts_token c rest = false -> make_token (String c rest) = Ret (LexFail 0)).
Proof.
  split; [| split].
  - intros c rest. rewrite first_rule_next_token. apply next_token_none.
  - intros s p H. destruct (make_token_loop_fail _ _ _ _ _ H)
      as (k & c & rest & Hp & Hk & Hs & Hc).
    split; [lia |]. exists c, rest. split; [| exact Hc].
    now replace (Z.to_nat p) with k by lia.
  - intros c rest H. rewrite make_token_unfold.
    apply next_token_none in H. now rewrite H.
Qed.

Lemma X2_make_token_failure_witness :
  (make_token "1+a" = Ret (LexFail 2)
   /\ 0 <= 2 < Z.of_nat (String.length "1+a")
   /\ exists c rest,
       skip (Z.to_nat 2) "1+a" = String c rest /\ starts_token c rest = false)
  /\ make_token "=1" = Ret (LexFail 0).
Proof.
  split; [split; [reflexivity |] |].
  - apply (proj1 (proj2 X2_make_token_failure) "1+a"%string 2). reflexivity.
  - apply (proj2 (proj2 X2_make_token_failure) "="%char "1"%string). reflexivity.
Defined.

(** ** Blanks around an expression *)

Fixpoint blanks (k : nat) : string :=
  match k with
  | O => EmptyString
  | S k' => String " " (blanks k')
  end.

Lemma span_blanks_app (k : nat) (s : string) :
  span is_blank (blanks k ++ s) = (k + span is_blank s)%nat.
Proof. induction k as [| k IH]; cbn; [reflexivity | now rewrite IH]. Qed.

Lemma skip_blanks_app (k : nat) (s : string) : skip k (blanks k ++ s) = s.
Proof. induction k as [| k IH]; cbn; [apply skip_0 | exact IH]. Qed.

Lemma skip_span_blanks (k : nat) (s : string) :
  skip (k + span is_blank s) (blanks k ++ s) = skip (span is_blank s) s.
Proof. induction k as [| k IH]; cbn; [reflexivity | exact IH]. Qed.

Lemma make_token_leading_blanks (k : nat) (e : string) :
  make_token (blanks k ++ e) = shift (Z.of_nat k) (make_token e).
Proof.
  destruct k as [| k].
  { cbn [blanks append]. destruct (make_token e) as [[toks | p] | | |]; cbn [shift];
      try reflexivity. now rewrite Z.add_0_r. }
  change (blanks (S k) ++ e)%string with (String " " (blanks k ++ e)).
  rewrite make_token_unfold.
  change (next_token (String " " (blanks k ++ e)))
    with (Some (span is_blank (blanks (S k) ++ e), TK_NOTYPE)).
  rewrite span_blanks_app. cbn [record_token bind].
  change (String " " (blanks k ++ e)) with (blanks (S k) ++ e)%string.
  rewrite skip_span_blanks.
  destruct e as [| c rest]; [reflexivity |].
  destruct (is_blank c) eqn:Hc.
  - rewrite (make_token_unfold c rest). unfold next_token. rewrite Hc.
    cbn [record_token bind]. rewrite <- make_token_loop_shift. f_equal. lia.
  - cbn [span]. rewrite Hc. cbn [skip]. unfold make_token.
    rewrite <- make_token_loop_shift. f_equal. lia.
Qed.

Lemma span_app_blanks (p : ascii -> bool) (s : string) (k : nat) :
  p " "%char = false -> span p (s ++ blanks k) = span p s.
Proof.
  intros Hp. induction s as [| a s IH]; cbn [append span].
  - destruct k; cbn [blanks span]; [reflexivity | now rewrite Hp].
  - now rewrite IH.
Qed.

Lemma span_app_short (p : ascii -> bool) (s t : string) :
  (span p s < String.length s)%nat -> span p (s ++ t) = span p s.
Proof.
  induction s as [| a s IH]; cbn [append span String.length]; [lia |].
  destruct (p a); [| reflexivity]. intros H. rewrite IH; [reflexivity | lia].
Qed.

Lemma head_in_app_blanks (p : ascii -> bool) (s : string) (k : nat) :
  p " "%char = false -> head_in p (s ++ blanks k) = head_in p s.
Proof.
  intros Hp. destruct s as [| a s]; [| reflexivity].
  destruct k; cbn; [reflexivity | exact Hp].
Qed.

Lemma int_length_app_blanks (s : string) (k : nat) :
  int_length (s ++ blanks k) = int_length s.
Proof.
  assert (Hd : is_digit " " = false) by reflexivity.
  destruct s as [| c [| x r]].
  - destruct k as [| [| k]]; reflexivity.
  - destruct k as [| k]; [reflexivity |]. cbn [append blanks int_length].
    rewrite andb_false_r. cbn [span]. rewrite Hd. now destruct (is_digit c).
  - cbn [append int_length].
    rewrite (span_app_blanks is_digit r k Hd).
    change (String c (String x (r ++ blanks k)))
      with (String c (String x r) ++ blanks k)%string.
    now rewrite (span_app_blanks is_digit _ k Hd).
Qed.

Lemma next_token_app_blanks (c : ascii) (rest : string) (k : nat) :
  (span is_blank (String c rest) < String.length (String c rest))%nat ->
  next_token (String c rest ++ blanks k) = next_token (String c rest).
Proof.
  intros Hs. cbn [append]. unfold next_token.
  change (String c (rest ++ blanks k)) with (String c rest ++ blanks k)%string.
  rewrite (span_app_short is_blank _ _ Hs), int_length_app_blanks.
  rewrite (head_in_app_blanks _ rest k eq_refl).
  now rewrite (span_app_blanks is_word rest k eq_refl).
Qed.

Lemma prefix_of_app (n : nat) :
  forall s t, (n <= String.length s)%nat -> prefix_of n (s ++ t) = prefix_of n s.
Proof.
  induction n as [| n IH]; intros s t H; [now destruct s; destruct t |].
  destruct s as [| a s]; cbn [String.length] in H; [lia |].
  cbn [append prefix_of]. rewrite IH; [reflexivity | lia].
Qed.

Lemma skip_app (n : nat) :
  forall s t, (n <= String.length s)%nat -> skip n (s ++ t) = (skip n s ++ t)%string.
Proof.
  induction n as [| n IH]; intros s t H; [now rewrite !skip_0 |].
  destruct s as [| a s]; cbn [String.length] in H; [lia |].
  cbn [append skip]. apply IH. lia.
Qed.

Lemma span_blanks (k : nat) : span is_blank (blanks k) = k.
Proof. induction k as [| k IH]; cbn; [reflexivity | now rewrite IH]. Qed.

Lemma skip_blanks (k : nat) : skip k (blanks k) = EmptyString.
Proof. induction k as [| k IH]; [reflexivity | exact IH]. Qed.

Lemma make_token_loop_blanks (k fuel : nat) (pos : Z) (toks : list Token) :
  (k <= fuel)%nat -> make_token_loop fuel (blanks k) pos toks = Ret (LexOk toks).
Proof.
  intros H. destruct k as [| k]; [now destruct fuel |].
  destruct fuel as [| fuel]; [lia |].
  change (blanks (S k)) with (String " " (blanks k)). rewrite make_token_loop_S.
  change (next_token (String " " (blanks k)))
    with (Some (span is_blank (blanks (S k)), TK_NOTYPE)).
  rewrite span_blanks. cbn [record_token bind].
  change (String " " (blanks k)) with (blanks (S k)). rewrite skip_blanks.
  now destruct fuel.
Qed.

Lemma all_blanks (s : string) :
  span is_blank s = String.length s -> s = blanks (String.length s).
Proof.
  induction s as [| a s IH]; cbn [span String.length blanks]; [reflexivity |].
  unfold is_blank at 1. destruct (Ascii.eqb_spec a " ") as [-> | _]; [| discriminate].
  intros H. f_equal. apply IH. lia.
Qed.

Lemma blanks_app (m k : nat) : (blanks m ++ blanks k)%string = blanks (m + k).
Proof. induction m as [| m IH]; cbn; [reflexivity | now rewrite IH]. Qed.

Lemma make_token_loop_trailing_blanks (fuel : nat) :
  forall s k pos toks,
    (String.length s <= fuel)%nat ->
    make_token_loop (fuel + k) (s ++ blanks k) pos toks
    = make_token_loop fuel s pos toks.
Proof.
  induction fuel as [| fuel IH]; intros s k pos toks Hlen;
    (destruct (Nat.eq_dec (span is_blank s) (String.length s)) as [Hall | Hsome];
     [ rewrite (all_blanks s Hall), blanks_app, !make_token_loop_blanks by lia;
       reflexivity |]).
  - destruct s; cbn in *; [congruence | lia].
  - destruct s as [| c rest]; [cbn in Hsome; congruence |].
    assert (Hs : (span is_blank (String c rest) < String.length (String c rest))%nat)
      by (pose proof (span_le is_blank (String c rest)); lia).
    change (S fuel + k)%nat with (S (fuel + k)).
    change (String c rest ++ blanks k)%string with (String c (rest ++ blanks k)).
    rewrite !make_token_loop_S.
    change (String c (rest ++ blanks k)) with (String c rest ++ blanks k)%string.
    rewrite (next_token_app_blanks c rest k Hs).
    destruct (next_token (String c rest)) as [[n ty] |] eqn:E; [| reflexivity].
    pose proof (next_token_bounds _ _ _ E) as Hn.
    rewrite prefix_of_app, skip_app by lia.
    destruct (record_token ty (prefix_of n (String c rest)) toks); cbn [bind];
      try reflexivity.
    apply IH. rewrite skip_length by lia. cbn [String.length] in *. lia.
Qed.

Lemma length_append (s t : string) :
  String.length (s ++ t) = (String.length s + String.length t)%nat.
Proof. induction s as [| a s IH]; cbn; [reflexivity | now rewrite IH]. Qed.

Lemma length_blanks (k : nat) : String.length (blanks k) = k.
Proof. induction k as [| k IH]; cbn; [reflexivity | now rewrite IH]. Qed.

Lemma make_token_trailing_blanks (k : nat) (e : string) :
  make_token (e ++ blanks k) = make_token e.
Proof.
  unfold make_token. rewrite length_append, length_blanks.
  now apply make_token_loop_trailing_blanks.
Qed.

(** X3: blanks before an expression only move the position [make_token]
    reports on a failure, blanks after it change nothing; so [expr] gives
    the same result with and without them. *)
Theorem X3_blanks_around_expression :
  (forall k e, make_token (blanks k ++ e) = shift (Z.of_nat k) (make_token e))
  /\ (forall k e, make_token (e ++ blanks k) = make_token e)
  /\ (forall regs vmem j k e success,
         expr regs vmem (blanks j ++ e ++ blanks k) success
         = expr regs vmem e success).
Proof.
  split; [exact make_token_leading_blanks | split; [exact make_token_trailing_blanks |]].
  intros regs vmem j k e success. unfold expr.
  rewrite make_token_leading_blanks, make_token_trailing_blanks.
  now destruct (make_token e) as [[toks | p] | | |].
Qed.

(** ** Integer literals *)

Lemma strtol_unsigned_eq (s : string) :
  strtol_unsigned s =
  match s with
  | String c r =>
      if Ascii.eqb c "0" then
        match r with
        | String x (String h s') =>
            if ((Ascii.eqb x "x" || Ascii.eqb x "X") && is_hex_digit h)%bool
            then strtol_digits 16 (String h s') 0
            else strtol_digits 8 s 0
        | _ => strtol_digits 8 s 0
        end
      else strtol_digits 10 s 0
  | EmptyString => strtol_digits 10 s 0
  end.
Proof.
  destruct s as [| c r]; [reflexivity |].
  destruct c as [[|] [|] [|] [|] [|] [|] [|] [|]]; reflexivity.
Qed.

Lemma strtol_eq (nptr : string) :
  strtol nptr =
  match skip_spaces nptr with
  | String c s =>
      if Ascii.eqb c "-" then Z.max INT64_MIN (- strtol_unsigned s)
      else if Ascii.eqb c "+" then Z.min INT64_MAX (strtol_unsigned s)
      else Z.min INT64_MAX (strtol_unsigned (String c s))
  | EmptyString => Z.min INT64_MAX (strtol_unsigned EmptyString)
  end.
Proof.
  unfold strtol. destruct (skip_spaces nptr) as [| c s]; [reflexivity |].
  destruct c as [[|] [|] [|] [|] [|] [|] [|] [|]]; reflexivity.
Qed.

(** The characters of [s] are all in the class [p]. *)
Definition all_in (p : ascii -> bool) (s : string) : Prop :=
  span p s = String.length s.

Definition is_letter (c : ascii) : bool := in_range 65 90 c || in_range 97 122 c.

Lemma digit_plain (c : ascii) :
  is_digit c = true ->
  is_blank c = false /\ Ascii.eqb c "+" = false /\ Ascii.eqb c "-" = false
  /\ Ascii.eqb c "*" = false /\ Ascii.eqb c "/" = false /\ Ascii.eqb c "=" = false
  /\ Ascii.eqb c "x" = false /\ Ascii.eqb c "X" = false /\ is_space c = false.
Proof.
  intros H. unfold is_blank, is_space.
  repeat split;
    try (destruct (Ascii.eqb_spec c " ") as [-> | _]; [discriminate |]);
    try reflexivity;
    try match goal with
        | |- Ascii.eqb c ?d = false =>
            destruct (Ascii.eqb_spec c d) as [-> | _]; [discriminate | reflexivity]
        end.
  unfold is_digit, in_range in *. cbn [orb].
  destruct (Nat.leb_spec 48 (nat_of_ascii c)); [| discriminate].
  destruct (Nat.leb_spec 9 (nat_of_ascii c)); [| reflexivity].
  destruct (Nat.leb_spec (nat_of_ascii c) 13); [lia | reflexivity].
Qed.

Lemma next_token_digit (c : ascii) (rest : string) :
  is_digit c = true ->
  next_token (String c rest) = Some (int_length (String c rest), TK_INT).
Proof.
  intros H. destruct (digit_plain c H) as (H1 & H2 & H3 & H4 & H5 & H6 & _).
  unfold next_token. now rewrite H1, H2, H3, H4, H5, H6, H.
Qed.

Lemma all_in_cons (p : ascii -> bool) (c : ascii) (s : string) :
  all_in p (String c s) <-> p c = true /\ all_in p s.
Proof.
  unfold all_in. cbn [span String.length].
  destruct (p c); split; intros H.
  - split; [reflexivity | lia].
  - destruct H as [_ H]. now rewrite H.
  - discriminate.
  - destruct H. discriminate.
Qed.

Lemma int_length_all (s : string) : all_in is_digit s -> int_length s = String.length s.
Proof.
  intros H. destruct s as [| c [| x r]]; try exact H.
  apply all_in_cons in H. destruct H as [Hc H]. apply all_in_cons in H.
  destruct H as [Hx H]. destruct (digit_plain x Hx) as (_ & _ & _ & _ & _ & _ & Hx' & _).
  unfold int_length. rewrite Hx', andb_false_r.
  apply all_in_cons. split; [exact Hc |]. apply all_in_cons. now split.
Qed.

Lemma prefix_of_all (s : string) : prefix_of (String.length s) s = s.
Proof. induction s as [| a s IH]; cbn; [reflexivity | now rewrite IH]. Qed.

Lemma skip_all (s : string) : skip (String.length s) s = EmptyString.
Proof. induction s as [| a s IH]; [reflexivity | exact IH]. Qed.

Lemma digit_val_bounds (c : ascii) (d : Z) : digit_val c = Some d -> 0 <= d.
Proof.
  unfold digit_val, in_range.
  repeat match goal with
         | |- context [Nat.leb ?a ?b] => destruct (Nat.leb_spec a b)
         end; cbn [andb]; intros E; inversion E; lia.
Qed.

Lemma strtol_digits_nonneg (base : Z) (s : string) :
  0 <= base -> forall acc, 0 <= acc -> 0 <= strtol_digits base s acc.
Proof.
  intros Hb. induction s as [| c s IH]; intros acc Ha; cbn [strtol_digits]; [exact Ha |].
  destruct (digit_val c) as [d |] eqn:E; [| exact Ha].
  pose proof (digit_val_bounds _ _ E).
  destruct (d <? base); [apply IH; nia | exact Ha].
Qed.

Lemma to_word_small (v : Z) : 0 <= v <= INT64_MAX -> to_word v = v.
Proof.
  intros H. unfold to_word, two64. apply Z.mod_small.
  unfold INT64_MAX in H. lia.
Qed.

(** The single token of a literal, and its value. *)
Lemma make_token_literal (s : string) :
  s <> EmptyString -> head_in is_digit s = true ->
  int_length s = String.length s -> (String.length s < 32)%nat ->
  make_token s = Ret (LexOk [mkToken TK_INT s]).
Proof.
  intros Hne Hd Hl Hlen. destruct s as [| c rest]; [congruence |].
  cbn [head_in] in Hd. rewrite make_token_unfold, (next_token_digit c rest Hd), Hl.
  rewrite prefix_of_all, skip_all. unfold record_token.
  destruct (Nat.leb_spec 32 (String.length (String c rest))); [lia |].
  reflexivity.
Qed.

Lemma expr_literal (regs : string -> Z * bool) (vmem : Z -> Z -> Z) (s : string)
  (success : bool) :
  make_token s = Ret (LexOk [mkToken TK_INT s]) ->
  expr regs vmem s success = Ret (to_word (strtol s), success).
Proof. intros H. unfold expr. rewrite H. reflexivity. Qed.

Lemma digit_is_hex (c : ascii) : is_digit c = true -> is_hex_digit c = true.
Proof.
  unfold is_digit, is_hex_digit, digit_val. intros H. rewrite H.
  unfold in_range in H. apply andb_true_iff in H. destruct H as [H1 H2].
  apply Nat.leb_le in H1, H2. apply Z.ltb_lt. lia.
Qed.

(** X4: an expression that is one integer literal is read by [strtol] with
    base 0: a run of decimal digits counts in base 10, or in base 8 when it
    starts with [0] (and then only up to its first 8 or 9); decimal digits
    after [0x] count in base 16; and a value above [INT64_MAX] becomes
    [INT64_MAX]. *)
Theorem X4_integer_literals :
  (forall regs vmem success ds,
      ds <> EmptyString -> all_in is_digit ds -> (String.length ds < 32)%nat ->
      expr regs vmem ds success
      = Ret (Z.min INT64_MAX
                   (strtol_digits
                      (if head_in (fun a => Ascii.eqb a "0") ds then 8 else 10) ds 0),
             success))
  /\ (forall regs vmem success ds,
         ds <> EmptyString -> all_in is_digit ds -> (String.length ds < 30)%nat ->
         expr regs vmem (String "0" (String "x" ds)) success
         = Ret (Z.min INT64_MAX (strtol_digits 16 ds 0), success)).
Proof.
  split; intros regs vmem success ds Hne Hall Hlen.
  - destruct ds as [| c rest]; [congruence |].
    pose proof (proj1 (all_in_cons _ _ _) Hall) as [Hc Hrest].
    destruct (digit_plain c Hc) as (_ & Hplus & Hminus & _ & _ & _ & _ & _ & Hsp).
    rewrite expr_literal
      by (apply make_token_literal; auto; now apply int_length_all).
    rewrite strtol_eq. cbn [skip_spaces]. rewrite Hsp, Hminus, Hplus.
    rewrite strtol_unsigned_eq. cbn [head_in].
    assert (Hoct : match rest with
                   | String x (String h s') =>
                       if ((Ascii.eqb x "x" || Ascii.eqb x "X") && is_hex_digit h)%bool
                       then strtol_digits 16 (String h s') 0
                       else strtol_digits 8 (String c rest) 0
                   | _ => strtol_digits 8 (String c rest) 0
                   end = strtol_digits 8 (String c rest) 0).
    { destruct rest as [| x [| h s']]; try reflexivity.
      pose proof (proj1 (all_in_cons _ _ _) Hrest) as [Hx _].
      destruct (digit_plain x Hx) as (_ & _ & _ & _ & _ & _ & H1 & H2 & _).
      now rewrite H1, H2. }
    rewrite Hoct.
    assert (Hv : 0 <= strtol_digits (if Ascii.eqb c "0" then 8 else 10) (String c rest) 0)
      by (apply strtol_digits_nonneg; [destruct (Ascii.eqb c "0") |]; lia).
    destruct (Ascii.eqb c "0"); rewrite to_word_small; try reflexivity;
      unfold INT64_MAX in *; lia.
  - destruct ds as [| h s']; [congruence |].
    pose proof (proj1 (all_in_cons _ _ _) Hall) as [Hh _].
    rewrite expr_literal.
    + rewrite strtol_eq. cbn [skip_spaces].
      change (is_space "0") with false. cbv iota.
      change (Ascii.eqb "0" "-") with false. change (Ascii.eqb "0" "+") with false.
      cbv iota. rewrite strtol_unsigned_eq.
      change (Ascii.eqb "0" "0") with true. change (Ascii.eqb "x" "x") with true.
      cbv iota. rewrite (digit_is_hex h Hh). cbn [orb andb].
      pose proof (strtol_digits_nonneg 16 (String h s') ltac:(lia) 0 ltac:(lia)).
      rewrite to_word_small; [reflexivity | unfold INT64_MAX in *; lia].
    + apply make_token_literal; try discriminate; try reflexivity.
      * unfold int_length. change (Ascii.eqb "0" "0") with true.
        change (Ascii.eqb "x" "x") with true. cbn [andb].
        unfold all_in in Hall. rewrite Hall. reflexivity.
      * cbn [String.length] in *. lia.
Qed.

Lemma X4_integer_literals_witness :
  expr no_register (fun _ _ => 0) "010" true = Ret (8, true)
  /\ expr no_register (fun _ _ => 0) "0129" true = Ret (10, true)
  /\ expr no_register (fun _ _ => 0) "9223372036854775808" true = Ret (INT64_MAX, true)
  /\ expr no_register (fun _ _ => 0) "0x10" true = Ret (16, true).
Proof.
  split; [| split; [| split]].
  - apply (proj1 X4_integer_literals no_register (fun _ _ => 0) true "010"%string);
      [discriminate | reflexivity | simpl; lia].
  - apply (proj1 X4_integer_literals no_register (fun _ _ => 0) true "0129"%string);
      [discriminate | reflexivity | simpl; lia].
  - apply (proj1 X4_integer_literals no_register (fun _ _ => 0) true
                 "9223372036854775808"%string);
      [discriminate | reflexivity | simpl; lia].
  - apply (proj2 X4_integer_literals no_register (fun _ _ => 0) true "10"%string);
      [discriminate | reflexivity | simpl; lia].
Defined.

(** ** Hexadecimal digits *)

Lemma letter_no_token (c : ascii) (rest : string) :
  is_letter c = true -> is_digit c = false /\ starts_token c rest = false.
Proof.
  intros H.
  assert (Hd : is_digit c = false).
  { unfold is_letter, is_digit, in_range in *.
    repeat match goal with
           | _ : context [Nat.leb ?a ?b] |- _ => destruct (Nat.leb_spec a b)
           end; cbn in H; try discriminate;
      repeat match goal with
             | |- context [Nat.leb ?a ?b] => destruct (Nat.leb_spec a b)
             end; try reflexivity; lia. }
  split; [exact Hd |]. unfold starts_token, is_blank. rewrite Hd.
  repeat match goal with
         | |- context [Ascii.eqb c ?d] =>
             destruct (Ascii.eqb_spec c d) as [-> | _]; [discriminate |]
         end.
  reflexivity.
Qed.

Lemma span_app_stop (p : ascii -> bool) (ds : string) (c : ascii) (rest : string) :
  all_in p ds -> p c = false -> span p (ds ++ String c rest) = String.length ds.
Proof.
  intros Hall Hc. induction ds as [| a ds IH]; cbn [append span String.length].
  - now rewrite Hc.
  - apply all_in_cons in Hall. destruct Hall as [Ha Hall]. rewrite Ha.
    now rewrite IH.
Qed.

(** X5: a letter after [0x], or after the decimal digits that follow [0x],
    belongs to no token: [make_token] fails there, at the [x] itself when no
    digit follows it, and [expr] returns 0 with [*success] false. *)
Theorem X5_hexadecimal_letters_rejected :
  forall ds c rest,
    all_in is_digit ds -> (String.length ds < 30)%nat -> is_letter c = true ->
    make_token (String "0" (String "x" (ds ++ String c rest)))
    = Ret (LexFail (match ds with
                    | EmptyString => 1
                    | _ => 2 + Z.of_nat (String.length ds)
                    end))
    /\ forall regs vmem success,
        expr regs vmem (String "0" (String "x" (ds ++ String c rest))) success
        = Ret (0, false).
Proof.
  intros ds c rest Hall Hlen Hc.
  destruct (letter_no_token c rest Hc) as [Hd Hstart].
  apply next_token_none in Hstart.
  assert (H : make_token (String "0" (String "x" (ds ++ String c rest)))
              = Ret (LexFail (match ds with
                              | EmptyString => 1
                              | _ => 2 + Z.of_nat (String.length ds)
                              end))).
  { rewrite make_token_unfold, (next_token_digit "0" _ eq_refl).
    unfold int_length. change (Ascii.eqb "0" "0" && Ascii.eqb "x" "x") with true.
    cbv iota. rewrite (span_app_stop is_digit ds c rest Hall Hd).
    destruct ds as [| a ds].
    - cbn [String.length append prefix_of skip record_token].
      reflexivity.
    - change (String "0" (String "x" (String a ds ++ String c rest)))
        with ((String "0" (String "x" (String a ds))) ++ String c rest)%string.
      cbn [String.length].
      change (S (S (S (String.length ds))))
        with (String.length (String "0" (String "x" (String a ds)))).
      rewrite prefix_of_app, skip_app, prefix_of_all, skip_all by lia.
      cbn [append]. unfold record_token.
      destruct (Nat.leb_spec 32 (String.length (String "0" (String "x" (String a ds)))));
        [cbn [String.length] in *; lia |].
      cbn [store_token length Nat.leb app bind String.length].
      rewrite make_token_loop_S, Hstart. do 2 f_equal. cbn [String.length]. lia. }
  split; [exact H |]. intros regs vmem success. unfold expr. now rewrite H.
Qed.

Lemma X5_hexadecimal_letters_rejected_witness :
  make_token "0x1f" = Ret (LexFail 3)
  /\ make_token "0xff" = Ret (LexFail 1)
  /\ forall regs vmem success, expr regs vmem "0x1f" success = Ret (0, false).
Proof.
  pose proof (X5_hexadecimal_letters_rejected "1" "f" "" eq_refl ltac:(simpl; lia) eq_refl)
    as [H1 H2].
  pose proof (X5_hexadecimal_letters_rejected "" "f" "f" eq_refl ltac:(simpl; lia) eq_refl)
    as [H3 _].
  split; [exact H1 | split; [exact H3 | exact H2]].
Defined.

(** ** Registers *)

Lemma to_word_to_int64 (z : Z) : to_word (to_int64 z) = to_word z.
Proof.
  unfold to_word, to_int64, two64.
  rewrite Zminus_mod, Zmod_mod, <- Zminus_mod. f_equal. lia.
Qed.

(** X6: an expression that is one register, [$] and a name of letters, digits
    and underscores, asks [isa_reg_str2val] for the text with its [$]; the
    result is the value of the register when that function reports success
    and 0 when it does not, and [*success] is left as it was in both
    cases. *)
Theorem X6_register_expression :
  forall regs vmem success name,
    name <> EmptyString -> all_in is_word name -> (String.length name < 31)%nat ->
    make_token (String "$" name) = Ret (LexOk [mkToken TK_REG (String "$" name)])
    /\ expr regs vmem (String "$" name) success
       = Ret (if snd (regs (String "$" name))
              then to_word (fst (regs (String "$" name))) else 0,
              success).
Proof.
  intros regs vmem success name Hne Hall Hlen.
  assert (H : make_token (String "$" name)
              = Ret (LexOk [mkToken TK_REG (String "$" name)])).
  { rewrite make_token_unfold.
    change (next_token (String "$" name))
      with (match span is_word name with
            | O => None
            | S k => Some (S (S k), TK_REG)
            end).
    rewrite Hall. destruct name as [| a name]; [congruence |].
    cbn [String.length]. 
    change (S (S (String.length name))) with (String.length (String "$" (String a name))).
    rewrite prefix_of_all, skip_all. unfold record_token.
    destruct (Nat.leb_spec 32 (String.length (String "$" (String a name))));
      [cbn [String.length] in *; lia |].
    reflexivity. }
  split; [exact H |]. unfold expr. rewrite H. cbn [bind length].
  change (cal_expr regs vmem [mkToken TK_REG (String "$" name)] 0 (Z.of_nat 1 - 1))
    with (let (result, feedback) := regs (String "$" name) in
          if feedback then Ret (to_int64 result) else Ret 0).
  destruct (regs (String "$" name)) as [result [|]]; cbn [bind fst snd];
    [now rewrite to_word_to_int64 | reflexivity].
Qed.

Lemma X6_register_expression_witness :
  expr (fun name => if String.eqb name "$pc" then (2147483648, true) else (0, false))
       (fun _ _ => 0) "$pc" false = Ret (2147483648, false)
  /\ expr (fun name => if String.eqb name "$pc" then (2147483648, true) else (0, false))
          (fun _ _ => 0) "$sp" true = Ret (0, true).
Proof.
  split.
  - apply (proj2 (X6_register_expression
                    (fun name => if String.eqb name "$pc" then (2147483648, true)
                                 else (0, false))
                    (fun _ _ => 0) false "pc" ltac:(discriminate) eq_refl
                    ltac:(simpl; lia))).
  - apply (proj2 (X6_register_expression
                    (fun name => if String.eqb name "$pc" then (2147483648, true)
                                 else (0, false))
                    (fun _ _ => 0) true "sp" ltac:(discriminate) eq_refl
                    ltac:(simpl; lia))).
Defined.

(** ** The token sequences of [make_token] *)

(** The text of an integer: decimal digits, or [0x] and decimal digits. *)
Definition literal (s : string) : Prop :=
  head_in is_digit s = true /\ int_length s = String.length s.

(** The text of a register: [$] and letters, digits and underscores. *)
Definition register_name (s : string) : Prop :=
  exists name, s = String "$" name /\ name <> EmptyString /\ all_in is_word name.

(** What [make_token] can store after the tokens [before]. *)
Definition admissible (before : list Token) (t : Token) : Prop :=
  (String.length (str t) < 32)%nat
  /\ match type t with
     | TK_INT => literal (str t)
     | TK_REG => register_name (str t)
     | TK_POS | TK_NEG | TK_DEREF =>
         str t = EmptyString /\ unary_position before = true
     | TK_ADD | TK_MINUS | TK_MUL =>
         str t = EmptyString /\ unary_position before = false
     | TK_DIV | TK_BOOL_EQ | TK_BOOL_LT | TK_BOOL_GT | TK_PAR_L | TK_PAR_R =>
         str t = EmptyString
     | _ => False
     end.

Fixpoint lexable (before toks : list Token) : Prop :=
  match toks with
  | [] => True
  | t :: toks' => admissible before t /\ lexable (before ++ [t]) toks'
  end.

(** The characters that give a token. *)
Definition token_text (t : Token) : string :=
  match type t with
  | TK_INT | TK_REG => str t
  | TK_POS | TK_ADD => "+"
  | TK_NEG | TK_MINUS => "-"
  | TK_DEREF | TK_MUL => "*"
  | TK_DIV => "/"
  | TK_BOOL_EQ => "=="
  | TK_BOOL_LT => "<"
  | TK_BOOL_GT => ">"
  | TK_PAR_L => "("
  | TK_PAR_R => ")"
  | _ => ""
  end.

(** The texts of the tokens, with a blank after each. *)
Fixpoint text (toks : list Token) : string :=
  match toks with
  | [] => EmptyString
  | t :: toks' => token_text t ++ String " " (text toks')
  end.

Lemma lexable_app (l1 : list Token) :
  forall before l2,
    lexable before (l1 ++ l2) <-> lexable before l1 /\ lexable (before ++ l1) l2.
Proof.
  induction l1 as [| t l1 IH]; intros before l2; cbn [app lexable].
  - rewrite app_nil_r. tauto.
  - rewrite IH, <- app_assoc. cbn [app]. tauto.
Qed.

Lemma make_token_loop_unfold (c : ascii) (rest : string) (pos : Z) (toks : list Token) :
  make_token_loop (String.length (String c rest)) (String c rest) pos toks =
  match next_token (String c rest) with
  | None => Ret (LexFail pos)
  | Some (n, ty) =>
      toks' <- record_token ty (prefix_of n (String c rest)) toks ;;
      make_token_loop (String.length (skip n (String c rest)))
                      (skip n (String c rest)) (pos + Z.of_nat n) toks'
  end.
Proof.
  cbn [String.length]. rewrite make_token_loop_S.
  destruct (next_token (String c rest)) as [[n ty] |] eqn:E; [| reflexivity].
  pose proof (next_token_bounds _ _ _ E) as Hn. cbn [String.length] in Hn.
  destruct (record_token ty (prefix_of n (String c rest)) toks); cbn [bind];
    try reflexivity.
  apply make_token_loop_fuel_irrel; [| lia].
  rewrite skip_length; cbn [String.length]; lia.
Qed.

(** *** From the tokens to their text and back *)

Lemma span_app_head (p : ascii -> bool) (s t : string) :
  head_in p t = false -> span p (s ++ t) = span p s.
Proof.
  intros Ht. induction s as [| a s IH]; cbn [append span].
  - now apply span_head.
  - now rewrite IH.
Qed.

Lemma int_length_app_blank (s rest : string) :
  int_length (s ++ String " " rest) = int_length s.
Proof.
  assert (Hd : head_in is_digit (String " " rest) = false) by reflexivity.
  destruct s as [| c [| x r]].
  - now destruct rest.
  - cbn [append int_length]. rewrite andb_false_r. cbn [span].
    change (is_digit " ") with false. reflexivity.
  - cbn [append int_length]. rewrite (span_app_head is_digit r _ Hd).
    change (String c (String x (r ++ String " " rest)))
      with (String c (String x r) ++ String " " rest)%string.
    now rewrite (span_app_head is_digit _ _ Hd).
Qed.

Lemma store_token_room (toks : list Token) (t : Token) :
  (length toks < 32)%nat -> store_token toks t = Ret (toks ++ [t]).
Proof.
  intros H. unfold store_token. destruct (Nat.leb_spec 32 (length toks)); [lia |].
  reflexivity.
Qed.

(** One token of the text: the rule that matches, its length and what is
    stored. *)
Lemma next_token_text (before : list Token) (t : Token) (rest : string) :
  admissible before t -> (length before < 32)%nat ->
  exists ty,
    next_token (token_text t ++ String " " rest)
    = Some (String.length (token_text t), ty)
    /\ record_token ty (token_text t) before = Ret (before ++ [t])
    /\ token_text t <> EmptyString.
Proof.
  intros [Hlen Ht] Hroom. destruct t as [ty s]. cbn [type str] in *.
  unfold token_text. cbn [type str].
  pose proof (store_token_room before) as Hstore.
  destruct ty; try contradiction;
    match type of Ht with
    | literal _ => idtac
    | register_name _ => idtac
    | _ /\ _ =>
        destruct Ht as [Hs Hu]; subst s; eexists;
        (split; [reflexivity |]); (split; [| discriminate]);
        unfold record_token; rewrite Hu; now apply Hstore
    | _ =>
        subst s; eexists; (split; [reflexivity |]); (split; [| discriminate]);
        unfold record_token; now apply Hstore
    end.
  - (* TK_INT *)
    destruct Ht as [Hd Hl]. destruct s as [| c s']; [discriminate |].
    cbn [head_in] in Hd. exists TK_INT. split; [| split; [| discriminate]].
    + cbn [append]. rewrite (next_token_digit c _ Hd).
      change (String c (s' ++ String " " rest))
        with (String c s' ++ String " " rest)%string.
      now rewrite int_length_app_blank, Hl.
    + unfold record_token.
      destruct (Nat.leb_spec 32 (String.length (String c s'))); [lia |].
      now apply Hstore.
  - (* TK_REG *)
    destruct Ht as (name & -> & Hne & Hall). exists TK_REG.
    split; [| split; [| discriminate]].
    + cbn [append].
      change (next_token (String "$" (name ++ String " " rest)))
        with (match span is_word (name ++ String " " rest) with
              | O => None
              | S k => Some (S (S k), TK_REG)
              end).
      rewrite (span_app_head is_word name (String " " rest) eq_refl), Hall.
      destruct name; [congruence | reflexivity].
    + unfold record_token.
      destruct (Nat.leb_spec 32 (String.length (String "$" name))); [lia |].
      now apply Hstore.
Qed.

Lemma head_token_text (before : list Token) (t : Token) (rest : string) :
  admissible before t -> head_in is_blank (token_text t ++ rest) = false.
Proof.
  intros [_ Ht]. destruct t as [ty s]. unfold token_text. cbn [type str] in *.
  destruct ty; try contradiction; try reflexivity.
  - destruct Ht as [Hd _]. destruct s as [| c s']; [discriminate |].
    cbn [head_in append] in *. now destruct (digit_plain c Hd) as [H _].
  - destruct Ht as (name & -> & _). reflexivity.
Qed.

Lemma head_text (before toks : list Token) :
  lexable before toks -> head_in is_blank (text toks) = false.
Proof.
  destruct toks as [| t toks]; [reflexivity |]. intros [Ht _]. cbn [text].
  exact (head_token_text before t _ Ht).
Qed.

Lemma make_token_loop_text (toks : list Token) :
  forall before pos,
    lexable before toks -> (length before + length toks <= 32)%nat ->
    make_token_loop (String.length (text toks)) (text toks) pos before
    = Ret (LexOk (before ++ toks)).
Proof.
  induction toks as [| t toks IH]; intros before pos Hlex Hlen.
  - cbn [text String.length make_token_loop]. now rewrite app_nil_r.
  - destruct Hlex as [Ht Hrest]. cbn [length] in Hlen. cbn [text].
    destruct (next_token_text before t (text toks) Ht ltac:(lia))
      as (ty & Hnext & Hrec & Hne).
    destruct (token_text t ++ String " " (text toks))%string as [| c rest] eqn:E.
    { destruct (token_text t); [congruence | discriminate]. }
    rewrite make_token_loop_unfold, Hnext, <- E.
    rewrite prefix_of_app, skip_app, prefix_of_all, skip_all by lia.
    rewrite Hrec. cbn [bind append].
    rewrite make_token_loop_unfold.
    assert (Hsp : span is_blank (String " " (text toks)) = 1%nat).
    { cbn [span]. change (is_blank " ") with true.
      now rewrite (proj2 (span_head is_blank (text toks)) (head_text _ _ Hrest)). }
    change (next_token (String " " (text toks)))
      with (Some (span is_blank (String " " (text toks)), TK_NOTYPE)).
    rewrite Hsp. cbn [record_token bind skip].
    rewrite IH; [now rewrite <- app_assoc | exact Hrest |].
    rewrite length_app. cbn [length]. lia.
Qed.

(** *** From a text to its tokens *)












(** ** Ranges of tokens *)

Lemma token_at_in (tokens : list Token) (i : Z) :
  0 <= i < Z.of_nat (length tokens) -> exists t, token_at tokens i = Ret t.
Proof.
  intros H. unfold token_at. destruct (Z.ltb_spec i 0); [lia |].
  destruct (nth_error tokens (Z.to_nat i)) as [t |] eqn:E; [now exists t |].
  apply nth_error_None in E. lia.
Qed.

(** ** [check_parentheses] *)

(** No prefix of the range closes more parentheses than it opened. *)
Definition never_negative (tokens : list Token) (b e : Z) : bool :=
  forallb (fun n => 0 <=? depth_after tokens b n) (seq 1 (Z.to_nat (e - b + 1))).

Lemma check_parentheses_loop_depth (tokens : list Token) (b : Z) (n : nat) :
  forall k,
    0 <= b -> b + Z.of_nat k + Z.of_nat n <= Z.of_nat (length tokens) ->
    0 <= depth_after tokens b k ->
    check_parentheses_loop tokens n (b + Z.of_nat k) (depth_after tokens b k)
    = Ret (forallb (fun m => 0 <=? depth_after tokens b m) (seq (S k) n)).
Proof.
  induction n as [| n IH]; intros k Hb Hlen Hpos; [reflexivity |].
  cbn [check_parentheses_loop seq forallb].
  destruct (token_at_in tokens (b + Z.of_nat k) ltac:(lia)) as [t Ht].
  rewrite Ht. cbn [bind].
  assert (Hd : depth_after tokens b (S k)
               = depth_after tokens b k
                 + match type t with TK_PAR_L => 1 | TK_PAR_R => -1 | _ => 0 end).
  { cbn [depth_after]. unfold paren_delta. now rewrite Ht. }
  replace (b + Z.of_nat k + 1) with (b + Z.of_nat (S k)) by lia.
  destruct (type t) eqn:Hty; cbn [token_enum_eqb];
    try (replace (depth_after tokens b k) with (depth_after tokens b (S k)) by lia;
         rewrite IH by lia;
         destruct (Z.leb_spec 0 (depth_after tokens b (S k))); [reflexivity | lia]).
  - replace (depth_after tokens b k + 1) with (depth_after tokens b (S k)) by lia.
    rewrite IH by lia.
    destruct (Z.leb_spec 0 (depth_after tokens b (S k))); [reflexivity | lia].
  - replace (depth_after tokens b k - 1) with (depth_after tokens b (S k)) by lia.
    destruct (Z.ltb_spec (depth_after tokens b (S k)) 0);
      destruct (Z.leb_spec 0 (depth_after tokens b (S k))); try lia; [reflexivity |].
    now rewrite IH by lia.
Qed.

Lemma check_parentheses_depth (tokens : list Token) (b e : Z) :
  0 <= b -> e < Z.of_nat (length tokens) ->
  check_parentheses tokens b e = Ret (never_negative tokens b e).
Proof.
  intros Hb He. unfold check_parentheses, never_negative.
  destruct (Z.to_nat (e - b + 1)) as [| n] eqn:En; [reflexivity |].
  rewrite <- En.
  replace b with (b + Z.of_nat 0) at 2 by lia.
  change 0 with (depth_after tokens b 0) at 2.
  apply check_parentheses_loop_depth; cbn [depth_after]; lia.
Qed.

(** X7: on a range inside the token buffer, [check_parentheses] returns false
    exactly when some prefix of the range closes more parentheses than it
    opened; [cal_expr] then prints its message and returns 0.  Parentheses
    left open at the end of the range are accepted. *)
Theorem X7_check_parentheses_prefixes :
  forall tokens b e,
    0 <= b -> e < Z.of_nat (length tokens) ->
    check_parentheses tokens b e = Ret (never_negative tokens b e)
    /\ (never_negative tokens b e = false ->
        forall regs vmem, cal_expr regs vmem tokens b e = Ret 0).
Proof.
  intros tokens b e Hb He. pose proof (check_parentheses_depth tokens b e Hb He) as H.
  split; [exact H |]. intros Hneg regs vmem. unfold cal_expr.
  cbn [cal_expr_fuel]. now rewrite H, Hneg.
Qed.

Definition tokens_1_close : list Token := [mkToken TK_INT "1"; mkToken TK_PAR_R ""].

Lemma X7_check_parentheses_prefixes_witness :
  make_token "1)" = Ret (LexOk tokens_1_close)
  /\ check_parentheses tokens_1_close 0 1 = Ret false
  /\ cal_expr no_register (fun _ _ => 0) tokens_1_close 0 1 = Ret 0.
Proof.
  destruct (X7_check_parentheses_prefixes tokens_1_close 0 1 ltac:(lia) ltac:(simpl; lia))
    as [H1 H2].
  split; [reflexivity | split; [exact H1 |]]. apply H2. reflexivity.
Defined.

(** ** Ranges on which [cal_expr] stops the process *)

(** Whether [cal_expr] removes a parenthesis at each end of the range. *)
Definition strips (tokens : list Token) (b e : Z) : bool :=
  match token_at tokens b, token_at tokens e with
  | Ret first, Ret last =>
      token_enum_eqb (type first) TK_PAR_L && token_enum_eqb (type last) TK_PAR_R
  | _, _ => false
  end.

(** The range [cal_expr] goes on with. *)
Definition inner_range (tokens : list Token) (b e : Z) : Z * Z :=
  if strips tokens b e then (b + 1, e - 1) else (b, e).

(** One turn of the scan of [find_major_operator] on a token of the buffer:
    the assertion fails, or the scan goes on with the next token. *)
Lemma find_major_operator_loop_step (tokens : list Token) (b : Z) (n : nat)
  (i major minp : Z) (t : Token) :
  b <= i -> token_at tokens i = Ret t ->
  find_major_operator_loop tokens (S n) i major (depth_at tokens b i) minp = Abort
  \/ exists major' minp',
      find_major_operator_loop tokens (S n) i major (depth_at tokens b i) minp
      = find_major_operator_loop tokens n (i + 1) major'
                                 (depth_at tokens b (i + 1)) minp'.
Proof.
  intros Hi Ht. cbn [find_major_operator_loop]. rewrite Ht. cbn [bind].
  pose proof (depth_at_succ tokens b i Hi) as Hs. unfold paren_delta in Hs.
  rewrite Ht in Hs.
  destruct (type t);
    try (right; exists major, minp; rewrite Hs; do 2 f_equal; lia);
    (destruct (depth_at tokens b i >? 0);
     [right; exists major, minp; rewrite Hs, Z.add_0_r; reflexivity |]);
    (destruct (depth_at tokens b i <? 0); [now left |]);
    cbn [get_priority bind]; try (now left);
    match goal with
    | |- context [if ?c then _ else _] => destruct c
    end;
    right; eexists; eexists; rewrite Hs, Z.add_0_r; reflexivity.
Qed.

(** On tokens of the buffer the scan returns a position or fails an
    assertion. *)
Lemma find_major_operator_loop_in (tokens : list Token) (b : Z) (n : nat) :
  forall i major minp,
    b <= i -> 0 <= i -> i + Z.of_nat n <= Z.of_nat (length tokens) ->
    find_major_operator_loop tokens n i major (depth_at tokens b i) minp = Abort
    \/ exists m,
        find_major_operator_loop tokens n i major (depth_at tokens b i) minp = Ret m.
Proof.
  induction n as [| n IH]; intros i major minp Hb Hi Hlen.
  - right. now exists major.
  - destruct (token_at_in tokens i ltac:(lia)) as [t Ht].
    destruct (find_major_operator_loop_step tokens b n i major minp t Hb Ht)
      as [H | (major' & minp' & H)]; [now left |].
    rewrite H. apply IH; lia.
Qed.

(** A register outside parentheses stops the scan. *)
Lemma find_major_operator_loop_register (tokens : list Token) (b j : Z) (r : Token) :
  token_at tokens j = Ret r -> type r = TK_REG -> depth_at tokens b j <= 0 ->
  forall n i major minp,
    b <= i <= j -> j < i + Z.of_nat n -> 0 <= i ->
    i + Z.of_nat n <= Z.of_nat (length tokens) ->
    find_major_operator_loop tokens n i major (depth_at tokens b i) minp = Abort.
Proof.
  intros Hr Hty Hd. induction n as [| n IH]; intros i major minp Hb Hj Hi Hlen; [lia |].
  destruct (Z.eq_dec i j) as [-> | Hne].
  - cbn [find_major_operator_loop]. rewrite Hr. cbn [bind]. rewrite Hty.
    destruct (Z.gtb_spec (depth_at tokens b j) 0); [lia |].
    now destruct (depth_at tokens b j <? 0).
  - destruct (token_at_in tokens i ltac:(lia)) as [t Ht].
    destruct (find_major_operator_loop_step tokens b n i major minp t (proj1 Hb) Ht)
      as [H | (major' & minp' & H)]; [exact H |].
    rewrite H. apply IH; lia.
Qed.

Section Long.

Variable regs : string -> Z * bool.
Variable vmem : Z -> Z -> Z.
Variable tokens : list Token.

(** [cal_expr] on a range that passes the check and keeps three tokens or
    more: the result rests on [find_major_operator]. *)
Lemma cal_expr_fuel_long (fuel : nat) (b e b' e' : Z) :
  0 <= b -> e < Z.of_nat (length tokens) ->
  never_negative tokens b e = true ->
  inner_range tokens b e = (b', e') -> 2 <= e' - b' ->
  cal_expr_fuel regs vmem tokens (S fuel) b e =
  (major_op_pos <- find_major_operator tokens b' e' ;;
   if major_op_pos =? -1 then Abort
   else
     val_1 <- cal_expr_fuel regs vmem tokens fuel b' (major_op_pos - 1) ;;
     val_2 <- cal_expr_fuel regs vmem tokens fuel (major_op_pos + 1) e' ;;
     t <- token_at tokens major_op_pos ;;
     apply_binary (type t) val_1 val_2).
Proof.
  intros Hb He Hnn Hin Hlong.
  assert (Hbe : b < e) by (unfold inner_range in Hin;
                           destruct (strips tokens b e); inversion Hin; lia).
  cbn [cal_expr_fuel]. rewrite (check_parentheses_depth tokens b e Hb He), Hnn.
  cbn [bind negb]. unfold inner_range, strips in Hin.
  destruct (token_at_in tokens b ltac:(lia)) as [first Hfirst].
  destruct (token_at_in tokens e ltac:(lia)) as [last Hlast].
  rewrite Hfirst, Hlast in Hin. rewrite Hfirst. cbn [bind].
  destruct (token_enum_eqb (type first) TK_PAR_L); cbn [bind andb] in *;
    [rewrite Hlast; cbn [bind];
     destruct (token_enum_eqb (type last) TK_PAR_R) |];
    injection Hin as <- <-;
    match goal with
    | |- context [?x >? ?y] => destruct (Z.gtb_spec x y); [lia |]
    end;
    match goal with
    | |- context [?x =? ?y] => destruct (Z.eqb_spec x y); [lia |]
    end;
    match goal with
    | |- context [?x - ?y =? 1] => destruct (Z.eqb_spec (x - y) 1); [lia |]
    end; reflexivity.
Qed.

End Long.

(** X8: [cal_expr] stops the process on every range that passes the check of
    the parentheses, keeps three tokens or more after the outer parentheses
    were removed, and has no binary operator outside parentheses before its
    last token: [find_major_operator] fails its own assertion or returns -1.
    A unary operator before a parenthesis or before another unary operator
    is such a range. *)
Theorem X8_no_operator_aborts :
  forall regs vmem tokens b e b' e',
    0 <= b -> e < Z.of_nat (length tokens) ->
    never_negative tokens b e = true ->
    inner_range tokens b e = (b', e') -> 2 <= e' - b' ->
    (forall j p, b' <= j < e' -> ~ candidate tokens b' j p) ->
    cal_expr regs vmem tokens b e = Abort.
Proof.
  intros regs vmem tokens b e b' e' Hb He Hnn Hin Hlong Hnone.
  unfold cal_expr. rewrite (cal_expr_fuel_long _ _ _ _ b e b' e'); auto.
  assert (Hr : 0 <= b' /\ e' <= Z.of_nat (length tokens))
    by (unfold inner_range in Hin; destruct (strips tokens b e); inversion Hin; lia).
  unfold find_major_operator.
  pose proof (find_major_operator_loop_in tokens b' (Z.to_nat (e' - b')) b' (-1) 2
                                          ltac:(lia) ltac:(lia) ltac:(lia)) as H.
  rewrite depth_at_start in H. destruct H as [H | [m H]]; rewrite H; [reflexivity |].
  cbn [bind]. destruct (Z.eqb_spec m (-1)); [reflexivity |].
  destruct (find_major_operator_scan tokens b' e' m H) as (minp & Hscan).
  destruct Hscan as [(Hm & _) | (Hm & _ & Hc)]; [contradiction |].
  destruct (Hnone m minp); [lia | exact Hc].
Qed.

Definition tokens_neg_par : list Token :=
  [mkToken TK_NEG ""; mkToken TK_PAR_L ""; mkToken TK_INT "1"; mkToken TK_ADD "";
   mkToken TK_INT "2"; mkToken TK_PAR_R ""].

Lemma X8_no_operator_aborts_witness :
  make_token "-(1+2)" = Ret (LexOk tokens_neg_par)
  /\ cal_expr no_register (fun _ _ => 0) tokens_neg_par 0 5 = Abort.
Proof.
  split; [reflexivity |].
  apply (X8_no_operator_aborts no_register (fun _ _ => 0) tokens_neg_par 0 5 0 5);
    try reflexivity; try (simpl; lia).
  intros j p Hj (t & Ht & Hp & Hd).
  assert (Hcases : j = 0 \/ j = 1 \/ j = 2 \/ j = 3 \/ j = 4) by lia.
  destruct Hcases as [-> | [-> | [-> | [-> | ->]]]];
    inversion Ht; subst t; try discriminate Hp; discriminate Hd.
Defined.

(** X9: a register outside parentheses anywhere but at the end of a range of
    three tokens or more stops the process: the scan of
    [find_major_operator] asks [get_priority] for the priority of the
    register, which is its [assert(0)]. *)
Theorem X9_register_before_end_aborts :
  forall regs vmem tokens b e b' e' j r,
    0 <= b -> e < Z.of_nat (length tokens) ->
    never_negative tokens b e = true ->
    inner_range tokens b e = (b', e') -> 2 <= e' - b' ->
    b' <= j < e' -> token_at tokens j = Ret r -> type r = TK_REG ->
    depth_at tokens b' j <= 0 ->
    cal_expr regs vmem tokens b e = Abort.
Proof.
  intros regs vmem tokens b e b' e' j r Hb He Hnn Hin Hlong Hj Hr Hty Hd.
  unfold cal_expr. rewrite (cal_expr_fuel_long _ _ _ _ b e b' e'); auto.
  assert (Hrange : 0 <= b' /\ e' <= Z.of_nat (length tokens))
    by (unfold inner_range in Hin; destruct (strips tokens b e); inversion Hin; lia).
  unfold find_major_operator.
  pose proof (find_major_operator_loop_register tokens b' j r Hr Hty Hd
                (Z.to_nat (e' - b')) b' (-1) 2
                ltac:(lia) ltac:(lia) ltac:(lia) ltac:(lia)) as H.
  rewrite depth_at_start in H. now rewrite H.
Qed.

Definition tokens_reg_add_1 : list Token :=
  [mkToken TK_REG "$a"; mkToken TK_ADD ""; mkToken TK_INT "1"].

Lemma X9_register_before_end_aborts_witness :
  make_token "$a+1" = Ret (LexOk tokens_reg_add_1)
  /\ cal_expr no_register (fun _ _ => 0) tokens_reg_add_1 0 2 = Abort.
Proof.
  split; [reflexivity |].
  apply (X9_register_before_end_aborts no_register (fun _ _ => 0) tokens_reg_add_1
                                    0 2 0 2 0 (mkToken TK_REG "$a"));
    try reflexivity; simpl; lia.
Defined.

(** ** Expressions without parentheses *)

(** The tokens of such an expression. *)

(** Integers, unary and binary operators. *)
Definition flat_type (ty : token_enum_t) : bool :=
  match ty with
  | TK_INT | TK_POS | TK_NEG | TK_DEREF
  | TK_ADD | TK_MINUS | TK_MUL | TK_DIV
  | TK_BOOL_EQ | TK_BOOL_LT | TK_BOOL_GT | TK_BOOL_LE | TK_BOOL_GE => true
  | _ => false
  end.

(** Tokens of that kind whose binary operators have a priority above [p]. *)
Definition above (p : Z) (t : Token) : Prop :=
  flat_type (type t) = true
  /\ forall q, binary_priority (type t) = Some q -> p < q.

Lemma above_weaken (p p' : Z) (t : Token) : p' <= p -> above p t -> above p' t.
Proof.
  intros Hp [Hf Hq]. split; [exact Hf |]. intros q E. specialize (Hq q E). lia.
Qed.

Lemma token_at_app (pre post : list Token) (t : Token) :
  token_at (pre ++ t :: post) (Z.of_nat (length pre)) = Ret t.
Proof.
  unfold token_at. destruct (Z.ltb_spec (Z.of_nat (length pre)) 0); [lia |].
  rewrite Nat2Z.id, nth_error_app2, Nat.sub_diag by lia. reflexivity.
Qed.

Lemma snoc_app {A : Type} (pre : list A) (t : A) (l : list A) :
  pre ++ t :: l = (pre ++ [t]) ++ l.
Proof. now rewrite <- app_assoc. Qed.

Lemma length_snoc {A : Type} (pre : list A) (t : A) :
  Z.of_nat (length (pre ++ [t])) = Z.of_nat (length pre) + 1.
Proof. rewrite length_app. simpl. lia. Qed.

Lemma check_parentheses_loop_flat (l : list Token) :
  forall pre post num,
    Forall (fun t => flat_type (type t) = true) l ->
    check_parentheses_loop (pre ++ l ++ post) (length l) (Z.of_nat (length pre)) num
    = Ret true.
Proof.
  induction l as [| t l IH]; intros pre post num Hall; [reflexivity |].
  inversion Hall as [| ? ? Ht Hl]; subst.
  cbn [length check_parentheses_loop app]. rewrite token_at_app. cbn [bind].
  rewrite (snoc_app pre t), <- (length_snoc pre t).
  destruct (type t); try discriminate; cbn [token_enum_eqb]; now apply IH.
Qed.

(** The scan of [find_major_operator] over tokens outside parentheses: the
    position and the priority it holds after them. *)
Fixpoint scan (l : list Token) (i major minp : Z) : Z * Z :=
  match l with
  | [] => (major, minp)
  | t :: l' =>
      match binary_priority (type t) with
      | Some p => if p <=? minp then scan l' (i + 1) i p
                  else scan l' (i + 1) major minp
      | None => scan l' (i + 1) major minp
      end
  end.

Lemma find_major_operator_loop_flat (l : list Token) :
  forall pre post major minp,
    Forall (fun t => flat_type (type t) = true) l -> minp <= 2 ->
    find_major_operator_loop (pre ++ l ++ post) (length l) (Z.of_nat (length pre))
                             major 0 minp
    = Ret (fst (scan l (Z.of_nat (length pre)) major minp)).
Proof.
  induction l as [| t l IH]; intros pre post major minp Hall Hmin; [reflexivity |].
  inversion Hall as [| ? ? Ht Hl]; subst.
  cbn [length find_major_operator_loop app scan]. rewrite token_at_app. cbn [bind].
  rewrite (snoc_app pre t), <- (length_snoc pre t).
  destruct (type t); try discriminate; cbn [binary_priority get_priority bind Z.gtb Z.ltb Z.compare];
    try (now apply IH);
    try (destruct (Z.leb_spec 3 minp); [lia | now apply IH]);
    match goal with
    | |- context [?p <=? minp] => destruct (Z.leb_spec p minp); apply IH; auto; lia
    end.
Qed.

Lemma scan_app (l1 : list Token) :
  forall l2 i major minp,
    scan (l1 ++ l2) i major minp
    = scan l2 (i + Z.of_nat (length l1)) (fst (scan l1 i major minp))
           (snd (scan l1 i major minp)).
Proof.
  induction l1 as [| t l1 IH]; intros l2 i major minp.
  - cbn [app scan length fst snd]. now rewrite Z.add_0_r.
  - cbn [app scan length].
    replace (i + Z.of_nat (S (length l1))) with (i + 1 + Z.of_nat (length l1)) by lia.
    destruct (binary_priority (type t)) as [p |]; [destruct (p <=? minp) |]; apply IH.
Qed.

Lemma scan_above (p : Z) (l : list Token) :
  forall i major minp,
    Forall (above p) l -> minp <= p -> scan l i major minp = (major, minp).
Proof.
  induction l as [| t l IH]; intros i major minp Hall Hmin; [reflexivity |].
  inversion Hall as [| ? ? [_ Ht] Hl]; subst. cbn [scan].
  destruct (binary_priority (type t)) as [q |]; [| now apply IH].
  specialize (Ht q eq_refl). destruct (Z.leb_spec q minp); [lia | now apply IH].
Qed.

Lemma scan_bound (p : Z) (l : list Token) :
  forall i major minp,
    Forall (above (p - 1)) l -> p <= minp -> p <= snd (scan l i major minp).
Proof.
  induction l as [| t l IH]; intros i major minp Hall Hmin; [exact Hmin |].
  inversion Hall as [| ? ? [_ Ht] Hl]; subst. cbn [scan].
  destruct (binary_priority (type t)) as [q |]; [| now apply IH].
  specialize (Ht q eq_refl). destruct (Z.leb_spec q minp); apply IH; auto; lia.
Qed.

(** One level of operators. *)

Section Level.

Variable regs : string -> Z * bool.
Variable vmem : Z -> Z -> Z.

(** The operands of the level, with their tokens and their values, and the
    operators of the level, of priority [p]. *)
Variable X : Type.
Variable TX : X -> list Token.
Variable VX : X -> outcome Z.
Variable O : Type.
Variable TO : O -> token_enum_t.
Variable p : Z.

Definition chain_tokens (x0 : X) (l : list (O * X)) : list Token :=
  TX x0 ++ flat_map (fun ox => mkToken (TO (fst ox)) "" :: TX (snd ox)) l.

(** The operators are applied from left to right. *)
Definition chain_value (x0 : X) (l : list (O * X)) : outcome Z :=
  fold_left (fun acc ox =>
               val_1 <- acc ;;
               val_2 <- VX (snd ox) ;;
               apply_binary (TO (fst ox)) val_1 val_2)
            l (VX x0).

(** [cal_expr] on the tokens [l] in the buffer [pre ++ l ++ post]. *)
Definition evaluates (l : list Token) (v : outcome Z) : Prop :=
  forall pre post fuel,
    (length l < fuel)%nat ->
    cal_expr_fuel regs vmem (pre ++ l ++ post) fuel (Z.of_nat (length pre))
                  (Z.of_nat (length pre) + Z.of_nat (length l) - 1) = v.

Hypothesis Hp : 0 <= p <= 2.
Hypothesis TX_nonempty : forall x, TX x <> [].
Hypothesis TX_above : forall x, Forall (above p) (TX x).
Hypothesis VX_ok : forall x, evaluates (TX x) (VX x).
Hypothesis TO_priority : forall o, binary_priority (TO o) = Some p.

Lemma chain_tokens_snoc (x0 : X) (l : list (O * X)) (o : O) (x : X) :
  chain_tokens x0 (l ++ [(o, x)]) = chain_tokens x0 l ++ mkToken (TO o) "" :: TX x.
Proof.
  unfold chain_tokens. rewrite flat_map_app. cbn [flat_map fst snd].
  now rewrite app_nil_r, app_assoc.
Qed.

Lemma chain_value_snoc (x0 : X) (l : list (O * X)) (o : O) (x : X) :
  chain_value x0 (l ++ [(o, x)])
  = (val_1 <- chain_value x0 l ;; val_2 <- VX x ;; apply_binary (TO o) val_1 val_2).
Proof. unfold chain_value. now rewrite fold_left_app. Qed.

Lemma operator_above (o : O) : above (p - 1) (mkToken (TO o) "").
Proof.
  pose proof (TO_priority o) as H. split; cbn [type].
  - destruct (TO o); try discriminate; reflexivity.
  - intros q E. rewrite H in E. inversion E. lia.
Qed.

Lemma chain_above (x0 : X) (l : list (O * X)) :
  Forall (above (p - 1)) (chain_tokens x0 l).
Proof.
  assert (Hx : forall x, Forall (above (p - 1)) (TX x)).
  { intros x. eapply Forall_impl; [| apply TX_above].
    intros t. apply above_weaken. lia. }
  unfold chain_tokens. apply Forall_app. split; [apply Hx |].
  induction l as [| [o x] l IH]; cbn [flat_map fst snd]; [constructor |].
  constructor; [apply operator_above |]. apply Forall_app. split; [apply Hx | exact IH].
Qed.

Lemma chain_nonempty (x0 : X) (l : list (O * X)) : chain_tokens x0 l <> [].
Proof.
  unfold chain_tokens. pose proof (TX_nonempty x0).
  destruct (TX x0); [congruence | discriminate].
Qed.

Lemma above_flat (q : Z) (l : list Token) :
  Forall (above q) l -> Forall (fun t => flat_type (type t) = true) l.
Proof. apply Forall_impl. now intros t [H _]. Qed.

(** The major operator of [L op R] when the binary operators of [L] have
    priority [p] or more, [op] has priority [p] and those of [R] more. *)
Lemma find_major_operator_split (L R pre post : list Token) (op : Token) :
  Forall (above (p - 1)) L -> Forall (above p) R -> R <> [] ->
  binary_priority (type op) = Some p ->
  find_major_operator (pre ++ (L ++ op :: R) ++ post) (Z.of_nat (length pre))
                      (Z.of_nat (length pre) + Z.of_nat (length (L ++ op :: R)) - 1)
  = Ret (Z.of_nat (length pre) + Z.of_nat (length L)).
Proof.
  intros HL HR Hne Hop.
  destruct (exists_last Hne) as (R' & r & ->).
  assert (HR' : Forall (above p) R') by (apply Forall_app in HR; tauto).
  assert (Hopa : above (p - 1) op).
  { split; [destruct (type op); try discriminate; reflexivity |].
    intros q E. rewrite Hop in E. inversion E. lia. }
  unfold find_major_operator.
  replace (pre ++ (L ++ op :: R' ++ [r]) ++ post)
    with (pre ++ (L ++ op :: R') ++ (r :: post))
    by (rewrite <- !app_assoc; cbn [app]; rewrite <- !app_assoc; reflexivity).
  replace (Z.to_nat (Z.of_nat (length pre)
                     + Z.of_nat (length (L ++ op :: R' ++ [r])) - 1
                     - Z.of_nat (length pre)))
    with (length (L ++ op :: R'))
    by (rewrite !length_app; cbn [length]; rewrite length_app; cbn [length]; lia).
  rewrite find_major_operator_loop_flat; [| | lia].
  - f_equal. rewrite scan_app. cbn [scan]. rewrite Hop.
    pose proof (scan_bound p L (Z.of_nat (length pre)) (-1) 2 HL ltac:(lia)) as Hb.
    destruct (Z.leb_spec p (snd (scan L (Z.of_nat (length pre)) (-1) 2))); [| lia].
    now rewrite (scan_above p R') by (auto; lia).
  - apply Forall_app. split; [exact (above_flat _ _ HL) |].
    constructor; [exact (proj1 Hopa) | exact (above_flat _ _ HR')].
Qed.

Lemma cal_expr_fuel_binary (tokens : list Token) (fuel : nat) (b e : Z)
  (first : Token) :
  check_parentheses tokens b e = Ret true ->
  token_at tokens b = Ret first -> flat_type (type first) = true ->
  2 <= e - b ->
  cal_expr_fuel regs vmem tokens (S fuel) b e =
  (major_op_pos <- find_major_operator tokens b e ;;
   if major_op_pos =? -1 then Abort
   else
     val_1 <- cal_expr_fuel regs vmem tokens fuel b (major_op_pos - 1) ;;
     val_2 <- cal_expr_fuel regs vmem tokens fuel (major_op_pos + 1) e ;;
     t <- token_at tokens major_op_pos ;;
     apply_binary (type t) val_1 val_2).
Proof.
  intros Hcheck Hfirst Hflat Hlong. cbn [cal_expr_fuel].
  rewrite Hcheck. cbn [bind negb]. rewrite Hfirst. cbn [bind].
  replace (token_enum_eqb (type first) TK_PAR_L) with false
    by (destruct (type first); try discriminate; reflexivity).
  cbn [bind]. destruct (Z.gtb_spec b e); [lia |].
  destruct (Z.eqb_spec b e); [lia |]. destruct (Z.eqb_spec (e - b) 1); [lia |].
  reflexivity.
Qed.

Lemma chain_ok (l : list (O * X)) :
  forall x0, evaluates (chain_tokens x0 l) (chain_value x0 l).
Proof.
  induction l as [| [o x] l IH] using rev_ind; intros x0 pre post fuel Hfuel.
  - unfold chain_tokens, chain_value in *. cbn [flat_map fold_left] in *.
    rewrite app_nil_r in *. now apply VX_ok.
  - rewrite chain_tokens_snoc, chain_value_snoc in *.
    pose proof (IH x0) as IH0. pose proof (chain_above x0 l) as HL.
    pose proof (chain_nonempty x0 l) as HLne. unfold evaluates in IH0.
    remember (chain_tokens x0 l) as L eqn:EL0 in *. clear EL0 IH.
    remember (mkToken (TO o) "") as op eqn:Eop in *.
    destruct fuel as [| fuel]; [lia |].
    destruct L as [| t0 L'] eqn:EL; [congruence |].
    rewrite <- EL in *.
    assert (Hlen : length (L ++ op :: TX x) = (length L + 1 + length (TX x))%nat)
      by (rewrite length_app; cbn [length]; lia).
    assert (HR : (1 <= length (TX x))%nat)
      by (pose proof (TX_nonempty x); destruct (TX x); [congruence | simpl; lia]).
    assert (HL1 : (1 <= length L)%nat) by (rewrite EL; simpl; lia).
    rewrite (cal_expr_fuel_binary _ _ _ _ t0).
    + rewrite find_major_operator_split;
        [| exact HL | apply TX_above | apply TX_nonempty
         | rewrite Eop; apply TO_priority].
      cbn [bind].
      destruct (Z.eqb_spec (Z.of_nat (length pre) + Z.of_nat (length L)) (-1)); [lia |].
      replace (pre ++ (L ++ op :: TX x) ++ post)
        with (pre ++ L ++ (op :: TX x ++ post))
        by (rewrite <- !app_assoc; reflexivity).
      rewrite (IH0 pre (op :: TX x ++ post) fuel) by lia.
      destruct (chain_value x0 l) as [val_1 | | |]; cbn [bind]; try reflexivity.
      replace (pre ++ L ++ (op :: TX x ++ post))
        with ((pre ++ L ++ [op]) ++ TX x ++ post)
        by (rewrite <- !app_assoc; reflexivity).
      replace (Z.of_nat (length pre) + Z.of_nat (length L) + 1)
        with (Z.of_nat (length (pre ++ L ++ [op])))
        by (rewrite !length_app; cbn [length]; lia).
      replace (Z.of_nat (length pre) + Z.of_nat (length (L ++ op :: TX x)) - 1)
        with (Z.of_nat (length (pre ++ L ++ [op])) + Z.of_nat (length (TX x)) - 1)
        by (rewrite !length_app; cbn [length]; lia).
      rewrite (VX_ok x (pre ++ L ++ [op]) post fuel) by lia.
      destruct (VX x) as [val_2 | | |]; cbn [bind]; try reflexivity.
      replace ((pre ++ L ++ [op]) ++ TX x ++ post)
        with ((pre ++ L) ++ op :: (TX x ++ post))
        by (rewrite <- !app_assoc; reflexivity).
      replace (Z.of_nat (length pre) + Z.of_nat (length L))
        with (Z.of_nat (length (pre ++ L)))
        by (rewrite length_app; lia).
      rewrite token_at_app. now rewrite Eop.
    + unfold check_parentheses.
      replace (Z.to_nat (Z.of_nat (length pre) + Z.of_nat (length (L ++ op :: TX x)) - 1
                         - Z.of_nat (length pre) + 1))
        with (length (L ++ op :: TX x)) by lia.
      apply check_parentheses_loop_flat, Forall_app. split.
      * exact (above_flat _ _ HL).
      * constructor; [rewrite Eop; exact (proj1 (operator_above o)) |].
        exact (above_flat _ _ (TX_above x)).
    + rewrite EL. cbn [app]. apply token_at_app.
    + rewrite EL in HL. inversion HL as [| ? ? [Hf _] _]. exact Hf.
    + lia.
Qed.

End Level.

Arguments chain_tokens {X} TX {O} TO x0 l.
Arguments chain_value {X} VX {O} TO x0 l.

(** Operands, products, sums and comparisons. *)

Inductive unary_op : Type := OpPos | OpNeg | OpDeref.
Inductive mul_op : Type := OpMul | OpDiv.
Inductive add_op : Type := OpAdd | OpSub.
Inductive cmp_op : Type := OpEq | OpLt | OpGt | OpLe | OpGe.

Definition unary_type (u : unary_op) : token_enum_t :=
  match u with OpPos => TK_POS | OpNeg => TK_NEG | OpDeref => TK_DEREF end.

Definition mul_type (o : mul_op) : token_enum_t :=
  match o with OpMul => TK_MUL | OpDiv => TK_DIV end.

Definition add_type (o : add_op) : token_enum_t :=
  match o with OpAdd => TK_ADD | OpSub => TK_MINUS end.

Definition cmp_type (o : cmp_op) : token_enum_t :=
  match o with
  | OpEq => TK_BOOL_EQ | OpLt => TK_BOOL_LT | OpGt => TK_BOOL_GT
  | OpLe => TK_BOOL_LE | OpGe => TK_BOOL_GE
  end.

(** An integer literal, alone or after one unary operator. *)
Inductive operand : Type :=
| Literal (s : string)
| Signed (u : unary_op) (s : string).

Definition product : Type := operand * list (mul_op * operand).
Definition addition : Type := product * list (add_op * product).
Definition comparison : Type := addition * list (cmp_op * addition).

Definition operand_tokens (a : operand) : list Token :=
  match a with
  | Literal s => [mkToken TK_INT s]
  | Signed u s => [mkToken (unary_type u) ""; mkToken TK_INT s]
  end.

Definition product_tokens (x : product) : list Token :=
  chain_tokens operand_tokens mul_type (fst x) (snd x).

Definition addition_tokens (x : addition) : list Token :=
  chain_tokens product_tokens add_type (fst x) (snd x).

Definition comparison_tokens (x : comparison) : list Token :=
  chain_tokens addition_tokens cmp_type (fst x) (snd x).

(** The usual reading: a unary operator applies to its literal, [*] and [/]
    to operands, [+] and [-] to products, the comparisons to sums, each
    level from left to right. *)
Definition operand_value (vaddr_read : Z -> Z -> Z) (a : operand) : outcome Z :=
  match a with
  | Literal s => Ret (strtol s)
  | Signed OpPos s => Ret (strtol s)
  | Signed OpNeg s => Ret (to_int64 (- strtol s))
  | Signed OpDeref s => Ret (to_int64 (vaddr_read (to_word (strtol s)) 8))
  end.

Definition product_value (vaddr_read : Z -> Z -> Z) (x : product) : outcome Z :=
  chain_value (operand_value vaddr_read) mul_type (fst x) (snd x).

Definition addition_value (vaddr_read : Z -> Z -> Z) (x : addition) : outcome Z :=
  chain_value (product_value vaddr_read) add_type (fst x) (snd x).

Definition comparison_value (vaddr_read : Z -> Z -> Z) (x : comparison) : outcome Z :=
  chain_value (addition_value vaddr_read) cmp_type (fst x) (snd x).

Section Flat.

Variable regs : string -> Z * bool.
Variable vmem : Z -> Z -> Z.

Lemma literal_ok (s : string) :
  evaluates regs vmem [mkToken TK_INT s] (Ret (strtol s)).
Proof.
  intros pre post fuel Hfuel. destruct fuel as [| fuel]; [lia |].
  cbn [length Z.of_nat Pos.of_succ_nat].
  replace (Z.of_nat (length pre) + 1 - 1) with (Z.of_nat (length pre)) by lia.
  cbn [cal_expr_fuel]. unfold check_parentheses.
  replace (Z.to_nat (Z.of_nat (length pre) - Z.of_nat (length pre) + 1))
    with (length [mkToken TK_INT s]) by (simpl; lia).
  rewrite check_parentheses_loop_flat by (repeat constructor).
  cbn [bind negb app]. rewrite token_at_app. cbn [bind type token_enum_eqb].
  destruct (Z.gtb_spec (Z.of_nat (length pre)) (Z.of_nat (length pre))); [lia |].
  rewrite Z.eqb_refl, token_at_app. reflexivity.
Qed.

Lemma operand_ok (a : operand) :
  evaluates regs vmem (operand_tokens a) (operand_value vmem a).
Proof.
  destruct a as [s | u s]; [apply literal_ok |].
  intros pre post fuel Hfuel. cbn [operand_tokens length] in *.
  destruct fuel as [| fuel]; [lia |].
  set (tu := mkToken (unary_type u) ""). set (ti := mkToken TK_INT s).
  set (b := Z.of_nat (length pre)).
  replace (b + Z.of_nat 2 - 1) with (b + 1) by lia.
  cbn [cal_expr_fuel]. unfold check_parentheses.
  replace (Z.to_nat (b + 1 - b + 1)) with (length [tu; ti]) by (simpl; lia).
  unfold b. rewrite check_parentheses_loop_flat
    by (repeat constructor; now destruct u).
  cbn [bind negb app]. rewrite token_at_app. cbn [bind].
  replace (token_enum_eqb (type tu) TK_PAR_L) with false by now destruct u.
  cbn [bind]. fold b.
  destruct (Z.gtb_spec b (b + 1)); [lia |].
  destruct (Z.eqb_spec b (b + 1)); [lia |].
  destruct (Z.eqb_spec (b + 1 - b) 1); [| lia].
  unfold b. rewrite token_at_app. cbn [bind].
  pose proof (literal_ok s (pre ++ [tu]) post fuel ltac:(simpl; lia)) as Hlit.
  rewrite <- app_assoc, length_snoc in Hlit. cbn [app length Z.of_nat Pos.of_succ_nat] in Hlit.
  replace (Z.of_nat (length pre) + 1 + 1 - 1) with (Z.of_nat (length pre) + 1) in Hlit
    by lia.
  fold ti in Hlit. destruct u; cbn [tu type unary_type operand_value]; rewrite Hlit;
    reflexivity.
Qed.

Lemma operand_above (a : operand) : Forall (above 2) (operand_tokens a).
Proof.
  destruct a as [s | u s]; repeat constructor; try discriminate;
    destruct u; try reflexivity; discriminate.
Qed.

Lemma operand_nonempty (a : operand) : operand_tokens a <> [].
Proof. destruct a; discriminate. Qed.

Lemma mul_priority (o : mul_op) : binary_priority (mul_type o) = Some 2.
Proof. now destruct o. Qed.

Lemma add_priority (o : add_op) : binary_priority (add_type o) = Some 1.
Proof. now destruct o. Qed.

Lemma cmp_priority (o : cmp_op) : binary_priority (cmp_type o) = Some 0.
Proof. now destruct o. Qed.

Lemma product_ok (x : product) :
  evaluates regs vmem (product_tokens x) (product_value vmem x).
Proof.
  apply (chain_ok regs vmem operand operand_tokens (operand_value vmem) mul_op
                  mul_type 2); auto using operand_nonempty, operand_above,
                                 operand_ok, mul_priority; lia.
Qed.

Lemma product_above (x : product) : Forall (above 1) (product_tokens x).
Proof.
  apply (chain_above operand operand_tokens mul_op mul_type 2);
    auto using operand_above, mul_priority.
Qed.

Lemma product_nonempty (x : product) : product_tokens x <> [].
Proof. apply chain_nonempty, operand_nonempty. Qed.

Lemma addition_ok (x : addition) : evaluates regs vmem (addition_tokens x) (addition_value vmem x).
Proof.
  apply (chain_ok regs vmem product product_tokens (product_value vmem) add_op
                  add_type 1); auto using product_nonempty, product_above,
                                 product_ok, add_priority; lia.
Qed.

Lemma addition_above (x : addition) : Forall (above 0) (addition_tokens x).
Proof.
  apply (chain_above product product_tokens add_op add_type 1);
    auto using product_above, add_priority.
Qed.

Lemma addition_nonempty (x : addition) : addition_tokens x <> [].
Proof. apply chain_nonempty, product_nonempty. Qed.

Lemma comparison_ok (x : comparison) :
  evaluates regs vmem (comparison_tokens x) (comparison_value vmem x).
Proof.
  apply (chain_ok regs vmem addition addition_tokens (addition_value vmem) cmp_op
                  cmp_type 0); auto using addition_nonempty, addition_above,
                                 addition_ok, cmp_priority; lia.
Qed.

End Flat.

(** X10: on the tokens of an expression without parentheses whose operands are
    integer literals, each alone or after one unary operator, [cal_expr]
    returns the value of the usual reading: [*] and [/] before [+] and [-],
    these before the comparisons, operators of one level from left to
    right; so does [expr] on a string with these tokens. *)
Theorem X10_flat_expression_value :
  forall regs vmem (x : comparison),
    cal_expr regs vmem (comparison_tokens x) 0
             (Z.of_nat (length (comparison_tokens x)) - 1)
    = comparison_value vmem x
    /\ forall e success,
        make_token e = Ret (LexOk (comparison_tokens x)) ->
        expr regs vmem e success
        = (v <- comparison_value vmem x ;; Ret (to_word v, success)).
Proof.
  intros regs vmem x.
  assert (H : cal_expr regs vmem (comparison_tokens x) 0
                       (Z.of_nat (length (comparison_tokens x)) - 1)
              = comparison_value vmem x).
  { unfold cal_expr.
    pose proof (comparison_ok regs vmem x [] []
                  (S (Z.to_nat (Z.of_nat (length (comparison_tokens x)) - 1 - 0 + 1)))
                  ltac:(lia)) as E.
    cbn [app length Z.of_nat] in E. rewrite app_nil_r in E.
    rewrite <- E. f_equal. }
  split; [exact H |]. intros e success Hlex. unfold expr. rewrite Hlex.
  cbn [bind]. now rewrite H.
Qed.

Lemma X10_flat_expression_value_witness :
  expr no_register (fun _ _ => 0) "1+2*-3" true = Ret (to_word (-5), true)
  /\ expr no_register (fun _ _ => 0) "7-2-1<5==1" true = Ret (1, true).
Proof.
  split.
  - apply (proj2 (X10_flat_expression_value
                    no_register (fun _ _ => 0)
                    (((Literal "1", []),
                      [(OpAdd, (Literal "2", [(OpMul, Signed OpNeg "3")]))]), []))
                 "1+2*-3"%string true).
    reflexivity.
  - apply (proj2 (X10_flat_expression_value
                    no_register (fun _ _ => 0)
                    (((Literal "7", []),
                      [(OpSub, (Literal "2", [])); (OpSub, (Literal "1", []))]),
                     [(OpLt, ((Literal "5", []), []));
                      (OpEq, ((Literal "1", []), []))]))
                 "7-2-1<5==1"%string true).
    reflexivity.
Defined.

(** ** Expressions with parentheses *)

(** The binary operators [make_token] can return. *)
Inductive bin_op : Type :=
| BinMul | BinDiv | BinAdd | BinSub | BinEq | BinLt | BinGt.

Definition bin_type (o : bin_op) : token_enum_t :=
  match o with
  | BinMul => TK_MUL | BinDiv => TK_DIV | BinAdd => TK_ADD | BinSub => TK_MINUS
  | BinEq => TK_BOOL_EQ | BinLt => TK_BOOL_LT | BinGt => TK_BOOL_GT
  end.

Definition bin_priority (o : bin_op) : Z :=
  match o with
  | BinMul | BinDiv => 2
  | BinAdd | BinSub => 1
  | BinEq | BinLt | BinGt => 0
  end.

(** An expression: an integer literal, alone or after one unary operator,
    an expression in parentheses, or two expressions around a binary
    operator. *)
Inductive tree : Type :=
| Leaf (a : operand)
| Paren (e : tree)
| Binary (l : tree) (o : bin_op) (r : tree).

Fixpoint tree_tokens (e : tree) : list Token :=
  match e with
  | Leaf a => operand_tokens a
  | Paren e' => mkToken TK_PAR_L "" :: tree_tokens e' ++ [mkToken TK_PAR_R ""]
  | Binary l o r => tree_tokens l ++ mkToken (bin_type o) "" :: tree_tokens r
  end.

Fixpoint tree_value (vaddr_read : Z -> Z -> Z) (e : tree) : outcome Z :=
  match e with
  | Leaf a => operand_value vaddr_read a
  | Paren e' => tree_value vaddr_read e'
  | Binary l o r =>
      val_1 <- tree_value vaddr_read l ;;
      val_2 <- tree_value vaddr_read r ;;
      apply_binary (bin_type o) val_1 val_2
  end.

(** The expression starts with an opening parenthesis, ends with a closing
    one. *)
Fixpoint opens (e : tree) : bool :=
  match e with
  | Leaf _ => false
  | Paren _ => true
  | Binary l _ _ => opens l
  end.

Fixpoint closes (e : tree) : bool :=
  match e with
  | Leaf _ => false
  | Paren _ => true
  | Binary _ _ r => closes r
  end.

(** The tree is the one of the usual reading: an operator of the left
    operand binds at least as much as [o], one of the right operand more. *)
Definition binds_left (o : bin_op) (l : tree) : Prop :=
  match l with
  | Binary _ o' _ => bin_priority o <= bin_priority o'
  | _ => True
  end.

Definition binds_right (o : bin_op) (r : tree) : Prop :=
  match r with
  | Binary _ o' _ => bin_priority o < bin_priority o'
  | _ => True
  end.

(** The expressions [cal_expr] reads as the tree says.  [stripped] tells
    that the expression stands in parentheses that [cal_expr] has just
    removed: it removes one pair only, and it removes the first and the
    last token of a range whenever they are parentheses, a pair or not. *)
Fixpoint readable (stripped : bool) (e : tree) : Prop :=
  match e with
  | Leaf _ => True
  | Paren e' => stripped = false /\ readable true e'
  | Binary l o r =>
      (stripped = false -> opens l && closes r = false)
      /\ binds_left o l /\ binds_right o r
      /\ readable false l /\ readable false r
  end.

(** The literals can be stored by [make_token]. *)
Fixpoint written (e : tree) : Prop :=
  match e with
  | Leaf (Literal s) | Leaf (Signed _ s) => literal s /\ (String.length s < 32)%nat
  | Paren e' => written e'
  | Binary l _ r => written l /\ written r
  end.

(** ** The scan of [find_major_operator] over a list of tokens *)

(** One turn of the loop at index [i]: the position of the candidate, the
    number of open parentheses and the priority of the candidate after it. *)
Definition scan_step (t : Token) (i major num minp : Z) : outcome (Z * Z * Z) :=
  match type t with
  | TK_INT => Ret (major, num, minp)
  | TK_PAR_L => Ret (major, num + 1, minp)
  | TK_PAR_R => Ret (major, num - 1, minp)
  | ty =>
      if num >? 0 then Ret (major, num, minp)
      else if num <? 0 then Abort
      else
        p <- get_priority ty ;;
        if p <=? minp then Ret (i, num, p) else Ret (major, num, minp)
  end.

Fixpoint scan_tokens (l : list Token) (i major num minp : Z) : outcome (Z * Z * Z) :=
  match l with
  | [] => Ret (major, num, minp)
  | t :: l' =>
      s <- scan_step t i major num minp ;;
      scan_tokens l' (i + 1) (fst (fst s)) (snd (fst s)) (snd s)
  end.

Lemma find_major_operator_loop_scan (l : list Token) :
  forall pre post k major num minp,
    find_major_operator_loop (pre ++ l ++ post) (length l + k)
                             (Z.of_nat (length pre)) major num minp
    = (s <- scan_tokens l (Z.of_nat (length pre)) major num minp ;;
       find_major_operator_loop (pre ++ l ++ post) k
                                (Z.of_nat (length pre) + Z.of_nat (length l))
                                (fst (fst s)) (snd (fst s)) (snd s)).
Proof.
  induction l as [| t l IH]; intros pre post k major num minp.
  - cbn [length Nat.add scan_tokens bind fst snd Z.of_nat]. now rewrite Z.add_0_r.
  - cbn [length Nat.add find_major_operator_loop scan_tokens app].
    rewrite token_at_app. cbn [bind].
    replace (Z.of_nat (length pre) + Z.of_nat (S (length l)))
      with (Z.of_nat (length (pre ++ [t])) + Z.of_nat (length l))
      by (rewrite length_snoc; lia).
    rewrite (snoc_app pre t), <- (length_snoc pre t).
    unfold scan_step.
    destruct (type t); cbn [bind fst snd get_priority];
      repeat match goal with
             | |- context [if ?c then _ else _] => destruct c
             end; cbn [bind fst snd]; try reflexivity; apply IH.
Qed.

Lemma scan_tokens_app (l1 : list Token) :
  forall l2 i major num minp,
    scan_tokens (l1 ++ l2) i major num minp
    = (s <- scan_tokens l1 i major num minp ;;
       scan_tokens l2 (i + Z.of_nat (length l1)) (fst (fst s)) (snd (fst s)) (snd s)).
Proof.
  induction l1 as [| t l1 IH]; intros l2 i major num minp.
  - cbn [app scan_tokens bind fst snd length Z.of_nat]. now rewrite Z.add_0_r.
  - cbn [app scan_tokens length].
    destruct (scan_step t i major num minp) as [[[m n] q] | | |]; cbn [bind fst snd];
      try reflexivity.
    rewrite IH. destruct (scan_tokens l1 (i + 1) m n q) as [[[m' n'] q'] | | |];
      cbn [bind fst snd]; try reflexivity.
    f_equal. lia.
Qed.

(** ** The scan over the tokens of an expression *)

Lemma scan_operand (a : operand) (i major num minp : Z) :
  0 <= num -> minp <= 2 ->
  scan_tokens (operand_tokens a) i major num minp = Ret (major, num, minp).
Proof.
  intros Hnum Hmin. destruct a as [s | u s]; [reflexivity |].
  cbn [operand_tokens scan_tokens]. unfold scan_step. cbn [type].
  destruct (Z.gtb_spec num 0).
  - destruct u; reflexivity.
  - destruct (Z.ltb_spec num 0); [lia |].
    destruct u; cbn [unary_type get_priority bind];
      (destruct (Z.leb_spec 3 minp); [lia | reflexivity]).
Qed.

Lemma scan_operator (o : bin_op) (i major num minp : Z) :
  scan_step (mkToken (bin_type o) "") i major num minp
  = if num >? 0 then Ret (major, num, minp)
    else if num <? 0 then Abort
    else if bin_priority o <=? minp then Ret (i, num, bin_priority o)
         else Ret (major, num, minp).
Proof. destruct o; reflexivity. Qed.

(** Inside parentheses nothing is a candidate. *)
Lemma scan_inside (e : tree) :
  forall i major num minp,
    0 < num -> minp <= 2 ->
    scan_tokens (tree_tokens e) i major num minp = Ret (major, num, minp).
Proof.
  induction e as [a | e IH | l IHl o r IHr]; intros i major num minp Hnum Hmin.
  - apply scan_operand; lia.
  - cbn [tree_tokens scan_tokens]. unfold scan_step at 1. cbn [type bind fst snd].
    rewrite scan_tokens_app, IH by lia. cbn [bind fst snd scan_tokens].
    unfold scan_step. cbn [type bind fst snd]. do 3 f_equal. lia.
  - cbn [tree_tokens]. rewrite scan_tokens_app, IHl by lia.
    cbn [bind fst snd scan_tokens]. rewrite scan_operator.
    destruct (Z.gtb_spec num 0); [| lia]. cbn [bind fst snd]. now apply IHr.
Qed.

(** Outside parentheses the scan ends on the operator at the root of the
    tree, when its priority is not above the one it started with. *)
Fixpoint ordered (e : tree) : Prop :=
  match e with
  | Binary l o r => binds_left o l /\ binds_right o r /\ ordered l /\ ordered r
  | _ => True
  end.

Definition scan_result (e : tree) (i major minp : Z) : Z * Z * Z :=
  match e with
  | Binary l o _ =>
      if bin_priority o <=? minp
      then (i + Z.of_nat (length (tree_tokens l)), 0, bin_priority o)
      else (major, 0, minp)
  | _ => (major, 0, minp)
  end.

Lemma scan_outside (e : tree) :
  forall i major minp,
    ordered e -> minp <= 2 ->
    scan_tokens (tree_tokens e) i major 0 minp = Ret (scan_result e i major minp).
Proof.
  induction e as [a | e IH | l IHl o r IHr]; intros i major minp Hord Hmin.
  - apply scan_operand; lia.
  - cbn [tree_tokens scan_tokens]. unfold scan_step at 1. cbn [type bind fst snd].
    rewrite scan_tokens_app, scan_inside by lia. cbn [bind fst snd scan_tokens].
    unfold scan_step. cbn [type bind fst snd]. reflexivity.
  - destruct Hord as (Hl & Hr & Hol & Hor).
    cbn [tree_tokens]. rewrite scan_tokens_app, (IHl i major minp Hol Hmin).
    cbn [bind scan_tokens]. rewrite scan_operator.
    assert (Hl' : snd (scan_result l i major minp) <= minp
                  /\ snd (fst (scan_result l i major minp)) = 0
                  /\ (bin_priority o <= snd (scan_result l i major minp)
                      \/ scan_result l i major minp = (major, 0, minp))).
    { destruct l as [a | e | l1 o1 r1]; cbn [scan_result fst snd];
        try (split; [lia | split; [reflexivity | now right]]).
      cbn [binds_left] in Hl.
      destruct (Z.leb_spec (bin_priority o1) minp); cbn [fst snd];
        (split; [lia | split; [reflexivity |]]); [left; lia | now right]. }
    destruct Hl' as (Hle & Hz & Hcase). rewrite Hz. cbn [Z.gtb Z.ltb Z.compare].
    cbn [scan_result].
    destruct (Z.leb_spec (bin_priority o) (snd (scan_result l i major minp)))
      as [Hc | Hc]; cbn [bind fst snd].
    + destruct (Z.leb_spec (bin_priority o) minp); [| lia].
      rewrite (IHr _ _ _ Hor) by (destruct o; simpl; lia).
      destruct r as [a | e | r1 o2 r2]; cbn [scan_result]; try reflexivity.
      cbn [binds_right] in Hr.
      destruct (Z.leb_spec (bin_priority o2) (bin_priority o)); [lia | reflexivity].
    + destruct Hcase as [Hcase | Hcase]; [lia |]. rewrite Hcase in *.
      cbn [fst snd] in *.
      destruct (Z.leb_spec (bin_priority o) minp); [lia |].
      rewrite (IHr _ _ _ Hor Hmin).
      destruct r as [a | e | r1 o2 r2]; cbn [scan_result]; try reflexivity.
      cbn [binds_right] in Hr.
      destruct (Z.leb_spec (bin_priority o2) minp); [lia | reflexivity].
Qed.

(** With no parenthesis closed too much, the scan goes through. *)
Lemma scan_returns (e : tree) :
  forall i major num minp,
    0 <= num -> minp <= 2 ->
    exists m q, scan_tokens (tree_tokens e) i major num minp = Ret (m, num, q)
                /\ q <= 2.
Proof.
  induction e as [a | e IH | l IHl o r IHr]; intros i major num minp Hnum Hmin.
  - exists major, minp. split; [now apply scan_operand | exact Hmin].
  - exists major, minp. split; [| exact Hmin].
    cbn [tree_tokens scan_tokens]. unfold scan_step at 1. cbn [type bind fst snd].
    rewrite scan_tokens_app, scan_inside by lia. cbn [bind fst snd scan_tokens].
    unfold scan_step. cbn [type bind fst snd]. do 3 f_equal. lia.
  - destruct (IHl i major num minp Hnum Hmin) as (m1 & q1 & E1 & Hq1).
    cbn [tree_tokens]. rewrite scan_tokens_app, E1. cbn [bind fst snd scan_tokens].
    rewrite scan_operator.
    destruct (Z.gtb_spec num 0); cbn [bind fst snd]; [now apply IHr |].
    destruct (Z.ltb_spec num 0); [lia |].
    destruct (Z.leb_spec (bin_priority o) q1); cbn [bind fst snd];
      apply IHr; auto. destruct o; simpl; lia.
Qed.

(** The last token of an expression is an integer or a closing parenthesis. *)
Lemma tree_tokens_last (e : tree) :
  exists body z,
    tree_tokens e = body ++ [z]
    /\ (type z = TK_INT \/ type z = TK_PAR_R)
    /\ (type z = TK_PAR_R <-> closes e = true).
Proof.
  induction e as [a | e IH | l IHl o r IHr].
  - destruct a as [s | u s].
    + exists [], (mkToken TK_INT s). repeat split; auto; discriminate.
    + exists [mkToken (unary_type u) ""], (mkToken TK_INT s).
      repeat split; auto; discriminate.
  - exists (mkToken TK_PAR_L "" :: tree_tokens e), (mkToken TK_PAR_R "").
    repeat split; auto.
  - destruct IHr as (body & z & E & Hz & Hc).
    exists (tree_tokens l ++ mkToken (bin_type o) "" :: body), z.
    cbn [tree_tokens closes]. rewrite E, <- app_assoc. repeat split; auto; apply Hc.
Qed.

Lemma tree_tokens_first (e : tree) :
  exists t rest,
    tree_tokens e = t :: rest
    /\ (type t = TK_PAR_L <-> opens e = true)
    /\ (opens e = false -> flat_type (type t) = true).
Proof.
  induction e as [a | e IH | l IHl o r IHr].
  - destruct a as [s | u s]; eexists; eexists; (split; [reflexivity |]);
      cbn [type opens]; (split; [split; [try destruct u |]; discriminate |]);
      intros _; try destruct u; reflexivity.
  - eexists; eexists. split; [reflexivity |]. cbn [type opens].
    split; [tauto | discriminate].
  - destruct IHl as (t & rest & E & Ho & Hf). cbn [tree_tokens opens]. rewrite E.
    eexists; eexists. split; [reflexivity |]. auto.
Qed.

Lemma tree_tokens_length (e : tree) : (1 <= length (tree_tokens e))%nat.
Proof.
  destruct (tree_tokens_first e) as (t & rest & E & _). rewrite E. simpl. lia.
Qed.

(** ** [check_parentheses] over the tokens of an expression *)

(** The counter of [check_parentheses] after the tokens [l], when it did not
    get negative. *)
Fixpoint count_tokens (l : list Token) (num : Z) : option Z :=
  match l with
  | [] => Some num
  | t :: l' =>
      let num := if token_enum_eqb (type t) TK_PAR_L then num + 1 else num in
      if token_enum_eqb (type t) TK_PAR_R then
        if num - 1 <? 0 then None else count_tokens l' (num - 1)
      else count_tokens l' num
  end.

Lemma check_parentheses_loop_count (l : list Token) :
  forall pre post k num,
    check_parentheses_loop (pre ++ l ++ post) (length l + k)
                           (Z.of_nat (length pre)) num
    = match count_tokens l num with
      | Some num' =>
          check_parentheses_loop (pre ++ l ++ post) k
                                 (Z.of_nat (length pre) + Z.of_nat (length l)) num'
      | None => Ret false
      end.
Proof.
  induction l as [| t l IH]; intros pre post k num.
  - cbn [length Nat.add count_tokens Z.of_nat]. now rewrite Z.add_0_r.
  - cbn [length Nat.add check_parentheses_loop count_tokens app].
    rewrite token_at_app. cbn [bind].
    replace (Z.of_nat (length pre) + Z.of_nat (S (length l)))
      with (Z.of_nat (length (pre ++ [t])) + Z.of_nat (length l))
      by (rewrite length_snoc; lia).
    rewrite (snoc_app pre t), <- (length_snoc pre t).
    destruct (token_enum_eqb (type t) TK_PAR_R).
    + destruct (_ <? 0); [reflexivity | apply IH].
    + apply IH.
Qed.

Lemma count_tokens_app (l1 : list Token) :
  forall l2 num,
    count_tokens (l1 ++ l2) num
    = match count_tokens l1 num with
      | Some num' => count_tokens l2 num'
      | None => None
      end.
Proof.
  induction l1 as [| t l1 IH]; intros l2 num; [reflexivity |].
  cbn [app count_tokens]. destruct (token_enum_eqb (type t) TK_PAR_R).
  - destruct (_ <? 0); [reflexivity | apply IH].
  - apply IH.
Qed.

Lemma count_operand (a : operand) (num : Z) :
  count_tokens (operand_tokens a) num = Some num.
Proof. destruct a as [s | [| |] s]; reflexivity. Qed.

Lemma count_tree (e : tree) :
  forall num, 0 <= num -> count_tokens (tree_tokens e) num = Some num.
Proof.
  induction e as [a | e IH | l IHl o r IHr]; intros num Hnum.
  - apply count_operand.
  - cbn [tree_tokens count_tokens type token_enum_eqb].
    rewrite count_tokens_app, IH by lia.
    cbn [count_tokens type token_enum_eqb].
    destruct (Z.ltb_spec (num + 1 - 1) 0); [lia |]. f_equal. lia.
  - cbn [tree_tokens]. rewrite count_tokens_app, IHl by lia.
    cbn [count_tokens type].
    replace (token_enum_eqb (bin_type o) TK_PAR_L) with false by now destruct o.
    replace (token_enum_eqb (bin_type o) TK_PAR_R) with false by now destruct o.
    now apply IHr.
Qed.

Lemma check_parentheses_tree (e : tree) (pre post : list Token) :
  check_parentheses (pre ++ tree_tokens e ++ post) (Z.of_nat (length pre))
                    (Z.of_nat (length pre) + Z.of_nat (length (tree_tokens e)) - 1)
  = Ret true.
Proof.
  unfold check_parentheses.
  replace (Z.to_nat (Z.of_nat (length pre) + Z.of_nat (length (tree_tokens e)) - 1
                     - Z.of_nat (length pre) + 1))
    with (length (tree_tokens e) + 0)%nat by lia.
  rewrite check_parentheses_loop_count, count_tree by lia. reflexivity.
Qed.

(** ** [cal_expr] after the parentheses are checked and removed *)

Section Nested.

Variable regs : string -> Z * bool.
Variable vmem : Z -> Z -> Z.

(** The rest of the body of [cal_expr], on the range it is left with. *)
Definition cal_body (tokens : list Token) (fuel' : nat) (begin_index end_index : Z)
  : outcome Z :=
  if begin_index >? end_index then Abort
  else if begin_index =? end_index then
    t <- token_at tokens begin_index ;;
    match type t with
    | TK_INT => Ret (strtol (str t))
    | TK_REG =>
        let (result, feedback) := regs (str t) in
        if feedback then Ret (to_int64 result) else Ret 0
    | _ => Ret 0
    end
  else if end_index - begin_index =? 1 then
    t <- token_at tokens begin_index ;;
    match type t with
    | TK_POS => cal_expr_fuel regs vmem tokens fuel' (begin_index + 1) end_index
    | TK_NEG =>
        v <- cal_expr_fuel regs vmem tokens fuel' (begin_index + 1) end_index ;;
        Ret (to_int64 (- v))
    | TK_DEREF =>
        v <- cal_expr_fuel regs vmem tokens fuel' (begin_index + 1) end_index ;;
        Ret (to_int64 (vmem (to_word v) 8))
    | _ => Abort
    end
  else
    major_op_pos <- find_major_operator tokens begin_index end_index ;;
    if major_op_pos =? -1 then Abort
    else
      val_1 <- cal_expr_fuel regs vmem tokens fuel' begin_index (major_op_pos - 1) ;;
      val_2 <- cal_expr_fuel regs vmem tokens fuel' (major_op_pos + 1) end_index ;;
      t <- token_at tokens major_op_pos ;;
      apply_binary (type t) val_1 val_2.

Lemma cal_expr_fuel_S (tokens : list Token) (fuel : nat) (b e : Z) :
  cal_expr_fuel regs vmem tokens (S fuel) b e
  = (ok <- check_parentheses tokens b e ;;
     if negb ok then Ret 0
     else
       first <- token_at tokens b ;;
       strip <- (if token_enum_eqb (type first) TK_PAR_L then
                   last <- token_at tokens e ;;
                   Ret (token_enum_eqb (type last) TK_PAR_R)
                 else Ret false) ;;
       cal_body tokens fuel (if strip then b + 1 else b) (if strip then e - 1 else e)).
Proof. reflexivity. Qed.

(** [cal_body] on the tokens of [e] in any buffer returns the value of [e]. *)
Definition body_ok (e : tree) : Prop :=
  forall pre post fuel,
    (length (tree_tokens e) <= fuel)%nat ->
    cal_body (pre ++ tree_tokens e ++ post) fuel (Z.of_nat (length pre))
             (Z.of_nat (length pre) + Z.of_nat (length (tree_tokens e)) - 1)
    = tree_value vmem e.

Lemma body_leaf (a : operand) : body_ok (Leaf a).
Proof.
  intros pre post fuel Hfuel. cbn [tree_tokens tree_value] in *.
  set (b := Z.of_nat (length pre)). unfold cal_body.
  destruct a as [s | u s]; cbn [operand_tokens length Z.of_nat Pos.of_succ_nat] in *.
  - replace (b + 1 - 1) with b by lia.
    destruct (Z.gtb_spec b b); [lia |]. rewrite Z.eqb_refl.
    unfold b. cbn [app]. rewrite token_at_app. reflexivity.
  - replace (b + Z.pos (Pos.succ 1) - 1) with (b + 1) by lia.
    destruct (Z.gtb_spec b (b + 1)); [lia |].
    destruct (Z.eqb_spec b (b + 1)); [lia |].
    destruct (Z.eqb_spec (b + 1 - b) 1); [| lia].
    unfold b. cbn [app]. rewrite token_at_app. cbn [bind type].
    pose proof (literal_ok regs vmem s (pre ++ [mkToken (unary_type u) ""]) post fuel
                           ltac:(simpl; lia)) as Hlit.
    rewrite <- app_assoc, length_snoc in Hlit.
    cbn [app length Z.of_nat Pos.of_succ_nat] in Hlit.
    replace (Z.of_nat (length pre) + 1 + 1 - 1) with (Z.of_nat (length pre) + 1)
      in Hlit by lia.
    rewrite Hlit. destruct u; reflexivity.
Qed.

Lemma find_major_operator_tree (l : tree) (o : bin_op) (r : tree)
  (pre post : list Token) :
  ordered (Binary l o r) ->
  find_major_operator (pre ++ tree_tokens (Binary l o r) ++ post)
                      (Z.of_nat (length pre))
                      (Z.of_nat (length pre)
                       + Z.of_nat (length (tree_tokens (Binary l o r))) - 1)
  = Ret (Z.of_nat (length pre) + Z.of_nat (length (tree_tokens l))).
Proof.
  intros Hord.
  pose proof (scan_outside (Binary l o r) (Z.of_nat (length pre)) (-1) 2 Hord
                           ltac:(lia)) as Hscan.
  destruct (tree_tokens_last (Binary l o r)) as (body & z & E & Hz & _).
  rewrite E in *. clear E.
  unfold find_major_operator.
  replace (Z.to_nat (Z.of_nat (length pre) + Z.of_nat (length (body ++ [z])) - 1
                     - Z.of_nat (length pre)))
    with (length body + 0)%nat by (rewrite length_app; simpl; lia).
  rewrite <- app_assoc. rewrite find_major_operator_loop_scan.
  rewrite scan_tokens_app in Hscan.
  destruct (scan_tokens body (Z.of_nat (length pre)) (-1) 0 2) as [[[m n] q] | | |];
    cbn [bind fst snd] in *; try discriminate.
  cbn [find_major_operator_loop]. f_equal.
  cbn [scan_tokens scan_result] in Hscan. unfold scan_step in Hscan.
  replace (bin_priority o <=? 2) with true in Hscan by now destruct o.
  destruct Hz as [Hz | Hz]; rewrite Hz in Hscan; cbn [bind fst snd] in Hscan;
    congruence.
Qed.

Lemma body_binary (l : tree) (o : bin_op) (r : tree) :
  ordered (Binary l o r) ->
  evaluates regs vmem (tree_tokens l) (tree_value vmem l) ->
  evaluates regs vmem (tree_tokens r) (tree_value vmem r) ->
  body_ok (Binary l o r).
Proof.
  intros Hord Hl Hr pre post fuel Hfuel. unfold cal_body.
  rewrite (find_major_operator_tree l o r pre post Hord).
  cbn [tree_tokens tree_value] in *.
  pose proof (tree_tokens_length l) as Hll. pose proof (tree_tokens_length r) as Hlr.
  set (L := tree_tokens l) in *. set (R := tree_tokens r) in *.
  set (op := mkToken (bin_type o) "") in *.
  assert (Hlen : length (L ++ op :: R) = (length L + 1 + length R)%nat)
    by (rewrite length_app; cbn [length]; lia).
  rewrite Hlen in *.
  set (b := Z.of_nat (length pre)).
  destruct (Z.gtb_spec b (b + Z.of_nat (length L + 1 + length R) - 1)); [lia |].
  destruct (Z.eqb_spec b (b + Z.of_nat (length L + 1 + length R) - 1)); [lia |].
  destruct (Z.eqb_spec (b + Z.of_nat (length L + 1 + length R) - 1 - b) 1); [lia |].
  cbn [bind]. destruct (Z.eqb_spec (b + Z.of_nat (length L)) (-1)); [lia |].
  unfold b.
  replace (pre ++ (L ++ op :: R) ++ post) with (pre ++ L ++ (op :: R ++ post))
    by (rewrite <- !app_assoc; reflexivity).
  rewrite (Hl pre (op :: R ++ post) fuel) by lia.
  destruct (tree_value vmem l) as [val_1 | | |]; cbn [bind]; try reflexivity.
  replace (pre ++ L ++ (op :: R ++ post)) with ((pre ++ L ++ [op]) ++ R ++ post)
    by (rewrite <- !app_assoc; reflexivity).
  replace (Z.of_nat (length pre) + Z.of_nat (length L) + 1)
    with (Z.of_nat (length (pre ++ L ++ [op])))
    by (rewrite !length_app; cbn [length]; lia).
  replace (Z.of_nat (length pre) + Z.of_nat (length L + 1 + length R) - 1)
    with (Z.of_nat (length (pre ++ L ++ [op])) + Z.of_nat (length R) - 1)
    by (rewrite !length_app; cbn [length]; lia).
  rewrite (Hr (pre ++ L ++ [op]) post fuel) by lia.
  destruct (tree_value vmem r) as [val_2 | | |]; cbn [bind]; try reflexivity.
  replace ((pre ++ L ++ [op]) ++ R ++ post) with ((pre ++ L) ++ op :: (R ++ post))
    by (rewrite <- !app_assoc; reflexivity).
  replace (Z.of_nat (length pre) + Z.of_nat (length L))
    with (Z.of_nat (length (pre ++ L))) by (rewrite length_app; lia).
  rewrite token_at_app. reflexivity.
Qed.

Lemma token_at_first (e : tree) (pre post : list Token) :
  exists t,
    token_at (pre ++ tree_tokens e ++ post) (Z.of_nat (length pre)) = Ret t
    /\ (type t = TK_PAR_L <-> opens e = true).
Proof.
  destruct (tree_tokens_first e) as (t & rest & E & Ho & _). exists t.
  rewrite E. cbn [app]. rewrite token_at_app. now split.
Qed.

Lemma token_at_last (e : tree) (pre post : list Token) :
  exists z,
    token_at (pre ++ tree_tokens e ++ post)
             (Z.of_nat (length pre) + Z.of_nat (length (tree_tokens e)) - 1) = Ret z
    /\ (type z = TK_PAR_R <-> closes e = true).
Proof.
  destruct (tree_tokens_last e) as (body & z & E & _ & Hc). exists z.
  rewrite E, <- app_assoc, app_assoc. cbn [app].
  replace (Z.of_nat (length pre) + Z.of_nat (length (body ++ [z])) - 1)
    with (Z.of_nat (length (pre ++ body)))
    by (rewrite !length_app; cbn [length]; lia).
  rewrite token_at_app. now split.
Qed.

Lemma token_enum_eqb_true (a b : token_enum_t) : token_enum_eqb a b = true <-> a = b.
Proof. destruct a, b; simpl; split; intros H; try reflexivity; discriminate. Qed.

(** What [cal_expr] does with the first and the last token of the range. *)
Lemma cal_expr_fuel_tree (e : tree) (pre post : list Token) (fuel : nat) :
  cal_expr_fuel regs vmem (pre ++ tree_tokens e ++ post) (S fuel)
                (Z.of_nat (length pre))
                (Z.of_nat (length pre) + Z.of_nat (length (tree_tokens e)) - 1)
  = if opens e && closes e
    then cal_body (pre ++ tree_tokens e ++ post) fuel (Z.of_nat (length pre) + 1)
                  (Z.of_nat (length pre) + Z.of_nat (length (tree_tokens e)) - 1 - 1)
    else cal_body (pre ++ tree_tokens e ++ post) fuel (Z.of_nat (length pre))
                  (Z.of_nat (length pre) + Z.of_nat (length (tree_tokens e)) - 1).
Proof.
  rewrite cal_expr_fuel_S, check_parentheses_tree. cbn [bind negb].
  destruct (token_at_first e pre post) as (t & Ht & Ho).
  destruct (token_at_last e pre post) as (z & Hz & Hc).
  rewrite Ht. cbn [bind].
  destruct (token_enum_eqb (type t) TK_PAR_L) eqn:E1.
  - apply token_enum_eqb_true in E1. rewrite (proj1 Ho E1). cbn [andb].
    rewrite Hz. cbn [bind].
    destruct (token_enum_eqb (type z) TK_PAR_R) eqn:E2.
    + apply token_enum_eqb_true in E2. now rewrite (proj1 Hc E2).
    + destruct (closes e); [| reflexivity].
      rewrite (proj2 Hc eq_refl) in E2. discriminate.
  - destruct (opens e); [| reflexivity].
    rewrite (proj2 Ho eq_refl) in E1. discriminate.
Qed.

Lemma range_paren (e : tree) :
  body_ok e -> evaluates regs vmem (tree_tokens (Paren e)) (tree_value vmem (Paren e)).
Proof.
  intros Hbody pre post fuel Hfuel. destruct fuel as [| fuel]; [lia |].
  rewrite cal_expr_fuel_tree. cbn [opens closes andb tree_tokens tree_value] in *.
  rewrite length_cons, length_app in *. cbn [length] in *.
  pose proof (Hbody (pre ++ [mkToken TK_PAR_L ""]) (mkToken TK_PAR_R "" :: post) fuel
                    ltac:(lia)) as H.
  rewrite length_snoc in H. rewrite <- H. f_equal.
  - cbn [app]. rewrite <- !app_assoc. reflexivity.
  - lia.
Qed.

Lemma range_binary (l : tree) (o : bin_op) (r : tree) :
  opens l && closes r = false ->
  body_ok (Binary l o r) ->
  evaluates regs vmem (tree_tokens (Binary l o r)) (tree_value vmem (Binary l o r)).
Proof.
  intros Hpair Hbody pre post fuel Hfuel. destruct fuel as [| fuel]; [lia |].
  rewrite cal_expr_fuel_tree. cbn [opens closes]. rewrite Hpair.
  apply Hbody. lia.
Qed.

Lemma readable_ordered (e : tree) : forall s, readable s e -> ordered e.
Proof.
  induction e as [a | e IH | l IHl o r IHr]; intros s H; cbn [ordered]; auto.
  destruct H as (_ & Hl & Hr & Hrl & Hrr).
  split; [exact Hl | split; [exact Hr | split; [exact (IHl _ Hrl) | exact (IHr _ Hrr)]]].
Qed.

Lemma tree_ok (e : tree) :
  (readable false e -> evaluates regs vmem (tree_tokens e) (tree_value vmem e))
  /\ (readable true e -> body_ok e).
Proof.
  induction e as [a | e [_ IH] | l [IHl _] o r [IHr _]].
  - split; intros _; [apply operand_ok | apply body_leaf].
  - split.
    + intros [_ H]. apply range_paren. auto.
    + intros [H _]. discriminate.
  - assert (Hbody : forall s, readable s (Binary l o r) -> body_ok (Binary l o r)).
    { intros s H. pose proof (readable_ordered _ _ H) as Hord.
      destruct H as (_ & _ & _ & Hl & Hr). apply body_binary; auto. }
    split; intros H; [| now apply (Hbody true)].
    apply range_binary; [| now apply (Hbody false)].
    destruct H as (Hpair & _). now apply Hpair.
Qed.

(** ** Parentheses that [cal_expr] does not read *)

Lemma cal_expr_fuel_double (e : tree) (pre post : list Token) (fuel : nat) :
  cal_expr_fuel regs vmem (pre ++ tree_tokens (Paren (Paren e)) ++ post) (S fuel)
                (Z.of_nat (length pre))
                (Z.of_nat (length pre)
                 + Z.of_nat (length (tree_tokens (Paren (Paren e)))) - 1)
  = Abort.
Proof.
  rewrite cal_expr_fuel_tree. cbn [opens closes andb]. unfold cal_body.
  pose proof (tree_tokens_length e) as Hle.
  set (po := mkToken TK_PAR_L ""). set (pc := mkToken TK_PAR_R "").
  assert (E : tree_tokens (Paren (Paren e)) = [po] ++ (po :: tree_tokens e) ++ [pc; pc]).
  { cbn [tree_tokens app]. rewrite <- !app_assoc. reflexivity. }
  rewrite E. clear E. rewrite !length_app. cbn [length].
  set (b := Z.of_nat (length pre)). set (n := length (tree_tokens e)) in *.
  destruct (Z.gtb_spec (b + 1) (b + Z.of_nat (1 + (S n + 2)) - 1 - 1)); [lia |].
  destruct (Z.eqb_spec (b + 1) (b + Z.of_nat (1 + (S n + 2)) - 1 - 1)); [lia |].
  destruct (Z.eqb_spec (b + Z.of_nat (1 + (S n + 2)) - 1 - 1 - (b + 1)) 1); [lia |].
  unfold find_major_operator.
  replace (Z.to_nat (b + Z.of_nat (1 + (S n + 2)) - 1 - 1 - (b + 1)))
    with (length (po :: tree_tokens e) + 0)%nat by (cbn [length]; lia).
  replace (pre ++ ([po] ++ (po :: tree_tokens e) ++ [pc; pc]) ++ post)
    with ((pre ++ [po]) ++ (po :: tree_tokens e) ++ ([pc; pc] ++ post))
    by (rewrite <- !app_assoc; reflexivity).
  replace (b + 1) with (Z.of_nat (length (pre ++ [po])))
    by (rewrite length_snoc; reflexivity).
  rewrite find_major_operator_loop_scan.
  cbn [scan_tokens]. unfold scan_step at 1. cbn [type po bind fst snd].
  rewrite scan_inside by lia. reflexivity.
Qed.

Lemma opens_tokens (l : tree) :
  opens l = true ->
  exists c rest,
    tree_tokens l = mkToken TK_PAR_L "" :: tree_tokens c ++ mkToken TK_PAR_R "" :: rest
    /\ (rest = [] \/ exists o rest', rest = mkToken (bin_type o) "" :: rest').
Proof.
  induction l as [a | e _ | l IHl o r _]; intros H; cbn [opens] in H;
    [discriminate | |].
  - exists e, []. split; [reflexivity | now left].
  - destruct (IHl H) as (c & rest & E & Hrest).
    exists c, (rest ++ mkToken (bin_type o) "" :: tree_tokens r).
    cbn [tree_tokens]. rewrite E. cbn [app]. rewrite <- app_assoc. cbn [app].
    split; [reflexivity |]. right.
    destruct Hrest as [-> | (o' & rest' & ->)]; cbn [app]; eauto.
Qed.

Lemma closes_length (r : tree) :
  closes r = true -> (3 <= length (tree_tokens r))%nat.
Proof.
  induction r as [a | e _ | l _ o r IHr]; intros H; cbn [closes] in H;
    [discriminate | |]; cbn [tree_tokens]; rewrite ?length_cons, length_app;
    cbn [length].
  - pose proof (tree_tokens_length e). lia.
  - specialize (IHr H). lia.
Qed.

Lemma pair_tokens (l : tree) (o : bin_op) (r : tree) :
  opens l = true -> closes r = true ->
  exists c o1 tail,
    tree_tokens (Binary l o r)
    = [mkToken TK_PAR_L ""]
        ++ (tree_tokens c ++ [mkToken TK_PAR_R ""; mkToken (bin_type o1) ""]) ++ tail
    /\ (3 <= length tail)%nat.
Proof.
  intros Ho Hc. destruct (opens_tokens l Ho) as (c & rest & E & Hrest).
  pose proof (closes_length r Hc) as Hr. cbn [tree_tokens]. rewrite E.
  destruct Hrest as [-> | (o' & rest' & ->)].
  - exists c, o, (tree_tokens r). split; [| exact Hr].
    cbn [app]. rewrite <- !app_assoc. reflexivity.
  - exists c, o', (rest' ++ mkToken (bin_type o) "" :: tree_tokens r). split.
    + cbn [app]. rewrite <- !app_assoc. reflexivity.
    + rewrite length_app. cbn [length]. lia.
Qed.

Lemma cal_expr_fuel_pair (l : tree) (o : bin_op) (r : tree) (pre post : list Token)
  (fuel : nat) :
  opens l = true -> closes r = true ->
  cal_expr_fuel regs vmem (pre ++ tree_tokens (Binary l o r) ++ post) (S fuel)
                (Z.of_nat (length pre))
                (Z.of_nat (length pre)
                 + Z.of_nat (length (tree_tokens (Binary l o r))) - 1)
  = Abort.
Proof.
  intros Ho Hc. rewrite cal_expr_fuel_tree. cbn [opens closes]. rewrite Ho, Hc.
  cbn [andb]. unfold cal_body.
  destruct (pair_tokens l o r Ho Hc) as (c & o1 & tail & E & Htail).
  rewrite E. clear E.
  set (po := mkToken TK_PAR_L ""). set (pc := mkToken TK_PAR_R "").
  set (op := mkToken (bin_type o1) "").
  set (M := tree_tokens c ++ [pc; op]).
  rewrite !length_app. cbn [length].
  set (b := Z.of_nat (length pre)).
  assert (HM : length M = (length (tree_tokens c) + 2)%nat)
    by (unfold M; rewrite length_app; reflexivity).
  destruct (Z.gtb_spec (b + 1) (b + Z.of_nat (1 + (length M + length tail)) - 1 - 1));
    [lia |].
  destruct (Z.eqb_spec (b + 1) (b + Z.of_nat (1 + (length M + length tail)) - 1 - 1));
    [lia |].
  destruct (Z.eqb_spec (b + Z.of_nat (1 + (length M + length tail)) - 1 - 1 - (b + 1)) 1);
    [lia |].
  unfold find_major_operator.
  replace (Z.to_nat (b + Z.of_nat (1 + (length M + length tail)) - 1 - 1 - (b + 1)))
    with (length M + (length tail - 2))%nat by lia.
  replace (pre ++ ([po] ++ M ++ tail) ++ post)
    with ((pre ++ [po]) ++ M ++ (tail ++ post))
    by (rewrite <- !app_assoc; reflexivity).
  replace (b + 1) with (Z.of_nat (length (pre ++ [po])))
    by (rewrite length_snoc; reflexivity).
  rewrite find_major_operator_loop_scan. unfold M. rewrite scan_tokens_app.
  destruct (scan_returns c (Z.of_nat (length (pre ++ [po]))) (-1) 0 2
                         ltac:(lia) ltac:(lia)) as (m & q & Es & _).
  rewrite Es. cbn [bind fst snd scan_tokens]. unfold scan_step at 1.
  cbn [type pc bind fst snd]. unfold op. rewrite scan_operator. reflexivity.
Qed.

End Nested.

(** ** The text of an expression *)

Lemma operand_lexable (a : operand) (before : list Token) :
  written (Leaf a) -> unary_position before = true ->
  lexable before (operand_tokens a)
  /\ unary_position (before ++ operand_tokens a) = false.
Proof.
  intros Ha Hb. destruct a as [s | u s]; cbn [written operand_tokens lexable] in *.
  - split; [| now rewrite unary_position_snoc].
    split; [| exact I]. split; [exact (proj2 Ha) | exact (proj1 Ha)].
  - split.
    + split; [| split; [| exact I]].
      * split; [simpl; lia |]. cbn [type str]. now destruct u.
      * split; [exact (proj2 Ha) | exact (proj1 Ha)].
    + change (before ++ [mkToken (unary_type u) ""; mkToken TK_INT s])
        with (before ++ [mkToken (unary_type u) ""] ++ [mkToken TK_INT s]).
      now rewrite app_assoc, unary_position_snoc.
Qed.

Lemma operator_admissible (o : bin_op) (before : list Token) :
  unary_position before = false ->
  admissible before (mkToken (bin_type o) "")
  /\ unary_position (before ++ [mkToken (bin_type o) ""]) = true.
Proof.
  intros Hb. rewrite unary_position_snoc. cbn [type].
  destruct o; (split; [| reflexivity]); (split; [simpl; lia |]); cbn [type str bin_type];
    auto.
Qed.

Lemma tree_lexable (e : tree) :
  forall before,
    written e -> unary_position before = true ->
    lexable before (tree_tokens e)
    /\ unary_position (before ++ tree_tokens e) = false.
Proof.
  induction e as [a | e IH | l IHl o r IHr]; intros before Hw Hb.
  - now apply operand_lexable.
  - cbn [tree_tokens written] in *.
    destruct (IH (before ++ [mkToken TK_PAR_L ""]) Hw
                 ltac:(now rewrite unary_position_snoc)) as [H1 H2].
    split.
    + cbn [lexable]. split; [split; [simpl; lia | reflexivity] |].
      apply lexable_app. split; [exact H1 |]. cbn [lexable].
      split; [split; [simpl; lia | reflexivity] | exact I].
    + change (before ++ mkToken TK_PAR_L "" :: tree_tokens e ++ [mkToken TK_PAR_R ""])
        with (before ++ [mkToken TK_PAR_L ""] ++ tree_tokens e ++ [mkToken TK_PAR_R ""]).
      now rewrite !app_assoc, unary_position_snoc.
  - cbn [tree_tokens written] in *. destruct Hw as [Hwl Hwr].
    destruct (IHl before Hwl Hb) as [H1 H2].
    destruct (operator_admissible o (before ++ tree_tokens l) H2) as [H3 H4].
    destruct (IHr ((before ++ tree_tokens l) ++ [mkToken (bin_type o) ""]) Hwr H4)
      as [H5 H6].
    split.
    + apply lexable_app. split; [exact H1 |]. cbn [lexable]. now split.
    + rewrite <- H6. f_equal. now rewrite <- !app_assoc.
Qed.

Lemma make_token_tree (e : tree) :
  written e -> (length (tree_tokens e) <= 32)%nat ->
  make_token (text (tree_tokens e)) = Ret (LexOk (tree_tokens e)).
Proof.
  intros Hw Hlen. destruct (tree_lexable e [] Hw eq_refl) as [Hlex _].
  unfold make_token. now rewrite (make_token_loop_text _ [] 0 Hlex Hlen).
Qed.

(** X18: expressions with parentheses.  For an expression built from integer
    literals, each alone or after one unary operator, the binary operators
    and parentheses, with the tree of the usual reading, [cal_expr] on its
    tokens returns the value of the tree, and [expr] on a string with these
    tokens returns it as a 64-bit word, when the expression is [readable]:
    no part in parentheses is itself a single part in parentheses, and no
    operand of a binary operator, and not the whole expression, starts with
    an opening parenthesis and ends with a closing one without being a
    single part in parentheses.  The text of the expression, its tokens
    with a blank after each, gives these tokens when the literals have
    fewer than 32 characters and there are at most 32 tokens. *)
Theorem X18_nested_expression_value :
  forall regs vmem (e : tree),
    (written e -> (length (tree_tokens e) <= 32)%nat ->
     make_token (text (tree_tokens e)) = Ret (LexOk (tree_tokens e)))
    /\ (readable false e ->
        cal_expr regs vmem (tree_tokens e) 0 (Z.of_nat (length (tree_tokens e)) - 1)
        = tree_value vmem e
        /\ forall s success,
            make_token s = Ret (LexOk (tree_tokens e)) ->
            expr regs vmem s success
            = (v <- tree_value vmem e ;; Ret (to_word v, success))).
Proof.
  intros regs vmem e. split; [apply make_token_tree |]. intros Hr.
  assert (H : cal_expr regs vmem (tree_tokens e) 0
                       (Z.of_nat (length (tree_tokens e)) - 1)
              = tree_value vmem e).
  { unfold cal_expr.
    pose proof (proj1 (tree_ok regs vmem e) Hr [] []
                  (S (Z.to_nat (Z.of_nat (length (tree_tokens e)) - 1 - 0 + 1)))
                  ltac:(lia)) as E.
    cbn [app length Z.of_nat] in E. rewrite app_nil_r in E.
    rewrite <- E. f_equal. }
  split; [exact H |]. intros s success Hlex. unfold expr. rewrite Hlex.
  cbn [bind]. now rewrite H.
Qed.

Lemma X18_nested_expression_value_witness :
  text (tree_tokens
          (Binary (Leaf (Literal "2")) BinMul
                  (Paren (Binary (Leaf (Literal "3")) BinAdd
                                 (Leaf (Signed OpNeg "4"))))))
  = "2 * ( 3 + - 4 ) "%string
  /\ expr no_register (fun _ _ => 0) "2 * ( 3 + - 4 ) " true
     = Ret (18446744073709551614, true).
Proof.
  split; [reflexivity |].
  destruct (X18_nested_expression_value
              no_register (fun _ _ => 0)
              (Binary (Leaf (Literal "2")) BinMul
                      (Paren (Binary (Leaf (Literal "3")) BinAdd
                                     (Leaf (Signed OpNeg "4"))))))
    as [Hlex Hval].
  assert (Hw : written (Binary (Leaf (Literal "2")) BinMul
                               (Paren (Binary (Leaf (Literal "3")) BinAdd
                                              (Leaf (Signed OpNeg "4"))))))
    by (simpl; repeat split; lia).
  assert (Hr : readable false
                        (Binary (Leaf (Literal "2")) BinMul
                                (Paren (Binary (Leaf (Literal "3")) BinAdd
                                               (Leaf (Signed OpNeg "4"))))))
    by (simpl; repeat split; discriminate).
  destruct (Hval Hr) as [_ Hexpr].
  exact (Hexpr _ true (Hlex Hw ltac:(simpl; lia))).
Defined.

(** X19: parentheses [cal_expr] does not read.  [cal_expr] removes the first
    and the last token of a range when they are an opening and a closing
    parenthesis, once, and does not look whether they are a pair.  So
    [expr] fails the assertion on the major operator for every expression
    in two pairs of parentheses, as [((1))], and the assertion in
    [find_major_operator] for every expression that starts with a part in
    parentheses and ends with another one, as [(1)+(2)], whatever stands in
    the parentheses and between them. *)
Theorem X19_parentheses_not_read :
  forall regs vmem s success,
    (forall e,
        make_token s = Ret (LexOk (tree_tokens (Paren (Paren e)))) ->
        expr regs vmem s success = Abort)
    /\ (forall l o r,
           opens l = true -> closes r = true ->
           make_token s = Ret (LexOk (tree_tokens (Binary l o r))) ->
           expr regs vmem s success = Abort).
Proof.
  intros regs vmem s success. split.
  - intros e Hlex. unfold expr. rewrite Hlex. cbn [bind]. unfold cal_expr.
    pose proof (cal_expr_fuel_double regs vmem e [] []
                  (Z.to_nat (Z.of_nat (length (tree_tokens (Paren (Paren e))))
                             - 1 - 0 + 1))) as E.
    cbn [app length Z.of_nat] in E. rewrite app_nil_r in E.
    cbn [Z.add] in E. now rewrite E.
  - intros l o r Ho Hc Hlex. unfold expr. rewrite Hlex. cbn [bind]. unfold cal_expr.
    pose proof (cal_expr_fuel_pair regs vmem l o r [] []
                  (Z.to_nat (Z.of_nat (length (tree_tokens (Binary l o r)))
                             - 1 - 0 + 1)) Ho Hc) as E.
    cbn [app length Z.of_nat] in E. rewrite app_nil_r in E.
    cbn [Z.add] in E. now rewrite E.
Qed.

Lemma X19_parentheses_not_read_witness :
  expr no_register (fun _ _ => 0) "((1))" true = Abort
  /\ expr no_register (fun _ _ => 0) "(1+2)*(3+4)" true = Abort.
Proof.
  split.
  - apply (proj1 (X19_parentheses_not_read no_register (fun _ _ => 0) "((1))" true)
                 (Leaf (Literal "1"))).
    reflexivity.
  - apply (proj2 (X19_parentheses_not_read no_register (fun _ _ => 0) "(1+2)*(3+4)" true)
                 (Paren (Binary (Leaf (Literal "1")) BinAdd (Leaf (Literal "2"))))
                 BinMul
                 (Paren (Binary (Leaf (Literal "3")) BinAdd (Leaf (Literal "4")))));
      reflexivity.
Defined.

(** * Properties of the watchpoint pool *)

Import Watchpoint.

(** ** Rings

    [seg N P a l b]: following [N] from [a] visits the nodes of [l] in order
    and then reaches [b], and [P] leads back node by node.  A ring with
    sentinel [h] and members [l] is a segment from [h] to [h]. *)

Fixpoint seg (N P : ptr -> ptr) (a : ptr) (l : list ptr) (b : ptr) : Prop :=
  match l with
  | [] => N a = b /\ P b = a
  | x :: l' => N a = x /\ P x = a /\ seg N P x l' b
  end.

Definition ring (st : state) (h : ptr) (l : list Z) : Prop :=
  seg (nxt st) (prv st) h (map pool l) h.

(** The indices of [wp_pool]. *)
Definition slot_ids : list Z := map Z.of_nat (seq 0 32).

(** The state of the pool when [act] lists the active ring from [head] on
    and [fr] the free ring from [free_] on: the two sentinels are the two
    dummies and carry the ids -1 and -2, slot [i] carries id [i], both rings
    are well linked, and the two lists together hold every slot once. *)
Record pool_inv (st : state) (act fr : list Z) : Prop := {
  inv_head : head st = dummy 0;
  inv_free : free_ st = dummy 1;
  inv_id_head : id_of st (dummy 0) = -1;
  inv_id_free : id_of st (dummy 1) = -2;
  inv_id_pool : forall i, 0 <= i < NR_WP -> id_of st (pool i) = i;
  inv_active : ring st (dummy 0) act;
  inv_freel : ring st (dummy 1) fr;
  inv_part : Permutation (act ++ fr) slot_ids
}.

(** Every slot is in exactly one of two well-linked rings. *)
Definition partitioned (st : state) : Prop :=
  exists act fr, pool_inv st act fr.

(** Pointwise update of a link function. *)
Definition fupd (f : ptr -> ptr) (p v : ptr) (q : ptr) : ptr :=
  if ptr_eqb q p then v else f q.

Lemma ptr_eqb_spec (p q : ptr) : reflect (p = q) (ptr_eqb p q).
Proof.
  destruct p as [| i | i], q as [| j | j]; simpl; try (constructor; congruence);
    destruct (Z.eqb_spec i j); constructor; congruence.
Qed.

Lemma fupd_eq (f : ptr -> ptr) (p v : ptr) : fupd f p v p = v.
Proof. unfold fupd. now destruct (ptr_eqb_spec p p). Qed.

Lemma fupd_ne (f : ptr -> ptr) (p v q : ptr) : q <> p -> fupd f p v q = f q.
Proof. unfold fupd. now destruct (ptr_eqb_spec q p). Qed.

Section Segments.

Variables N P : ptr -> ptr.

Lemma seg_app (a x b : ptr) (l1 l2 : list ptr) :
  seg N P a (l1 ++ x :: l2) b <-> seg N P a l1 x /\ seg N P x l2 b.
Proof.
  revert a. induction l1 as [| y l1 IH]; intros a; simpl.
  - tauto.
  - rewrite IH. tauto.
Qed.

Lemma seg_first (a b : ptr) (l : list ptr) : seg N P a l b -> N a = hd b l.
Proof. destruct l; simpl; tauto. Qed.

Lemma last_cons_default (x a : ptr) (l : list ptr) : last (x :: l) a = last l x.
Proof.
  revert x a. induction l as [| y l IH]; intros x a; [reflexivity |].
  change (last (x :: y :: l) a) with (last (y :: l) a).
  now rewrite (IH y a), (IH y x).
Qed.

Lemma last_in (l : list ptr) (a : ptr) : In (last l a) (a :: l).
Proof.
  revert a. induction l as [| x l IH]; intros a; [now left |].
  rewrite last_cons_default. right. apply IH.
Qed.

Lemma seg_last (a b : ptr) (l : list ptr) : seg N P a l b -> P b = last l a.
Proof.
  revert a. induction l as [| x l IH]; intros a; simpl seg.
  - simpl. tauto.
  - intros (_ & _ & H). rewrite (IH _ H). now rewrite last_cons_default.
Qed.

(** A segment only depends on [N] at its start and members and on [P] at its
    members and end. *)
Lemma seg_frame (N' P' : ptr -> ptr) (a b : ptr) (l : list ptr) :
  (forall q, In q (a :: l) -> N' q = N q) ->
  (forall q, In q (l ++ [b]) -> P' q = P q) ->
  seg N P a l b -> seg N' P' a l b.
Proof.
  revert a. induction l as [| x l IH]; intros a HN HP; simpl.
  - intros [H1 H2]. rewrite HN, HP by (simpl; auto). now split.
  - intros (H1 & H2 & H3). rewrite HN, HP by (simpl; auto).
    repeat split; auto. apply IH; auto.
    + intros q Hq. apply HN. now right.
    + intros q Hq. apply HP. now right.
Qed.

End Segments.

Section RingSurgery.

Variables N P : ptr -> ptr.

Lemma hd_in (b : ptr) (l : list ptr) : In (hd b l) (l ++ [b]).
Proof. destruct l; simpl; auto. Qed.

(** Taking [x] out: the predecessor of [x] and its successor are linked to
    each other. *)
Lemma seg_join (l1 l2 : list ptr) (x b : ptr) :
  forall a,
    NoDup (a :: l1 ++ l2) ->
    ~ In b l1 ->
    NoDup (l2 ++ [b]) ->
    seg N P a l1 x ->
    seg N P x l2 b ->
    seg (fupd N (last l1 a) (hd b l2)) (fupd P (hd b l2) (last l1 a))
        a (l1 ++ l2) b.
Proof.
  induction l1 as [| y l1 IH]; intros a Hnd Hb Hnd2 H1 H2.
  - simpl last. simpl app. destruct l2 as [| n l2]; simpl hd.
    + simpl. now rewrite !fupd_eq.
    + destruct H2 as (_ & _ & H2). simpl. rewrite !fupd_eq.
      repeat split.
      apply NoDup_cons_iff in Hnd as [Hna _].
      simpl in Hnd2. apply NoDup_cons_iff in Hnd2 as [Hnn _].
      apply (seg_frame N P); auto.
      * intros q Hq. apply fupd_ne. intros ->. now apply Hna.
      * intros q Hq. apply fupd_ne. intros ->. now apply Hnn.
  - destruct H1 as (Ha & Hy & H1).
    rewrite last_cons_default. simpl app. simpl seg.
    assert (Hlast : In (last l1 y) (y :: l1)) by apply last_in.
    assert (Hhd : In (hd b l2) (l2 ++ [b])) by apply hd_in.
    simpl in Hnd. apply NoDup_cons_iff in Hnd as [Hna Hnd'].
    rewrite fupd_ne.
    2:{ intros E. apply Hna. rewrite E.
        destruct Hlast as [<- | Hl]; [now left | right; apply in_or_app; now left]. }
    rewrite fupd_ne.
    2:{ intros E. rewrite <- E in Hhd. apply in_app_or in Hhd.
        destruct Hhd as [Hin | [<- | []]].
        - apply NoDup_cons_iff in Hnd' as [Hny _]. apply Hny.
          apply in_or_app. now right.
        - apply Hb. now left. }
    repeat split; auto.
    apply IH; auto. intros Hin. apply Hb. now right.
Qed.

(** Putting [x] in right after the sentinel [h]. *)
Lemma seg_push (h x : ptr) (l : list ptr) :
  NoDup (h :: x :: l) ->
  seg N P h l h ->
  seg (fupd (fupd N x (N h)) h x) (fupd (fupd P (N h) x) x h) h (x :: l) h.
Proof.
  intros Hnd H.
  apply NoDup_cons_iff in Hnd as [Hh Hnd1].
  apply NoDup_cons_iff in Hnd1 as [Hx Hnd2].
  assert (Hxh : x <> h) by (intros ->; apply Hh; now left).
  simpl seg. rewrite fupd_eq, fupd_eq. repeat split.
  destruct l as [| a l]; simpl in H |- *.
  - destruct H as [H1 H2]. rewrite H1.
    rewrite (fupd_ne _ h x x Hxh), fupd_eq.
    rewrite (fupd_ne _ x h h (not_eq_sym Hxh)), fupd_eq. now split.
  - destruct H as (H1 & H2 & H3). rewrite H1.
    assert (Hah : a <> h) by (intros ->; apply Hh; right; now left).
    assert (Hax : a <> x) by (intros ->; apply Hx; now left).
    apply NoDup_cons_iff in Hnd2 as [Ha _].
    rewrite (fupd_ne _ h x x Hxh), fupd_eq.
    rewrite (fupd_ne _ x h a Hax), fupd_eq. repeat split.
    apply (seg_frame N P); auto.
    + intros q Hq. rewrite !fupd_ne; auto.
      * intros ->. apply Hx. now right.
      * intros ->. apply Hh. now right.
    + intros q Hq. rewrite !fupd_ne; auto.
      * intros ->. apply in_app_or in Hq.
        destruct Hq as [Hq | [E | []]]; [now apply Ha | now apply Hah].
      * intros ->. apply in_app_or in Hq.
        destruct Hq as [Hq | [E | []]]; [apply Hx; now right | now apply Hxh].
Qed.

End RingSurgery.

(** ** The store under the field assignments *)

Lemma nxt_set_next st p v q : nxt (set_next st p v) q = fupd (nxt st) p v q.
Proof. unfold nxt, fupd, set_next, update. simpl. now destruct (ptr_eqb q p). Qed.

Lemma prv_set_prev st p v q : prv (set_prev st p v) q = fupd (prv st) p v q.
Proof. unfold prv, fupd, set_prev, update. simpl. now destruct (ptr_eqb q p). Qed.

Lemma nxt_set_prev st p v q : nxt (set_prev st p v) q = nxt st q.
Proof. unfold nxt, set_prev, update. simpl. now destruct (ptr_eqb q p). Qed.

Lemma prv_set_next st p v q : prv (set_next st p v) q = prv st q.
Proof. unfold prv, set_next, update. simpl. now destruct (ptr_eqb q p). Qed.

Lemma nxt_set_counter st p v q : nxt (set_counter st p v) q = nxt st q.
Proof. unfold nxt, set_counter, update. simpl. now destruct (ptr_eqb q p). Qed.

Lemma prv_set_counter st p v q : prv (set_counter st p v) q = prv st q.
Proof. unfold prv, set_counter, update. simpl. now destruct (ptr_eqb q p). Qed.

Lemma nxt_set_expr st p v q : nxt (set_expr st p v) q = nxt st q.
Proof. unfold nxt, set_expr, update. simpl. now destruct (ptr_eqb q p). Qed.

Lemma prv_set_expr st p v q : prv (set_expr st p v) q = prv st q.
Proof. unfold prv, set_expr, update. simpl. now destruct (ptr_eqb q p). Qed.

Lemma nxt_set_last_val st p v q : nxt (set_last_val st p v) q = nxt st q.
Proof. unfold nxt, set_last_val, update. simpl. now destruct (ptr_eqb q p). Qed.

Lemma prv_set_last_val st p v q : prv (set_last_val st p v) q = prv st q.
Proof. unfold prv, set_last_val, update. simpl. now destruct (ptr_eqb q p). Qed.

Lemma id_set_next st p v q : id_of (set_next st p v) q = id_of st q.
Proof. unfold id_of, set_next, update. simpl. now destruct (ptr_eqb q p). Qed.

Lemma id_set_prev st p v q : id_of (set_prev st p v) q = id_of st q.
Proof. unfold id_of, set_prev, update. simpl. now destruct (ptr_eqb q p). Qed.

Lemma id_set_counter st p v q : id_of (set_counter st p v) q = id_of st q.
Proof. unfold id_of, set_counter, update. simpl. now destruct (ptr_eqb q p). Qed.

Lemma id_set_expr st p v q : id_of (set_expr st p v) q = id_of st q.
Proof. unfold id_of, set_expr, update. simpl. now destruct (ptr_eqb q p). Qed.

Lemma id_set_last_val st p v q : id_of (set_last_val st p v) q = id_of st q.
Proof. unfold id_of, set_last_val, update. simpl. now destruct (ptr_eqb q p). Qed.

Create Rewrite HintDb store.

#[local] Hint Rewrite nxt_set_next prv_set_prev nxt_set_prev prv_set_next
  nxt_set_counter prv_set_counter nxt_set_expr prv_set_expr
  nxt_set_last_val prv_set_last_val
  id_set_next id_set_prev id_set_counter id_set_expr id_set_last_val : store.

(** The data fields: what the list operations leave alone. *)
Definition counter_of (st : state) (p : ptr) : Z := counter (mem st p).
Definition expr_of (st : state) (p : ptr) : string := expr (mem st p).
Definition last_val_of (st : state) (p : ptr) : Z := last_val (mem st p).

Lemma counter_set_next st p v q : counter_of (set_next st p v) q = counter_of st q.
Proof. unfold counter_of, set_next, update. simpl. now destruct (ptr_eqb q p). Qed.
Lemma counter_set_prev st p v q : counter_of (set_prev st p v) q = counter_of st q.
Proof. unfold counter_of, set_prev, update. simpl. now destruct (ptr_eqb q p). Qed.
Lemma counter_set_expr st p v q : counter_of (set_expr st p v) q = counter_of st q.
Proof. unfold counter_of, set_expr, update. simpl. now destruct (ptr_eqb q p). Qed.
Lemma counter_set_last_val st p v q :
  counter_of (set_last_val st p v) q = counter_of st q.
Proof. unfold counter_of, set_last_val, update. simpl. now destruct (ptr_eqb q p). Qed.
Lemma counter_set_counter st p v q :
  counter_of (set_counter st p v) q = if ptr_eqb q p then v else counter_of st q.
Proof. unfold counter_of, set_counter, update. simpl. now destruct (ptr_eqb q p). Qed.

Lemma expr_set_next st p v q : expr_of (set_next st p v) q = expr_of st q.
Proof. unfold expr_of, set_next, update. simpl. now destruct (ptr_eqb q p). Qed.
Lemma expr_set_prev st p v q : expr_of (set_prev st p v) q = expr_of st q.
Proof. unfold expr_of, set_prev, update. simpl. now destruct (ptr_eqb q p). Qed.
Lemma expr_set_counter st p v q : expr_of (set_counter st p v) q = expr_of st q.
Proof. unfold expr_of, set_counter, update. simpl. now destruct (ptr_eqb q p). Qed.
Lemma expr_set_last_val st p v q : expr_of (set_last_val st p v) q = expr_of st q.
Proof. unfold expr_of, set_last_val, update. simpl. now destruct (ptr_eqb q p). Qed.
Lemma expr_set_expr st p v q :
  expr_of (set_expr st p v) q = if ptr_eqb q p then v else expr_of st q.
Proof. unfold expr_of, set_expr, update. simpl. now destruct (ptr_eqb q p). Qed.

Lemma last_val_set_next st p v q : last_val_of (set_next st p v) q = last_val_of st q.
Proof. unfold last_val_of, set_next, update. simpl. now destruct (ptr_eqb q p). Qed.
Lemma last_val_set_prev st p v q : last_val_of (set_prev st p v) q = last_val_of st q.
Proof. unfold last_val_of, set_prev, update. simpl. now destruct (ptr_eqb q p). Qed.
Lemma last_val_set_counter st p v q :
  last_val_of (set_counter st p v) q = last_val_of st q.
Proof. unfold last_val_of, set_counter, update. simpl. now destruct (ptr_eqb q p). Qed.
Lemma last_val_set_expr st p v q : last_val_of (set_expr st p v) q = last_val_of st q.
Proof. unfold last_val_of, set_expr, update. simpl. now destruct (ptr_eqb q p). Qed.
Lemma last_val_set_last_val st p v q :
  last_val_of (set_last_val st p v) q = if ptr_eqb q p then v else last_val_of st q.
Proof. unfold last_val_of, set_last_val, update. simpl. now destruct (ptr_eqb q p). Qed.

#[local] Hint Rewrite counter_set_next counter_set_prev counter_set_expr
  counter_set_last_val counter_set_counter
  expr_set_next expr_set_prev expr_set_counter expr_set_last_val expr_set_expr
  last_val_set_next last_val_set_prev last_val_set_counter last_val_set_expr
  last_val_set_last_val : store.

(** ** Distinct nodes *)

Lemma slot_ids_range (i : Z) : In i slot_ids <-> 0 <= i < NR_WP.
Proof.
  unfold slot_ids, NR_WP. rewrite in_map_iff. split.
  - intros (n & <- & Hn). apply in_seq in Hn. lia.
  - intros Hi. exists (Z.to_nat i). split; [lia |]. apply in_seq. lia.
Qed.

Lemma NoDup_map_injective {A B : Type} (f : A -> B) (l : list A) :
  (forall a b, f a = f b -> a = b) -> NoDup l -> NoDup (map f l).
Proof.
  intros Hf. induction 1 as [| a l Ha Hl IH]; simpl; constructor; auto.
  rewrite in_map_iff. intros (b & E & Hb). apply Hf in E. now subst.
Qed.

Lemma NoDup_app_disjoint {A : Type} (l1 l2 : list A) (a : A) :
  NoDup (l1 ++ l2) -> In a l1 -> In a l2 -> False.
Proof.
  induction l1 as [| x l1 IH]; simpl; [tauto |].
  intros H [-> | H1] H2; apply NoDup_cons_iff in H as [Hx H].
  - apply Hx, in_or_app. now right.
  - now apply IH.
Qed.

Lemma slot_ids_NoDup : NoDup slot_ids.
Proof.
  unfold slot_ids. apply NoDup_map_injective.
  - intros a b. apply Nat2Z.inj.
  - apply seq_NoDup.
Qed.

Lemma pool_NoDup (l : list Z) : NoDup l -> NoDup (map pool l).
Proof.
  apply NoDup_map_injective. intros a b H. now inversion H.
Qed.

Lemma in_map_pool (l : list Z) (i : Z) : In (pool i) (map pool l) <-> In i l.
Proof.
  rewrite in_map_iff. split.
  - intros (j & E & Hj). now inversion E; subst.
  - intros H. now exists i.
Qed.

Lemma dummy_not_pool (l : list Z) (k : Z) : ~ In (dummy k) (map pool l).
Proof. rewrite in_map_iff. intros (j & E & _). discriminate. Qed.

Section Distinct.

Variables (st : state) (act fr : list Z).
Hypothesis Hinv : pool_inv st act fr.

Lemma inv_NoDup : NoDup (act ++ fr).
Proof.
  apply (Permutation_NoDup (l := slot_ids)).
  - apply Permutation_sym, (inv_part _ _ _ Hinv).
  - apply slot_ids_NoDup.
Qed.

Lemma inv_range (i : Z) : In i (act ++ fr) <-> 0 <= i < NR_WP.
Proof.
  rewrite <- slot_ids_range. split; apply Permutation_in.
  - apply (inv_part _ _ _ Hinv).
  - apply Permutation_sym, (inv_part _ _ _ Hinv).
Qed.

Lemma inv_NoDup_act : NoDup act.
Proof. exact (NoDup_app_remove_r _ _ inv_NoDup). Qed.

Lemma inv_NoDup_fr : NoDup fr.
Proof. exact (NoDup_app_remove_l _ _ inv_NoDup). Qed.

Lemma inv_disjoint (i : Z) : In i act -> In i fr -> False.
Proof. exact (NoDup_app_disjoint _ _ i inv_NoDup). Qed.

End Distinct.

Lemma head_set_next st p v : head (set_next st p v) = head st.
Proof. reflexivity. Qed.
Lemma head_set_prev st p v : head (set_prev st p v) = head st.
Proof. reflexivity. Qed.
Lemma head_set_counter st p v : head (set_counter st p v) = head st.
Proof. reflexivity. Qed.
Lemma head_set_expr st p v : head (set_expr st p v) = head st.
Proof. reflexivity. Qed.
Lemma head_set_last_val st p v : head (set_last_val st p v) = head st.
Proof. reflexivity. Qed.
Lemma free_set_next st p v : free_ (set_next st p v) = free_ st.
Proof. reflexivity. Qed.
Lemma free_set_prev st p v : free_ (set_prev st p v) = free_ st.
Proof. reflexivity. Qed.
Lemma free_set_counter st p v : free_ (set_counter st p v) = free_ st.
Proof. reflexivity. Qed.
Lemma free_set_expr st p v : free_ (set_expr st p v) = free_ st.
Proof. reflexivity. Qed.
Lemma free_set_last_val st p v : free_ (set_last_val st p v) = free_ st.
Proof. reflexivity. Qed.

#[local] Hint Rewrite head_set_next head_set_prev head_set_counter head_set_expr
  head_set_last_val free_set_next free_set_prev free_set_counter free_set_expr
  free_set_last_val : store.

Lemma fupd_ext (f g : ptr -> ptr) (p v q : ptr) :
  (forall r, f r = g r) -> fupd f p v q = fupd g p v q.
Proof. intros H. unfold fupd. now rewrite H. Qed.

(** Normalises the links of a state built from field assignments. *)
Ltac links := repeat (autorewrite with store; try (apply fupd_ext; intro)).

(** The nodes of a ring: its sentinel, or a slot of its list. *)
Lemma in_ring_front (q h : ptr) (l : list Z) :
  In q (h :: map pool l) -> q = h \/ exists i, q = pool i /\ In i l.
Proof.
  intros [<- | H]; [now left | right].
  apply in_map_iff in H. destruct H as (i & <- & Hi). now exists i.
Qed.

Lemma in_ring_back (q h : ptr) (l : list Z) :
  In q (map pool l ++ [h]) -> q = h \/ exists i, q = pool i /\ In i l.
Proof.
  intros H. apply in_app_or in H. destruct H as [H | [<- | []]]; [right | now left].
  apply in_map_iff in H. destruct H as (i & <- & Hi). now exists i.
Qed.

Lemma hd_ring (h : ptr) (l : list Z) :
  hd h (map pool l) = h \/ exists i, hd h (map pool l) = pool i /\ In i l.
Proof. destruct l as [| i l]; [now left | right]. exists i. split; [reflexivity | now left]. Qed.

Lemma last_ring (h : ptr) (l : list Z) :
  last (map pool l) h = h \/ exists i, last (map pool l) h = pool i /\ In i l.
Proof.
  destruct (last_in (map pool l) h) as [E | H]; [now left | right].
  apply in_map_iff in H. destruct H as (i & E & Hi). now exists i.
Qed.

(** A ring is untouched by changes of the links outside its nodes. *)
Lemma ring_frame (N P N' P' : ptr -> ptr) (h : ptr) (l : list Z) :
  (forall q, q = h \/ (exists i, q = pool i /\ In i l) ->
             N' q = N q /\ P' q = P q) ->
  seg N P h (map pool l) h -> seg N' P' h (map pool l) h.
Proof.
  intros H. apply seg_frame.
  - intros q Hq. apply H. now apply in_ring_front.
  - intros q Hq. apply H. now apply in_ring_back.
Qed.

Section TwoRings.

Variables N P : ptr -> ptr.
Variables a b : Z.                  (* the two sentinels are dummy a and dummy b *)
Hypothesis Hab : a <> b.

(** Slot [x] leaves the ring of [dummy a]; the ring of [dummy b] stays. *)
Lemma unlink_rings (l1 l2 l' : list Z) (x : Z) :
  NoDup ((l1 ++ x :: l2) ++ l') ->
  seg N P (dummy a) (map pool (l1 ++ x :: l2)) (dummy a) ->
  seg N P (dummy b) (map pool l') (dummy b) ->
  let N1 := fupd N (P (pool x)) (N (pool x)) in
  let P2 := fupd P (N1 (pool x)) (P (pool x)) in
  seg N1 P2 (dummy a) (map pool (l1 ++ l2)) (dummy a)
  /\ seg N1 P2 (dummy b) (map pool l') (dummy b).
Proof.
  intros Hnd Hr Hr' N1 P2.
  pose proof (NoDup_app_remove_r _ _ Hnd) as Hnd1.
  pose proof (NoDup_remove_1 _ _ _ Hnd1) as Hnd12.
  pose proof (NoDup_remove_2 _ _ _ Hnd1) as Hx12.
  assert (Hdis : forall i, In i (l1 ++ x :: l2) -> In i l' -> False)
    by (intros i; apply (NoDup_app_disjoint _ _ i Hnd)).
  rewrite map_app in Hr. simpl in Hr. apply seg_app in Hr. destruct Hr as [H1 H2].
  assert (HP : P (pool x) = last (map pool l1) (dummy a)) by apply (seg_last _ _ _ _ _ H1).
  assert (HNx : N (pool x) = hd (dummy a) (map pool l2)) by apply (seg_first _ _ _ _ _ H2).
  assert (HP' : P (pool x) = dummy a \/ exists i, P (pool x) = pool i /\ In i l1)
    by (rewrite HP; apply last_ring).
  assert (HN' : N (pool x) = dummy a \/ exists i, N (pool x) = pool i /\ In i l2)
    by (rewrite HNx; apply hd_ring).
  assert (HN1x : N1 (pool x) = N (pool x)).
  { unfold N1. apply fupd_ne. destruct HP' as [-> | (i & -> & Hi)]; [discriminate |].
    intros E. inversion E; subst. apply Hx12. apply in_or_app. now left. }
  split.
  - apply (seg_frame (fupd N (last (map pool l1) (dummy a)) (hd (dummy a) (map pool l2)))
                     (fupd P (hd (dummy a) (map pool l2)) (last (map pool l1) (dummy a)))).
    + intros q _. unfold N1. now rewrite HP, HNx.
    + intros q _. unfold P2. now rewrite HN1x, HP, HNx.
    + rewrite map_app. apply (seg_join N P _ _ (pool x)); auto.
      * rewrite <- map_app. constructor; [apply dummy_not_pool | now apply pool_NoDup].
      * apply dummy_not_pool.
      * apply NoDup_app.
        -- apply pool_NoDup. exact (NoDup_app_remove_l _ _ Hnd12).
        -- repeat constructor. tauto.
        -- intros q Hq [<- | []]. now apply dummy_not_pool in Hq.
  - revert Hr'. apply ring_frame. intros q Hq. unfold N1, P2. rewrite HN1x.
    split; apply fupd_ne.
    + destruct Hq as [-> | (i & -> & Hi)], HP' as [-> | (j & -> & Hj)];
        try discriminate.
      * intros E. inversion E. now apply Hab.
      * intros E. inversion E; subst. apply (Hdis j); auto.
        apply in_or_app. now left.
    + destruct Hq as [-> | (i & -> & Hi)], HN' as [-> | (j & -> & Hj)];
        try discriminate.
      * intros E. inversion E. now apply Hab.
      * intros E. inversion E; subst. apply (Hdis j); auto.
        apply in_or_app. right. now right.
Qed.

(** Slot [x], in neither ring, enters the ring of [dummy a] at the front;
    the ring of [dummy b] stays. *)
Lemma push_rings (l l' : list Z) (x : Z) :
  NoDup (x :: l ++ l') ->
  seg N P (dummy a) (map pool l) (dummy a) ->
  seg N P (dummy b) (map pool l') (dummy b) ->
  let N' := fupd (fupd N (pool x) (N (dummy a))) (dummy a) (pool x) in
  let P' := fupd (fupd P (N (dummy a)) (pool x)) (pool x) (dummy a) in
  seg N' P' (dummy a) (map pool (x :: l)) (dummy a)
  /\ seg N' P' (dummy b) (map pool l') (dummy b).
Proof.
  intros Hnd Hr Hr' N' P'.
  apply NoDup_cons_iff in Hnd as [Hx Hnd].
  assert (Hdis : forall i, In i l -> In i l' -> False)
    by (intros i; apply (NoDup_app_disjoint _ _ i Hnd)).
  assert (HNa : N (dummy a) = dummy a \/ exists i, N (dummy a) = pool i /\ In i l)
    by (rewrite (seg_first _ _ _ _ _ Hr); apply hd_ring).
  split.
  - simpl map. apply seg_push; [| exact Hr].
    constructor; [| constructor].
    + intros [E | H]; [discriminate | now apply dummy_not_pool in H].
    + rewrite in_map_pool. intros H. apply Hx, in_or_app. now left.
    + apply pool_NoDup. exact (NoDup_app_remove_r _ _ Hnd).
  - revert Hr'. apply ring_frame. intros q Hq. unfold N', P'.
    assert (Hqx : q <> pool x).
    { destruct Hq as [-> | (i & -> & Hi)]; [discriminate |].
      intros E. inversion E; subst. apply Hx, in_or_app. now right. }
    assert (Hqa : q <> dummy a).
    { destruct Hq as [-> | (i & -> & Hi)]; [| discriminate].
      intros E. inversion E. now apply Hab. }
    rewrite !(fupd_ne _ (dummy a)), !(fupd_ne _ (pool x)) by assumption.
    split; [reflexivity |]. apply fupd_ne.
    destruct Hq as [-> | (i & -> & Hi)], HNa as [-> | (j & -> & Hj)];
      try discriminate; try assumption.
    intros E. inversion E; subst. now apply (Hdis j).
Qed.

End TwoRings.

(** What [new_wp] does when the free ring starts with slot [x]. *)
Lemma new_wp_spec (st : state) (act fr : list Z) (x : Z) :
  pool_inv st act (x :: fr) ->
  exists st',
    new_wp st = Ret (st', pool x)
    /\ pool_inv st' (x :: act) fr
    /\ counter_of st' (pool x) = 0
    /\ (forall q, q <> pool x -> counter_of st' q = counter_of st q)
    /\ (forall q, expr_of st' q = expr_of st q)
    /\ (forall q, last_val_of st' q = last_val_of st q).
Proof.
  intros Hinv.
  pose proof (inv_NoDup _ _ _ Hinv) as Hnd.
  pose proof (inv_NoDup_act _ _ _ Hinv) as Hnda.
  pose proof (inv_NoDup_fr _ _ _ Hinv) as Hndf.
  pose proof (inv_disjoint _ _ _ Hinv) as Hdis.
  apply NoDup_cons_iff in Hndf as [Hxfr Hndf].
  assert (Hxact : ~ In x act) by (intros H; apply (Hdis x H); now left).
  assert (Hx : 0 <= x < NR_WP)
    by (apply (inv_range _ _ _ Hinv), in_or_app; right; now left).
  destruct Hinv as [Hh Hf Hidh Hidf Hidp Hact Hfr Hperm].
  unfold ring in Hact, Hfr. simpl in Hfr. destruct Hfr as (Hn1 & Hp1 & Hseg).
  unfold new_wp. cbv zeta. autorewrite with store. rewrite Hf, Hh, Hn1, (Hidp x Hx).
  destruct (x =? -2) eqn:E; [unfold NR_WP in Hx; lia |]. clear E.
  eexists. split; [reflexivity |].
  set (N := nxt st) in *. set (P := prv st) in *.
  set (N1 := fupd N (dummy 1) (N (pool x))).
  set (P1 := fupd P (N1 (dummy 1)) (dummy 1)).
  match goal with |- pool_inv ?S _ _ /\ _ => set (st' := S) end.
  assert (HN : forall q, nxt st' q =
                         fupd (fupd N1 (pool x) (N1 (dummy 0))) (dummy 0) (pool x) q).
  { intros q. unfold st'. links. reflexivity. }
  assert (HP : forall q, prv st' q =
                         fupd (fupd P1 (N1 (dummy 0)) (pool x)) (pool x) (dummy 0) q).
  { intros q. unfold st'. links. reflexivity. }
  assert (Hfn : N (pool x) = hd (dummy 1) (map pool fr)) by apply (seg_first _ _ _ _ _ Hseg).
  assert (Ha1 : N (dummy 0) = hd (dummy 0) (map pool act))
    by apply (seg_first _ _ _ _ _ Hact).
  assert (HN11 : N1 (dummy 1) = N (pool x)) by (unfold N1; apply fupd_eq).
  assert (HN10 : N1 (dummy 0) = N (dummy 0))
    by (unfold N1; apply fupd_ne; discriminate).
  assert (Hfn' : N (pool x) = dummy 1 \/ exists i, N (pool x) = pool i /\ In i fr)
    by (rewrite Hfn; apply hd_ring).
  assert (Ha1' : N (dummy 0) = dummy 0 \/ exists i, N (dummy 0) = pool i /\ In i act)
    by (rewrite Ha1; apply hd_ring).
  (* the active ring before the insertion, in the links after the removal *)
  assert (Hact1 : seg N1 P1 (dummy 0) (map pool act) (dummy 0)).
  { revert Hact. apply seg_frame.
    - intros q Hq. unfold N1. apply fupd_ne.
      apply in_ring_front in Hq. destruct Hq as [-> | (i & -> & _)]; discriminate.
    - intros q Hq. unfold P1. apply fupd_ne. rewrite HN11.
      apply in_ring_back in Hq.
      destruct Hq as [-> | (i & -> & Hi)], Hfn' as [-> | (j & -> & Hj)];
        try discriminate.
      intros E. inversion E; subst. apply (Hdis j Hi). now right. }
  (* the free ring after the removal *)
  assert (Hfr1 : seg N1 P1 (dummy 1) (map pool fr) (dummy 1)).
  { pose proof (seg_join N P [] (map pool fr) (pool x) (dummy 1) (dummy 1)) as H.
    simpl in H. rewrite <- Hfn in H.
    apply (seg_frame (fupd N (dummy 1) (N (pool x)))
                     (fupd P (N (pool x)) (dummy 1)));
      [ reflexivity | intros q _; unfold P1; now rewrite HN11 | ].
    apply H.
    - constructor; [apply dummy_not_pool | now apply pool_NoDup].
    - tauto.
    - apply NoDup_app; [now apply pool_NoDup | repeat constructor; tauto |].
      intros a Ha [<- | []]. now apply dummy_not_pool in Ha.
    - now split.
    - exact Hseg. }
  split; [constructor |].
  - exact Hh.
  - exact Hf.
  - unfold st'. autorewrite with store. exact Hidh.
  - unfold st'. autorewrite with store. exact Hidf.
  - intros i Hi. unfold st'. autorewrite with store. now apply Hidp.
  - unfold ring.
    apply (seg_frame (fupd (fupd N1 (pool x) (N1 (dummy 0))) (dummy 0) (pool x))
                     (fupd (fupd P1 (N1 (dummy 0)) (pool x)) (pool x) (dummy 0)));
      [ intros q _; apply HN | intros q _; apply HP | ].
    apply (seg_push N1 P1 (dummy 0) (pool x) (map pool act)); [| exact Hact1].
    constructor; [| constructor].
    + intros [E | H]; [discriminate | now apply dummy_not_pool in H].
    + now rewrite in_map_pool.
    + now apply pool_NoDup.
  - unfold ring. revert Hfr1. apply ring_frame.
    intros q Hq. rewrite HN, HP.
    assert (Hqx : q <> pool x)
      by (destruct Hq as [-> | (i & -> & Hi)]; [discriminate |];
          intros E; inversion E; now subst).
    assert (Hq0 : q <> dummy 0)
      by (destruct Hq as [-> | (i & -> & Hi)]; discriminate).
    rewrite !(fupd_ne _ (dummy 0)), !(fupd_ne _ (pool x)) by assumption.
    split; [reflexivity |]. apply fupd_ne. rewrite HN10.
    destruct Hq as [-> | (i & -> & Hi)], Ha1' as [-> | (j & -> & Hj)];
      try discriminate.
    intros E. inversion E; subst. apply (Hdis j Hj). now right.
  - simpl. apply Permutation_sym. eapply Permutation_trans.
    + apply Permutation_sym, Hperm.
    + apply Permutation_sym, Permutation_middle.
  - split; [| split; [| split]].
    + unfold st'. autorewrite with store.
      now destruct (ptr_eqb_spec (pool x) (pool x)).
    + intros q Hq. unfold st'. autorewrite with store.
      now destruct (ptr_eqb_spec q (pool x)).
    + intros q. unfold st'. now autorewrite with store.
    + intros q. unfold st'. now autorewrite with store.
Qed.

Lemma new_wp_exhausted (st : state) (act : list Z) :
  pool_inv st act [] -> new_wp st = Abort.
Proof.
  intros [Hh Hf Hidh Hidf Hidp Hact Hfr Hperm].
  unfold ring in Hfr. simpl in Hfr. destruct Hfr as [Hn _].
  unfold new_wp. now rewrite Hf, Hn, Hidf.
Qed.

Lemma remove_middle (n : Z) (l1 l2 : list Z) :
  NoDup (l1 ++ n :: l2) -> remove Z.eq_dec n (l1 ++ n :: l2) = l1 ++ l2.
Proof.
  intros Hnd. pose proof (NoDup_remove_2 _ _ _ Hnd) as Hn.
  rewrite remove_app, remove_cons.
  rewrite !notin_remove; auto; intros H; apply Hn, in_or_app; auto.
Qed.

(** What [free_wp] does for an index in range, wherever the slot is. *)
Lemma free_wp_spec (st : state) (act fr : list Z) (n : Z) :
  pool_inv st act fr ->
  0 <= n < NR_WP ->
  snd (free_wp st n) = 0
  /\ pool_inv (fst (free_wp st n))
              (remove Z.eq_dec n act) (n :: remove Z.eq_dec n fr)
  /\ (forall q, counter_of (fst (free_wp st n)) q = counter_of st q)
  /\ (forall q, expr_of (fst (free_wp st n)) q = expr_of st q)
  /\ (forall q, last_val_of (fst (free_wp st n)) q = last_val_of st q).
Proof.
  intros Hinv Hn.
  pose proof (inv_NoDup _ _ _ Hinv) as Hnd.
  pose proof (inv_disjoint _ _ _ Hinv) as Hdis.
  assert (Hin : In n (act ++ fr)) by now apply (inv_range _ _ _ Hinv).
  destruct Hinv as [Hh Hf Hidh Hidf Hidp Hact Hfr Hperm].
  unfold free_wp.
  replace ((n <? 0) || (n >=? NR_WP)) with false
    by (unfold NR_WP in *; symmetry; apply orb_false_iff; split; lia).
  cbv zeta. autorewrite with store. rewrite Hf. cbn [fst snd].
  split; [reflexivity |].
  set (N := nxt st) in *. set (P := prv st) in *.
  set (N1 := fupd N (P (pool n)) (N (pool n))).
  set (P2 := fupd P (N1 (pool n)) (P (pool n))).
  match goal with |- pool_inv ?S _ _ /\ _ => set (st' := S) end.
  assert (HN : forall q, nxt st' q =
                         fupd (fupd N1 (pool n) (N1 (dummy 1))) (dummy 1) (pool n) q).
  { intros q. unfold st'. links. reflexivity. }
  assert (HP : forall q, prv st' q =
                         fupd (fupd P2 (N1 (dummy 1)) (pool n)) (pool n) (dummy 1) q).
  { intros q. unfold st'. links. reflexivity. }
  assert (Hrings :
            ring st' (dummy 0) (remove Z.eq_dec n act)
            /\ ring st' (dummy 1) (n :: remove Z.eq_dec n fr)
            /\ Permutation (remove Z.eq_dec n act ++ n :: remove Z.eq_dec n fr)
                           (act ++ fr)).
  { unfold ring in *. apply in_app_or in Hin. destruct Hin as [Hin | Hin];
      apply in_split in Hin; destruct Hin as (l1 & l2 & ->).
    - (* the slot is active *)
      assert (Hnfr : ~ In n fr)
        by (intros H; apply (Hdis n); auto; apply in_or_app; right; now left).
      rewrite (remove_middle n l1 l2 (NoDup_app_remove_r _ _ Hnd)).
      rewrite (notin_remove Z.eq_dec _ _ Hnfr).
      destruct (unlink_rings N P 0 1 ltac:(lia) l1 l2 fr n Hnd Hact Hfr) as [Ha Hb].
      fold N1 in Ha, Hb. fold P2 in Ha, Hb.
      assert (Hnd' : NoDup (n :: fr ++ l1 ++ l2)).
      { apply (Permutation_NoDup (l := (l1 ++ n :: l2) ++ fr)); [| exact Hnd].
        rewrite <- app_assoc. simpl. eapply Permutation_trans.
        - apply Permutation_sym, Permutation_middle.
        - constructor. rewrite app_assoc. apply Permutation_app_comm. }
      destruct (push_rings N1 P2 1 0 ltac:(lia) fr (l1 ++ l2) n Hnd' Hb Ha) as [Hb' Ha'].
      split; [| split].
      + revert Ha'. apply seg_frame; intros q _; [apply HN | apply HP].
      + revert Hb'. apply seg_frame; intros q _; [apply HN | apply HP].
      + rewrite <- !app_assoc. simpl. apply Permutation_app_head.
        eapply Permutation_trans; [apply Permutation_sym, Permutation_middle |].
        constructor. apply Permutation_refl.
    - (* the slot is free already *)
      assert (Hnact : ~ In n act)
        by (intros H; apply (Hdis n); auto; apply in_or_app; right; now left).
      rewrite (remove_middle n l1 l2 (NoDup_app_remove_l _ _ Hnd)).
      rewrite (notin_remove Z.eq_dec _ _ Hnact).
      assert (Hnd1 : NoDup ((l1 ++ n :: l2) ++ act))
        by (apply (Permutation_NoDup (l := act ++ l1 ++ n :: l2));
            [apply Permutation_app_comm | exact Hnd]).
      destruct (unlink_rings N P 1 0 ltac:(lia) l1 l2 act n Hnd1 Hfr Hact) as [Hb Ha].
      fold N1 in Ha, Hb. fold P2 in Ha, Hb.
      assert (Hnd' : NoDup (n :: (l1 ++ l2) ++ act)).
      { apply (Permutation_NoDup (l := (l1 ++ n :: l2) ++ act)); [| exact Hnd1].
        rewrite <- !app_assoc. simpl.
        apply Permutation_sym, Permutation_middle. }
      destruct (push_rings N1 P2 1 0 ltac:(lia) (l1 ++ l2) act n Hnd' Hb Ha)
        as [Hb' Ha'].
      split; [| split].
      + revert Ha'. apply seg_frame; intros q _; [apply HN | apply HP].
      + revert Hb'. apply seg_frame; intros q _; [apply HN | apply HP].
      + apply Permutation_app_head, Permutation_middle. }
  destruct Hrings as (Hract & Hrfr & Hp).
  split; [constructor |].
  - exact Hh.
  - exact Hf.
  - unfold st'. autorewrite with store. exact Hidh.
  - unfold st'. autorewrite with store. exact Hidf.
  - intros i Hi. unfold st'. autorewrite with store. now apply Hidp.
  - exact Hract.
  - exact Hrfr.
  - eapply Permutation_trans; [exact Hp | exact Hperm].
  - split; [| split]; intros q; unfold st'; now autorewrite with store.
Qed.

(** ** The pool after [init_wp_pool] *)

Fixpoint segb (N P : ptr -> ptr) (a : ptr) (l : list ptr) (b : ptr) : bool :=
  match l with
  | [] => ptr_eqb (N a) b && ptr_eqb (P b) a
  | x :: l' => ptr_eqb (N a) x && ptr_eqb (P x) a && segb N P x l' b
  end.

Lemma segb_sound (N P : ptr -> ptr) (l : list ptr) :
  forall a b, segb N P a l b = true -> seg N P a l b.
Proof.
  induction l as [| x l IH]; intros a b H; simpl in *.
  - apply andb_true_iff in H. destruct H as [H1 H2].
    split; [now destruct (ptr_eqb_spec (N a) b) | now destruct (ptr_eqb_spec (P b) a)].
  - apply andb_true_iff in H. destruct H as [H H3].
    apply andb_true_iff in H. destruct H as [H1 H2].
    repeat split; [now destruct (ptr_eqb_spec (N a) x)
                  | now destruct (ptr_eqb_spec (P x) a) | now apply IH].
Qed.

Lemma init_wp_pool_inv (st0 : state) : pool_inv (init_wp_pool st0) [] slot_ids.
Proof.
  constructor; try reflexivity.
  - intros i Hi. apply slot_ids_range in Hi.
    assert (H : forallb (fun i => id_of (init_wp_pool st0) (pool i) =? i) slot_ids = true)
      by (vm_compute; reflexivity).
    rewrite forallb_forall in H. apply Z.eqb_eq. now apply H.
  - apply segb_sound. vm_compute. reflexivity.
  - apply segb_sound. vm_compute. reflexivity.
Qed.

(** ** [wp_watch] *)

Lemma wp_watch_spec (st : state) (act fr : list Z) (x : Z) (e : string) (res : Z) :
  pool_inv st act (x :: fr) ->
  (String.length e < 100)%nat ->
  exists st',
    wp_watch st e res = Ret (st', x)
    /\ pool_inv st' (x :: act) fr
    /\ counter_of st' (pool x) = 0
    /\ expr_of st' (pool x) = e
    /\ last_val_of st' (pool x) = res
    /\ (forall q, q <> pool x ->
                  counter_of st' q = counter_of st q
                  /\ expr_of st' q = expr_of st q
                  /\ last_val_of st' q = last_val_of st q).
Proof.
  intros Hinv Hlen.
  assert (Hx : 0 <= x < NR_WP)
    by (apply (inv_range _ _ _ Hinv), in_or_app; right; now left).
  destruct (new_wp_spec _ _ _ _ Hinv) as (st1 & Hnew & Hinv1 & Hc & Hco & He & Hl).
  unfold wp_watch. rewrite Hnew. cbn [bind].
  destruct (100 <=? String.length e)%nat eqn:E; [apply Nat.leb_le in E; lia |].
  destruct Hinv1 as [Hh Hf Hidh Hidf Hidp Hact Hfr Hperm].
  eexists. split; [| split; [constructor | split; [| split; [| split]]]].
  - autorewrite with store. now rewrite (Hidp x Hx).
  - exact Hh.
  - exact Hf.
  - autorewrite with store. exact Hidh.
  - autorewrite with store. exact Hidf.
  - intros i Hi. autorewrite with store. now apply Hidp.
  - unfold ring in *. revert Hact. apply seg_frame; intros q _; now autorewrite with store.
  - unfold ring in *. revert Hfr. apply seg_frame; intros q _; now autorewrite with store.
  - exact Hperm.
  - autorewrite with store. exact Hc.
  - autorewrite with store. now destruct (ptr_eqb_spec (pool x) (pool x)).
  - autorewrite with store. now destruct (ptr_eqb_spec (pool x) (pool x)).
  - intros q Hq. autorewrite with store.
    destruct (ptr_eqb_spec q (pool x)); [contradiction |].
    rewrite Hco, He, Hl by assumption. auto.
Qed.

Lemma wp_watch_exhausted (st : state) (act : list Z) (e : string) (res : Z) :
  pool_inv st act [] -> wp_watch st e res = Abort.
Proof. intros H. unfold wp_watch. now rewrite (new_wp_exhausted _ _ H). Qed.

(** A returning [wp_watch] keeps the partition. *)
Lemma wp_watch_partitioned (st st' : state) (e : string) (res i : Z) :
  partitioned st -> wp_watch st e res = Ret (st', i) -> partitioned st'.
Proof.
  intros (act & fr & Hinv) H. destruct fr as [| x fr].
  - rewrite (wp_watch_exhausted _ _ e res Hinv) in H. discriminate.
  - destruct (Nat.ltb_spec (String.length e) 100) as [Hlen | Hlen].
    + destruct (wp_watch_spec _ _ _ _ e res Hinv Hlen) as (st1 & Hw & Hinv1 & _).
      rewrite Hw in H. injection H as <- <-. now exists (x :: act), fr.
    + unfold wp_watch in H.
      destruct (new_wp_spec _ _ _ _ Hinv) as (st1 & Hnew & _).
      rewrite Hnew in H. cbn [bind] in H.
      destruct (100 <=? String.length e)%nat eqn:E; [discriminate |].
      apply Nat.leb_gt in E. lia.
Qed.

Lemma free_wp_partitioned (st : state) (n : Z) :
  partitioned st -> partitioned (fst (free_wp st n)).
Proof.
  intros (act & fr & Hinv).
  destruct (Z_lt_ge_dec n 0) as [Hneg | Hpos];
    [| destruct (Z_lt_ge_dec n NR_WP) as [Hlt | Hge]].
  - unfold free_wp. replace (n <? 0) with true by (symmetry; apply Z.ltb_lt; lia).
    now exists act, fr.
  - destruct (free_wp_spec _ _ _ n Hinv ltac:(lia)) as (_ & H & _).
    now exists (remove Z.eq_dec n act), (n :: remove Z.eq_dec n fr).
  - unfold free_wp. replace (n >=? NR_WP) with true by (symmetry; apply Z.geb_le; lia).
    rewrite orb_true_r. now exists act, fr.
Qed.

(** ** Sequences of calls

    The calls that change the pool, and a sequence of them run from a
    state; the run stops where a call does not return. *)

Inductive call : Type :=
| Watch (e : string) (res : Z)     (* wp_watch(e, res) *)
| Free (n : Z).                    (* free_wp(n) *)

Fixpoint run (st : state) (cs : list call) : outcome state :=
  match cs with
  | [] => Ret st
  | Watch e res :: cs' => r <- wp_watch st e res ;; run (fst r) cs'
  | Free n :: cs' => run (fst (free_wp st n)) cs'
  end.

Lemma run_partitioned (cs : list call) :
  forall st st', partitioned st -> run st cs = Ret st' -> partitioned st'.
Proof.
  induction cs as [| c cs IH]; intros st st' Hp H; simpl in H.
  - now inversion H; subst.
  - destruct c as [e res | n].
    + destruct (wp_watch st e res) as [[st1 i] | | |] eqn:E; try discriminate.
      cbn [bind fst] in H. apply (IH st1 st'); auto.
      apply (wp_watch_partitioned _ _ _ _ _ Hp E).
    + apply (IH (fst (free_wp st n)) st'); auto. now apply free_wp_partitioned.
Qed.

(** ** Creating several watchpoints in a row *)

(** [wp_watch] for each expression and seed value of [es] in turn; the
    result carries the ids the calls printed. *)
Fixpoint watch_all (st : state) (es : list (string * Z)) : outcome (state * list Z) :=
  match es with
  | [] => Ret (st, [])
  | (e, res) :: es' =>
      r <- wp_watch st e res ;;
      r' <- watch_all (fst r) es' ;;
      Ret (fst r', snd r :: snd r')
  end.

Definition short (er : string * Z) : Prop := (String.length (fst er) < 100)%nat.

(** Slot [i] holds expression and value [er]. *)
Definition holds (st : state) (i : Z) (er : string * Z) : Prop :=
  expr_of st (pool i) = fst er /\ last_val_of st (pool i) = snd er.

Lemma watch_all_spec (es : list (string * Z)) :
  forall st act fr1 fr2,
    pool_inv st act (fr1 ++ fr2) ->
    length es = length fr1 ->
    Forall short es ->
    exists st',
      watch_all st es = Ret (st', fr1)
      /\ pool_inv st' (rev fr1 ++ act) fr2
      /\ Forall2 (holds st') fr1 es
      /\ (forall i, In i fr1 -> counter_of st' (pool i) = 0)
      /\ (forall q, (forall i, In i fr1 -> q <> pool i) ->
                    counter_of st' q = counter_of st q
                    /\ expr_of st' q = expr_of st q
                    /\ last_val_of st' q = last_val_of st q).
Proof.
  induction es as [| [e res] es IH]; intros st act fr1 fr2 Hinv Hlen Hshort;
    destruct fr1 as [| x fr1]; try discriminate.
  - exists st. simpl in *.
    split; [reflexivity |]. split; [exact Hinv |]. split; [constructor |].
    split; [intros i [] | auto].
  - simpl in Hinv. inversion Hshort as [| ? ? Hs Hshort']; subst.
    pose proof (inv_NoDup_fr _ _ _ Hinv) as Hnd.
    apply NoDup_cons_iff in Hnd as [Hx _].
    destruct (wp_watch_spec _ _ _ _ e res Hinv Hs)
      as (st1 & Hw & Hinv1 & Hc1 & He1 & Hl1 & Hother1).
    destruct (IH st1 (x :: act) fr1 fr2 Hinv1 ltac:(simpl in Hlen; lia) Hshort')
      as (st' & Hall & Hinv' & Hholds & Hc & Hother).
    assert (Hxpool : forall i, In i fr1 -> pool x <> pool i).
    { intros i Hi E. inversion E; subst. apply Hx, in_or_app. now left. }
    destruct (Hother (pool x) Hxpool) as (Hcx & Hex & Hlx).
    exists st'. simpl. rewrite Hw. cbn [bind fst snd]. rewrite Hall. cbn [bind fst snd].
    split; [reflexivity |]. split; [| split; [| split]].
    + rewrite <- app_assoc. exact Hinv'.
    + constructor; [| exact Hholds]. split; simpl; congruence.
    + intros i [<- | Hi]; [congruence | now apply Hc].
    + intros q Hq.
      destruct (Hother q (fun i Hi => Hq i (or_intror Hi))) as (H1 & H2 & H3).
      destruct (Hother1 q (Hq x (or_introl eq_refl))) as (H4 & H5 & H6).
      repeat split; congruence.
Qed.

(** ** [print_wp] *)

(** The line [print_wp] prints for slot [i]. *)
Definition entry (st : state) (i : Z) : Z * string * Z :=
  (i, expr_of st (pool i), last_val_of st (pool i)).

Lemma print_wp_loop_spec (st : state) :
  id_of st (dummy 0) = -1 ->
  (forall i, 0 <= i < NR_WP -> id_of st (pool i) = i) ->
  forall l cur out fuel,
    (forall i, In i l -> 0 <= i < NR_WP) ->
    seg (nxt st) (prv st) (dummy 0) (map pool l) cur ->
    (length l < fuel)%nat ->
    print_wp_loop fuel st cur out = Ret (out ++ map (entry st) (rev l)).
Proof.
  intros Hidh Hidp l.
  induction l as [| x l IH] using rev_ind; intros cur out fuel Hr Hseg Hfuel;
    (destruct fuel as [| fuel]; [simpl in Hfuel; lia |]); simpl print_wp_loop.
  - simpl in Hseg. destruct Hseg as [_ Hp]. rewrite Hp, Hidh. simpl.
    now rewrite app_nil_r.
  - rewrite map_app in Hseg. simpl in Hseg. apply seg_app in Hseg.
    destruct Hseg as [Hseg [_ Hp]]. rewrite Hp.
    assert (Hx : 0 <= x < NR_WP) by (apply Hr, in_or_app; right; now left).
    rewrite (Hidp x Hx).
    destruct (x =? -1) eqn:E; [unfold NR_WP in Hx; lia |].
    rewrite length_app in Hfuel. simpl in Hfuel.
    rewrite (IH (pool x)); auto; [| intros i Hi; apply Hr, in_or_app; now left | lia].
    rewrite rev_app_distr. simpl. rewrite <- app_assoc. simpl.
    unfold entry at 2. unfold expr_of, last_val_of.
    change (id (mem st (pool x))) with (id_of st (pool x)). now rewrite (Hidp x Hx).
Qed.

Lemma print_wp_spec (st : state) (act fr : list Z) (fuel : nat) :
  pool_inv st act fr ->
  (length act < fuel)%nat ->
  print_wp fuel st = Ret (map (entry st) (rev act)).
Proof.
  intros Hinv Hfuel. unfold print_wp. rewrite (inv_head _ _ _ Hinv).
  rewrite (print_wp_loop_spec st (inv_id_head _ _ _ Hinv) (inv_id_pool _ _ _ Hinv) act);
    auto.
  - intros i Hi. apply (inv_range _ _ _ Hinv), in_or_app. now left.
  - exact (inv_active _ _ _ Hinv).
Qed.

(** The lines for the expressions [es] held by the slots [l], pairwise. *)
Definition lines (l : list Z) (es : list (string * Z)) : list (Z * string * Z) :=
  map (fun p => (fst p, fst (snd p), snd (snd p))) (combine l es).

Lemma entries_lines (st : state) (l : list Z) (es : list (string * Z)) :
  Forall2 (holds st) l es -> map (entry st) l = lines l es.
Proof.
  induction 1 as [| i er l es [He Hl] _ IH]; [reflexivity |].
  unfold lines in *. simpl. rewrite IH. unfold entry. now rewrite He, Hl.
Qed.

Lemma lines_firstn (es : list (string * Z)) :
  forall l, lines (firstn (length es) l) es = lines l es.
Proof.
  unfold lines. induction es as [| er es IH]; intros [| i l]; simpl; auto.
  now rewrite IH.
Qed.

(** ** [check_wp] *)

(** The lines of a [check_wp] output that concern watchpoint [w]. *)
Definition entries_of (w : Z) (out : list change) : list change :=
  filter (fun c => ch_id c =? w) out.

Lemma entries_of_app (w : Z) (out1 out2 : list change) :
  entries_of w (out1 ++ out2) = entries_of w out1 ++ entries_of w out2.
Proof. apply filter_app. Qed.

Section CheckSpec.

Variable isa_reg_str2val : string -> Z * bool.
Variable vaddr_read : Z -> Z -> Z.
Variable garbage : bool.

(** What one call of [check_wp] does to the active watchpoint [w]: [st] is
    the state before, [st'] the state after, and [added] the lines printed
    for [w]. *)
Definition visited (st st' : state) (w : Z) (added : list change) : Prop :=
  counter_of st' (pool w) = to_int32 (counter_of st (pool w) + 1)
  /\ if counter_of st (pool w) =? 0 then
       last_val_of st' (pool w) = last_val_of st (pool w) /\ added = []
     else
       exists v,
         Expr.expr isa_reg_str2val vaddr_read (expr_of st (pool w)) garbage = Ret (v, true)
         /\ last_val_of st' (pool w) = v
         /\ added = if v =? last_val_of st (pool w) then []
                    else [mkChange w (expr_of st (pool w))
                                   (to_int32 (last_val_of st (pool w))) (to_int32 v)].

(** Two states with the same links, ids and expressions. *)
Definition same_shape (st st' : state) : Prop :=
  head st' = head st /\ free_ st' = free_ st
  /\ forall q, nxt st' q = nxt st q /\ prv st' q = prv st q
               /\ id_of st' q = id_of st q /\ expr_of st' q = expr_of st q.

Lemma same_shape_refl (st : state) : same_shape st st.
Proof. repeat split. Qed.

Lemma same_shape_trans (st1 st2 st3 : state) :
  same_shape st1 st2 -> same_shape st2 st3 -> same_shape st1 st3.
Proof.
  intros (Hh & Hf & H) (Hh' & Hf' & H'). split; [congruence | split; [congruence |]].
  intros q. destruct (H q) as (A & B & C & D), (H' q) as (A' & B' & C' & D').
  repeat split; congruence.
Qed.

Lemma same_shape_set_counter (st : state) (p : ptr) (v : Z) :
  same_shape st (set_counter st p v).
Proof. repeat split; now autorewrite with store. Qed.

Lemma same_shape_set_last_val (st : state) (p : ptr) (v : Z) :
  same_shape st (set_last_val st p v).
Proof. repeat split; now autorewrite with store. Qed.

Lemma pool_inv_same_shape (st st' : state) (act fr : list Z) :
  same_shape st st' -> pool_inv st act fr -> pool_inv st' act fr.
Proof.
  intros (Hh & Hf & H) [A B C D E F G I].
  constructor; try congruence.
  - now rewrite (proj1 (proj2 (proj2 (H _)))).
  - now rewrite (proj1 (proj2 (proj2 (H _)))).
  - intros i Hi. rewrite (proj1 (proj2 (proj2 (H _)))). now apply E.
  - revert F. unfold ring. apply seg_frame; intros q _; apply H.
  - revert G. unfold ring. apply seg_frame; intros q _; apply H.
Qed.

Lemma check_wp_loop_spec (l : list Z) :
  forall fuel st cur res out st' res' out',
    id_of st (dummy 0) = -1 ->
    (forall i, In i l -> id_of st (pool i) = i /\ 0 <= i) ->
    NoDup l ->
    seg (nxt st) (prv st) cur (map pool l) (dummy 0) ->
    check_wp_loop isa_reg_str2val vaddr_read garbage fuel st cur res out
    = Ret (st', res', out') ->
    same_shape st st'
    /\ (forall q, (forall i, In i l -> q <> pool i) ->
                  counter_of st' q = counter_of st q
                  /\ last_val_of st' q = last_val_of st q)
    /\ (forall w, ~ In w l -> entries_of w out' = entries_of w out)
    /\ (forall w, In w l ->
                  exists added, entries_of w out' = entries_of w out ++ added
                                /\ visited st st' w added)
    /\ ((res' = res /\ out' = out) \/ res' = 1).
Proof.
  induction l as [| x l IH];
    intros fuel st cur res out st' res' out' Hidh Hid Hnd Hseg Hrun;
    (destruct fuel as [| fuel]; [discriminate |]); simpl in Hseg;
    cbn [check_wp_loop] in Hrun.
  - destruct Hseg as [Hn _]. rewrite Hn, Hidh in Hrun. simpl in Hrun.
    inversion Hrun; subst.
    split; [apply same_shape_refl |]. repeat split; auto.
    intros w [].
  - destruct Hseg as (Hn & _ & Hseg). rewrite Hn in Hrun.
    destruct (Hid x (or_introl eq_refl)) as [Hidx Hx0].
    rewrite Hidx in Hrun.
    destruct (x =? -1) eqn:E; [lia |]. clear E.
    apply NoDup_cons_iff in Hnd as [Hxl Hnd].
    assert (Hxi : forall i, In i l -> pool x <> pool i)
      by (intros i Hi E; injection E as E'; rewrite <- E' in Hi; contradiction).
    change (counter (mem st (pool x))) with (counter_of st (pool x)) in Hrun.
    set (st1 := set_counter st (pool x) (to_int32 (counter_of st (pool x) + 1))) in *.
    assert (Hs1 : same_shape st st1) by apply same_shape_set_counter.
    assert (Hc1 : counter_of st1 (pool x) = to_int32 (counter_of st (pool x) + 1)).
    { unfold st1. autorewrite with store. now destruct (ptr_eqb_spec (pool x) (pool x)). }
    assert (Hl1 : forall q, last_val_of st1 q = last_val_of st q)
      by (intros q; unfold st1; now autorewrite with store).
    assert (Ho1 : forall q, q <> pool x -> counter_of st1 q = counter_of st q).
    { intros q Hq. unfold st1. autorewrite with store.
      now destruct (ptr_eqb_spec q (pool x)). }
    destruct (counter_of st (pool x) =? 0) eqn:Ec.
    + (* first check of this watchpoint: skipped *)
      apply IH in Hrun;
        [ | unfold st1; now autorewrite with store
          | intros i Hi; unfold st1; autorewrite with store; apply Hid; now right
          | exact Hnd
          | revert Hseg; apply seg_frame; intros q _; apply Hs1 ].
      destruct Hrun as (Hs & Hother & Hno & Hin & Hres).
      split; [exact (same_shape_trans _ _ _ Hs1 Hs) |].
      split; [| split; [| split; [| exact Hres]]].
      * intros q Hq.
        destruct (Hother q (fun i Hi => Hq i (or_intror Hi))) as [H1 H2].
        rewrite H1, H2, Hl1, Ho1; auto. apply Hq. now left.
      * intros w Hw. apply Hno. intros H. apply Hw. now right.
      * intros w [<- | Hw].
        -- exists []. rewrite app_nil_r. split; [now apply Hno |].
           destruct (Hother (pool x) Hxi) as [H1 H2].
           unfold visited. rewrite Ec, H1, H2, Hc1, Hl1. auto.
        -- destruct (Hin w Hw) as (added & Hadd & Hc & Hv).
           assert (Hwx : pool w <> pool x)
             by (intros E; injection E as E'; rewrite E' in Hw; contradiction).
           exists added. split; [exact Hadd |].
           unfold visited in *. rewrite Hc, (Ho1 _ Hwx), Hl1 in *. split; [reflexivity |].
           now rewrite (proj2 (proj2 (proj2 (proj2 (proj2 Hs1) (pool w))))) in Hv.
    + (* later checks: the expression is evaluated again *)
      change (expr (mem st1 (pool x))) with (expr_of st1 (pool x)) in Hrun.
      change (last_val (mem st1 (pool x))) with (last_val_of st1 (pool x)) in Hrun.
      change (id (mem st1 (pool x))) with (id_of st1 (pool x)) in Hrun.
      assert (He1 : expr_of st1 (pool x) = expr_of st (pool x))
        by (unfold st1; now autorewrite with store).
      assert (Hi1 : id_of st1 (pool x) = x)
        by (unfold st1; autorewrite with store; exact Hidx).
      rewrite He1, Hl1, Hi1 in Hrun.
      destruct (Expr.expr isa_reg_str2val vaddr_read (expr_of st (pool x)) garbage)
        as [[val success] | | |] eqn:Eval; try discriminate.
      cbn [bind] in Hrun.
      destruct success; [| discriminate]. cbn [negb] in Hrun.
      set (st2 := set_last_val st1 (pool x) val) in *.
      assert (Hs2 : same_shape st st2)
        by (apply (same_shape_trans _ _ _ Hs1), same_shape_set_last_val).
      assert (Hl2 : last_val_of st2 (pool x) = val).
      { unfold st2. autorewrite with store.
        now destruct (ptr_eqb_spec (pool x) (pool x)). }
      assert (Ho2 : forall q, q <> pool x ->
                              counter_of st2 q = counter_of st q
                              /\ last_val_of st2 q = last_val_of st q).
      { intros q Hq. unfold st2. autorewrite with store.
        destruct (ptr_eqb_spec q (pool x)); [contradiction |]. now rewrite Ho1, Hl1. }
      assert (Hc2 : counter_of st2 (pool x) = to_int32 (counter_of st (pool x) + 1))
        by (unfold st2; now autorewrite with store).
      apply IH in Hrun;
        [ | destruct Hs2 as (_ & _ & H); now rewrite (proj1 (proj2 (proj2 (H _))))
          | intros i Hi; destruct Hs2 as (_ & _ & H);
            rewrite (proj1 (proj2 (proj2 (H _)))); apply Hid; now right
          | exact Hnd
          | revert Hseg; apply seg_frame; intros q _; apply Hs2 ].
      destruct Hrun as (Hs & Hother & Hno & Hin & Hres).
      set (added := if val =? last_val_of st (pool x) then []
                    else [mkChange x (expr_of st (pool x))
                                   (to_int32 (last_val_of st (pool x)))
                                   (to_int32 val)]) in *.
      assert (Hout : forall o,
                 (if negb (val =? last_val_of st (pool x))
                  then o ++ [mkChange x (expr_of st (pool x))
                                      (to_int32 (last_val_of st (pool x)))
                                      (to_int32 val)]
                  else o) = o ++ added).
      { intros o. unfold added.
        destruct (val =? last_val_of st (pool x)); simpl; now rewrite ?app_nil_r. }
      rewrite Hout in *.
      assert (Hax : entries_of x added = added).
      { unfold added. destruct (val =? last_val_of st (pool x)); [reflexivity |].
        unfold entries_of. simpl. now rewrite Z.eqb_refl. }
      assert (Haw : forall w, w <> x -> entries_of w added = []).
      { intros w Hw. unfold added.
        destruct (val =? last_val_of st (pool x)); [reflexivity |].
        unfold entries_of. simpl. destruct (Z.eqb_spec x w); [congruence | reflexivity]. }
      split; [exact (same_shape_trans _ _ _ Hs2 Hs) |].
      split; [| split; [| split]].
      * intros q Hq.
        destruct (Hother q (fun i Hi => Hq i (or_intror Hi))) as [H1 H2].
        destruct (Ho2 q (Hq x (or_introl eq_refl))) as [H3 H4]. split; congruence.
      * intros w Hw. rewrite Hno by (intros H; apply Hw; now right).
        rewrite entries_of_app, Haw, app_nil_r; auto.
        intros ->. apply Hw. now left.
      * intros w [<- | Hw].
        -- exists added. rewrite (Hno x Hxl), entries_of_app, Hax.
           split; [reflexivity |].
           destruct (Hother (pool x) Hxi) as [H1 H2].
           unfold visited. rewrite Ec, H1, H2, Hc2, Hl2. split; [reflexivity |].
           exists val. auto.
        -- destruct (Hin w Hw) as (added' & Hadd & Hc & Hv).
           assert (Hwx : pool w <> pool x)
             by (intros E; injection E as E'; rewrite E' in Hw; contradiction).
           assert (Hwx' : w <> x) by (intros ->; contradiction).
           exists added'. split.
           ++ rewrite Hadd, entries_of_app, (Haw w Hwx'), app_nil_r. reflexivity.
           ++ destruct (Ho2 _ Hwx) as [H3 H4].
              unfold visited in *. rewrite Hc, H3, H4 in *. split; [reflexivity |].
              now rewrite (proj2 (proj2 (proj2 (proj2 (proj2 Hs2) (pool w))))) in Hv.
      * destruct Hres as [[-> ->] | ->]; [| now right].
        unfold added. destruct (val =? last_val_of st (pool x)); simpl.
        -- left. now rewrite app_nil_r.
        -- now right.
Qed.

End CheckSpec.

(** ** [check_wp] on a partitioned pool *)

Section CheckPool.

Variable isa_reg_str2val : string -> Z * bool.
Variable vaddr_read : Z -> Z -> Z.
Variable garbage : bool.

Lemma check_wp_loop_fuel (l : list Z) :
  forall fuel st cur res out,
    id_of st (dummy 0) = -1 ->
    (forall i, In i l -> id_of st (pool i) = i /\ 0 <= i) ->
    seg (nxt st) (prv st) cur (map pool l) (dummy 0) ->
    (length l < fuel)%nat ->
    check_wp_loop isa_reg_str2val vaddr_read garbage fuel st cur res out <> OutOfFuel.
Proof.
  induction l as [| x l IH]; intros fuel st cur res out Hidh Hid Hseg Hfuel;
    (destruct fuel as [| fuel]; [simpl in Hfuel; lia |]); simpl in Hseg, Hfuel;
    cbn [check_wp_loop].
  - destruct Hseg as [Hn _]. rewrite Hn, Hidh. discriminate.
  - destruct Hseg as (Hn & _ & Hseg). rewrite Hn.
    destruct (Hid x (or_introl eq_refl)) as [Hidx Hx0]. rewrite Hidx.
    destruct (x =? -1) eqn:E; [lia |]. clear E.
    assert (Hnext : forall st', same_shape st st' ->
                      forall res' out',
                        check_wp_loop isa_reg_str2val vaddr_read garbage fuel st'
                                      (pool x) res' out' <> OutOfFuel).
    { intros st' Hs res' out'. apply IH; [| | | lia].
      - now rewrite (proj1 (proj2 (proj2 (proj2 (proj2 Hs) _)))).
      - intros i Hi. rewrite (proj1 (proj2 (proj2 (proj2 (proj2 Hs) _)))).
        apply Hid. now right.
      - revert Hseg. apply seg_frame; intros q _; apply (proj2 (proj2 Hs)). }
    destruct (counter (mem st (pool x)) =? 0).
    + apply Hnext, same_shape_set_counter.
    + match goal with |- context [Expr.expr ?r ?m ?e ?g] =>
        pose proof (expr_total r m e g) as He;
        destruct (Expr.expr r m e g) as [[val success] | | |]
      end; cbn [bind]; try discriminate; [| contradiction].
      destruct success; [| discriminate]. cbn [negb].
      apply Hnext.
      eapply same_shape_trans; [| apply same_shape_set_last_val].
      apply same_shape_set_counter.
Qed.

(** One call of [check_wp] on a pool with active list [act]. *)
Lemma check_wp_spec (st st' : state) (act fr : list Z) (fuel : nat) (res : Z)
  (out : list change) :
  pool_inv st act fr ->
  check_wp isa_reg_str2val vaddr_read garbage fuel st = Ret (st', res, out) ->
  pool_inv st' act fr
  /\ same_shape st st'
  /\ (forall w, In w act -> visited isa_reg_str2val vaddr_read garbage st st' w
                                    (entries_of w out))
  /\ (out = [] \/ res = 1).
Proof.
  intros Hinv H. unfold check_wp in H. rewrite (inv_head _ _ _ Hinv) in H.
  apply (check_wp_loop_spec _ _ _ act) in H.
  - destruct H as (Hs & _ & _ & Hin & Hres).
    split; [exact (pool_inv_same_shape _ _ _ _ Hs Hinv) |].
    split; [exact Hs |]. split.
    + intros w Hw. destruct (Hin w Hw) as (added & Hadd & Hv).
      simpl in Hadd. now rewrite Hadd.
    + destruct Hres as [[_ ->] | ->]; auto.
  - exact (inv_id_head _ _ _ Hinv).
  - intros i Hi.
    assert (Hr : 0 <= i < NR_WP)
      by (apply (inv_range _ _ _ Hinv), in_or_app; now left).
    split; [now apply (inv_id_pool _ _ _ Hinv) | lia].
  - exact (inv_NoDup_act _ _ _ Hinv).
  - exact (inv_active _ _ _ Hinv).
Qed.

Lemma check_wp_fuel (st : state) (fuel : nat) :
  partitioned st -> (32 < fuel)%nat ->
  check_wp isa_reg_str2val vaddr_read garbage fuel st <> OutOfFuel.
Proof.
  intros (act & fr & Hinv) Hfuel. unfold check_wp. rewrite (inv_head _ _ _ Hinv).
  apply (check_wp_loop_fuel act).
  - exact (inv_id_head _ _ _ Hinv).
  - intros i Hi.
    assert (Hr : 0 <= i < NR_WP)
      by (apply (inv_range _ _ _ Hinv), in_or_app; now left).
    split; [now apply (inv_id_pool _ _ _ Hinv) | lia].
  - exact (inv_active _ _ _ Hinv).
  - pose proof (Permutation_length (inv_part _ _ _ Hinv)) as Hlen.
    rewrite length_app in Hlen. unfold slot_ids in Hlen.
    rewrite length_map, length_seq in Hlen. lia.
Qed.

End CheckPool.

(** What a returning [wp_watch] leaves behind. *)
Lemma wp_watch_ret (st st1 : state) (e : string) (res w : Z) :
  partitioned st ->
  wp_watch st e res = Ret (st1, w) ->
  exists act fr,
    pool_inv st1 (w :: act) fr
    /\ counter_of st1 (pool w) = 0
    /\ expr_of st1 (pool w) = e
    /\ last_val_of st1 (pool w) = res.
Proof.
  intros (act & fr & Hinv) H. destruct fr as [| x fr].
  - rewrite (wp_watch_exhausted _ _ e res Hinv) in H. discriminate.
  - destruct (Nat.ltb_spec (String.length e) 100) as [Hlen | Hlen].
    + destruct (wp_watch_spec _ _ _ _ e res Hinv Hlen)
        as (st' & Hw & Hinv1 & Hc & He & Hl & _).
      rewrite Hw in H. injection H as <- <-. now exists act, fr.
    + unfold wp_watch in H.
      destruct (new_wp_spec _ _ _ _ Hinv) as (st' & Hnew & _).
      rewrite Hnew in H. cbn [bind] in H.
      destruct (100 <=? String.length e)%nat eqn:E; [discriminate |].
      apply Nat.leb_gt in E. lia.
Qed.

(** ** One watchpoint through a sequence of calls *)

(** Watchpoint [w] is active, its [counter] is [c], and it holds the
    expression [e] and the last value [lv]. *)
Definition tracked (st : state) (w c lv : Z) (e : string) : Prop :=
  (exists act fr, pool_inv st act fr /\ In w act)
  /\ counter_of st (pool w) = c
  /\ last_val_of st (pool w) = lv
  /\ expr_of st (pool w) = e.

(** The calls that do not remove watchpoint [w]. *)
Definition keeps (w : Z) (c : call) : Prop :=
  match c with
  | Watch _ _ => True
  | Free n => n <> w
  end.

Lemma wp_watch_creates (st st1 : state) (e : string) (res w : Z) :
  partitioned st ->
  wp_watch st e res = Ret (st1, w) ->
  tracked st1 w 0 res e.
Proof.
  intros Hp H.
  destruct (wp_watch_ret _ _ _ _ _ Hp H) as (act & fr & Hinv & Hc & He & Hl).
  split; [| auto]. exists (w :: act), fr. split; [exact Hinv | now left].
Qed.

Lemma wp_watch_tracked (st st' : state) (e' : string) (res' i w c lv : Z)
  (e : string) :
  tracked st w c lv e ->
  wp_watch st e' res' = Ret (st', i) ->
  tracked st' w c lv e.
Proof.
  intros ((act & fr & Hinv & Hw) & Hc & Hl & He) H. destruct fr as [| x fr].
  - rewrite (wp_watch_exhausted _ _ e' res' Hinv) in H. discriminate.
  - assert (Hlen : (String.length e' < 100)%nat).
    { unfold wp_watch in H.
      destruct (new_wp_spec _ _ _ _ Hinv) as (st1 & Hnew & _).
      rewrite Hnew in H. cbn [bind] in H.
      destruct (100 <=? String.length e')%nat eqn:E; [discriminate |].
      now apply Nat.leb_gt in E. }
    destruct (wp_watch_spec _ _ _ _ e' res' Hinv Hlen)
      as (st1 & Hwatch & Hinv1 & _ & _ & _ & Hother).
    rewrite Hwatch in H. injection H as <- <-.
    assert (Hne : pool w <> pool x).
    { intros E. injection E as ->.
      apply (inv_disjoint _ _ _ Hinv x Hw). now left. }
    destruct (Hother _ Hne) as (H1 & H2 & H3).
    split; [| repeat split; congruence].
    exists (x :: act), fr. split; [exact Hinv1 | now right].
Qed.

Lemma free_wp_tracked (st : state) (n w c lv : Z) (e : string) :
  tracked st w c lv e ->
  n <> w ->
  tracked (fst (free_wp st n)) w c lv e.
Proof.
  intros ((act & fr & Hinv & Hw) & Hc & Hl & He) Hn.
  destruct (Z_lt_ge_dec n 0) as [Hneg | Hpos];
    [| destruct (Z_lt_ge_dec n NR_WP) as [Hlt | Hge]].
  - unfold free_wp. replace (n <? 0) with true by (symmetry; apply Z.ltb_lt; lia).
    simpl. split; [now exists act, fr | auto].
  - destruct (free_wp_spec _ _ _ n Hinv ltac:(lia)) as (_ & Hinv' & H1 & H2 & H3).
    split; [| repeat split; congruence].
    exists (remove Z.eq_dec n act), (n :: remove Z.eq_dec n fr).
    split; [exact Hinv' |]. apply in_in_remove; auto.
  - unfold free_wp. replace (n >=? NR_WP) with true by (symmetry; apply Z.geb_le; lia).
    rewrite orb_true_r. simpl. split; [now exists act, fr | auto].
Qed.

Lemma run_tracked (w c lv : Z) (e : string) (cs : list call) :
  forall st st',
    tracked st w c lv e ->
    Forall (keeps w) cs ->
    run st cs = Ret st' ->
    tracked st' w c lv e.
Proof.
  induction cs as [| k cs IH]; intros st st' Ht Hk H; simpl in H.
  - now inversion H; subst.
  - inversion Hk as [| ? ? Hk1 Hk2]; subst. destruct k as [e' res' | n].
    + destruct (wp_watch st e' res') as [[st1 i] | | |] eqn:E; try discriminate.
      cbn [bind fst] in H. apply (IH st1 st'); auto.
      exact (wp_watch_tracked _ _ _ _ _ _ _ _ _ Ht E).
    + apply (IH (fst (free_wp st n)) st'); auto. now apply free_wp_tracked.
Qed.

Lemma tracked_partitioned (st : state) (w c lv : Z) (e : string) :
  tracked st w c lv e -> partitioned st.
Proof. intros ((act & fr & Hinv & _) & _). now exists act, fr. Qed.

(** One [check_wp] on a pool in which [w] is armed. *)
Lemma check_wp_tracked (regs : string -> Z * bool) (vmem : Z -> Z -> Z) (g : bool)
  (fuel : nat) (st st' : state) (r : Z) (out : list change) (w c lv : Z)
  (e : string) :
  tracked st w c lv e ->
  check_wp regs vmem g fuel st = Ret (st', r, out) ->
  if c =? 0 then
    tracked st' w (to_int32 (c + 1)) lv e /\ entries_of w out = []
  else
    exists v,
      Expr.expr regs vmem e g = Ret (v, true)
      /\ tracked st' w (to_int32 (c + 1)) v e
      /\ entries_of w out
         = (if v =? lv then [] else [mkChange w e (to_int32 lv) (to_int32 v)])
      /\ (v <> lv -> r = 1).
Proof.
  intros ((act & fr & Hinv & Hw) & Hc & Hl & He) H.
  destruct (check_wp_spec _ _ _ _ _ _ _ _ _ _ Hinv H) as (Hinv' & Hs & Hv & Hres).
  destruct (Hv w Hw) as [Hc' Hvis].
  assert (He' : expr_of st' (pool w) = e)
    by (rewrite (proj2 (proj2 (proj2 (proj2 (proj2 Hs) _)))); exact He).
  assert (Hact : exists act fr, pool_inv st' act fr /\ In w act)
    by (exists act, fr; auto).
  rewrite Hc in Hc', Hvis. rewrite Hl, He in Hvis.
  destruct (c =? 0).
  - destruct Hvis as [Hl' Hout]. repeat split; auto.
  - destruct Hvis as (v & Heval & Hl' & Hout). exists v.
    split; [exact Heval |]. split; [repeat split; auto |]. split; [exact Hout |].
    intros Hne. destruct (Z.eqb_spec v lv) as [| _]; [contradiction |].
    destruct Hres as [-> | ->]; [discriminate | reflexivity].
Qed.

(** A watchpoint created by [wp_watch] with expression [e] and seed value
    [res], whatever other watchpoints are created or removed in between, as
    far as the calls of [check_wp] return: the first [check_wp] after the
    creation prints no line for it; if the next one finds that [e]
    evaluates to a value [v] other than [res], it prints exactly one line
    for it, with the low 32 bits of [res] and of [v], returns 1 and stores
    [v]; and a further one in which [e] still evaluates to [v] prints no
    line for it.  With fuel for 33 turns, [check_wp] never runs out of
    fuel. *)
Lemma check_wp_skipped_then_reported_once :
  forall st e res st1 w,
    partitioned st ->
    wp_watch st e res = Ret (st1, w) ->
    forall cs1 st1',
      Forall (keeps w) cs1 -> run st1 cs1 = Ret st1' ->
      (forall regs vmem g fuel,
          (32 < fuel)%nat -> check_wp regs vmem g fuel st1' <> OutOfFuel)
      /\ forall regs1 vmem1 g1 fuel1 st2 r1 out1,
          check_wp regs1 vmem1 g1 fuel1 st1' = Ret (st2, r1, out1) ->
          entries_of w out1 = []
          /\ forall cs2 st2',
              Forall (keeps w) cs2 -> run st2 cs2 = Ret st2' ->
              forall regs2 vmem2 g2 fuel2 st3 r2 out2 v ok,
                check_wp regs2 vmem2 g2 fuel2 st2' = Ret (st3, r2, out2) ->
                Expr.expr regs2 vmem2 e g2 = Ret (v, ok) ->
                v <> res ->
                entries_of w out2 = [mkChange w e (to_int32 res) (to_int32 v)]
                /\ r2 = 1
                /\ last_val_of st3 (pool w) = v
                /\ forall cs3 st3',
                    Forall (keeps w) cs3 -> run st3 cs3 = Ret st3' ->
                    forall regs3 vmem3 g3 fuel3 st4 r3 out3 ok',
                      check_wp regs3 vmem3 g3 fuel3 st3' = Ret (st4, r3, out3) ->
                      Expr.expr regs3 vmem3 e g3 = Ret (v, ok') ->
                      entries_of w out3 = [].
Proof.
  intros st e res st1 w Hpart Hw cs1 st1' Hk1 Hrun1.
  pose proof (run_tracked _ _ _ _ _ _ _ (wp_watch_creates _ _ _ _ _ Hpart Hw) Hk1 Hrun1)
    as Ht1.
  split.
  { intros regs vmem g fuel Hfuel. apply check_wp_fuel; auto.
    exact (tracked_partitioned _ _ _ _ _ Ht1). }
  intros regs1 vmem1 g1 fuel1 st2 r1 out1 Hcheck1.
  pose proof (check_wp_tracked _ _ _ _ _ _ _ _ _ _ _ _ Ht1 Hcheck1) as H1.
  simpl in H1. change (to_int32 (0 + 1)) with 1 in H1. destruct H1 as [Ht2 Hout1].
  split; [exact Hout1 |].
  intros cs2 st2' Hk2 Hrun2 regs2 vmem2 g2 fuel2 st3 r2 out2 v ok Hcheck2 Heval2 Hne.
  pose proof (run_tracked _ _ _ _ _ _ _ Ht2 Hk2 Hrun2) as Ht2'.
  pose proof (check_wp_tracked _ _ _ _ _ _ _ _ _ _ _ _ Ht2' Hcheck2) as H2.
  simpl in H2. change (to_int32 (1 + 1)) with 2 in H2.
  destruct H2 as (v' & Heval2' & Ht3 & Hout2 & Hr2).
  rewrite Heval2 in Heval2'. injection Heval2' as <- _.
  destruct (Z.eqb_spec v res) as [| _]; [contradiction |].
  split; [exact Hout2 |]. split; [exact (Hr2 Hne) |].
  split; [exact (proj1 (proj2 (proj2 Ht3))) |].
  intros cs3 st3' Hk3 Hrun3 regs3 vmem3 g3 fuel3 st4 r3 out3 ok' Hcheck3 Heval3.
  pose proof (run_tracked _ _ _ _ _ _ _ Ht3 Hk3 Hrun3) as Ht3'.
  pose proof (check_wp_tracked _ _ _ _ _ _ _ _ _ _ _ _ Ht3' Hcheck3) as H3.
  simpl in H3. destruct H3 as (v' & Heval3' & _ & Hout3 & _).
  rewrite Heval3 in Heval3'. injection Heval3' as <- _.
  now rewrite Z.eqb_refl in Hout3.
Qed.

(** A register file in which every register holds [v]. *)
Definition all_registers (v : Z) (name : string) : Z * bool := (v, true).

Definition no_memory (addr len : Z) : Z := 0.

(** The state a call returned, for stating what a later call does. *)
Definition state_after_watch (o : outcome (state * Z)) : state :=
  match o with
  | Ret r => fst r
  | _ => zero_state
  end.

Definition state_after_check (o : outcome (state * Z * list change)) : state :=
  match o with
  | Ret r => fst (fst r)
  | _ => zero_state
  end.

Lemma watch_returned (o : outcome (state * Z)) (i : Z) :
  match o with Ret r => snd r = i | _ => False end ->
  o = Ret (state_after_watch o, i).
Proof. destruct o as [[s j] | | |]; simpl; intros H; now subst. Qed.

Lemma check_returned (o : outcome (state * Z * list change)) (r : Z)
  (out : list change) :
  match o with Ret x => snd (fst x) = r /\ snd x = out | _ => False end ->
  o = Ret (state_after_check o, r, out).
Proof. destruct o as [[[s j] l] | | |]; simpl; intros H; try tauto. now destruct H; subst. Qed.

(** * The claims about the watchpoint pool *)

(** ** C7

    After [init_wp_pool], and after any sequence of [wp_watch] and [free_wp]
    calls that returns, there are an active list and a free list such that
    the ring of [head] runs through the slots of the first and the ring of
    [free_] through those of the second, with consistent [next] and [prev]
    pointers, and the two lists together hold each of the 32 slots exactly
    once.  [free_wp] on a slot that is free already returns 0 and keeps
    this. *)
Theorem C7_pool_partition :
  (forall st0, pool_inv (init_wp_pool st0) [] slot_ids)
  /\ (forall st0 cs st,
         run (init_wp_pool st0) cs = Ret st -> partitioned st)
  /\ (forall st act fr n,
         pool_inv st act fr -> In n fr ->
         snd (free_wp st n) = 0
         /\ pool_inv (fst (free_wp st n)) act (n :: remove Z.eq_dec n fr)).
Proof.
  split; [exact init_wp_pool_inv | split].
  - intros st0 cs st H. apply (run_partitioned cs (init_wp_pool st0)); auto.
    exists [], slot_ids. apply init_wp_pool_inv.
  - intros st act fr n Hinv Hn.
    assert (Hr : 0 <= n < NR_WP)
      by (apply (inv_range _ _ _ Hinv), in_or_app; now right).
    destruct (free_wp_spec _ _ _ n Hinv Hr) as (H0 & H & _).
    split; [exact H0 |].
    rewrite notin_remove in H; [exact H |].
    intros Ha. exact (inv_disjoint _ _ _ Hinv n Ha Hn).
Qed.

Lemma C7_pool_partition_witness :
  (run (init_wp_pool zero_state) [Free 3; Free 3; Free 40] =
   Ret (fst (free_wp (fst (free_wp (fst (free_wp (init_wp_pool zero_state) 3)) 3)) 40))
   /\ partitioned
        (fst (free_wp (fst (free_wp (fst (free_wp (init_wp_pool zero_state) 3)) 3)) 40)))
  /\ (In 3 slot_ids
      /\ snd (free_wp (init_wp_pool zero_state) 3) = 0
      /\ pool_inv (fst (free_wp (init_wp_pool zero_state) 3)) []
                  (3 :: remove Z.eq_dec 3 slot_ids)).
Proof.
  split; split.
  - reflexivity.
  - apply (proj1 (proj2 C7_pool_partition) zero_state [Free 3; Free 3; Free 40]).
    reflexivity.
  - apply slot_ids_range. unfold NR_WP. lia.
  - apply (proj2 (proj2 C7_pool_partition) (init_wp_pool zero_state) [] slot_ids 3).
    + apply (proj1 C7_pool_partition).
    + apply slot_ids_range. unfold NR_WP. lia.
Defined.

(** ** C8 *)

(** C8 as stated fails at the 33rd creation: the call does not return a
    failure, [new_wp] reaches [assert(0)] and the process stops. *)
Lemma C8_exhaustion_aborts :
  (r <- watch_all (init_wp_pool zero_state) (repeat ("1"%string, 1) 32) ;;
   r' <- wp_watch (fst r) "1" 1 ;;
   Ret (snd r, snd r')) = Abort.
Proof. vm_compute. reflexivity. Qed.

(** C8, amended: from the initial pool, 32 creations return and print the
    ids 0 to 31 in this order; a further [wp_watch] then stops the process on
    the assertion of [new_wp]; and in any state of the pool, after
    [free_wp(k)] for a slot index [k] in range, which returns 0, the next
    [wp_watch] returns and takes slot [k]. *)
Theorem C8_create_exhaust_reuse :
  (forall st0 es,
      length es = 32%nat -> Forall short es ->
      exists st,
        watch_all (init_wp_pool st0) es = Ret (st, slot_ids)
        /\ forall e res, wp_watch st e res = Abort)
  /\ (forall st k e res,
         partitioned st -> 0 <= k < NR_WP -> (String.length e < 100)%nat ->
         snd (free_wp st k) = 0
         /\ exists st',
             wp_watch (fst (free_wp st k)) e res = Ret (st', k)
             /\ expr_of st' (pool k) = e
             /\ last_val_of st' (pool k) = res).
Proof.
  split.
  - intros st0 es Hlen Hshort.
    pose proof (init_wp_pool_inv st0) as Hinv.
    rewrite <- (app_nil_r slot_ids) in Hinv.
    destruct (watch_all_spec es _ _ _ _ Hinv Hlen Hshort) as (st & Hall & Hinv' & _).
    exists st. split; [exact Hall |].
    intros e res. exact (wp_watch_exhausted _ _ e res Hinv').
  - intros st k e res (act & fr & Hinv) Hk Hlen.
    destruct (free_wp_spec _ _ _ k Hinv Hk) as (H0 & Hinv' & _).
    split; [exact H0 |].
    destruct (wp_watch_spec _ _ _ _ e res Hinv' Hlen) as (st' & Hw & _ & _ & He & Hl & _).
    exists st'. auto.
Qed.

Lemma C8_create_exhaust_reuse_witness :
  (exists st,
      watch_all (init_wp_pool zero_state) (repeat ("$pc"%string, 0) 32)
      = Ret (st, slot_ids)
      /\ forall e res, wp_watch st e res = Abort)
  /\ (snd (free_wp (init_wp_pool zero_state) 5) = 0
      /\ exists st',
          wp_watch (fst (free_wp (init_wp_pool zero_state) 5)) "$pc" 0 = Ret (st', 5)
          /\ expr_of st' (pool 5) = "$pc"%string
          /\ last_val_of st' (pool 5) = 0).
Proof.
  split.
  - apply (proj1 C8_create_exhaust_reuse zero_state (repeat ("$pc"%string, 0) 32)).
    + reflexivity.
    + apply Forall_forall. intros er Her. apply repeat_spec in Her. subst er.
      unfold short. simpl. lia.
  - apply (proj2 C8_create_exhaust_reuse (init_wp_pool zero_state) 5 "$pc"%string 0).
    + exists [], slot_ids. apply init_wp_pool_inv.
    + unfold NR_WP. lia.
    + simpl. lia.
Defined.

(** ** C9

    C9 says that a check after the watched value changed reports one change
    entry for the watchpoint.  [check_wp] tests its local [success] after
    the call of [expr], which never stores [true] in it (the defect of C6),
    and the local is not initialised.  When it holds [false], the check of
    a watchpoint that was checked before stops the process on [assert(0)]:
    after [w $pc] with [$pc = 0] and a first check, which prints nothing,
    the check after [$pc] became 4 reports no change and does not return.
    When the local happens to hold [true], the same check prints the one
    line and returns 1. *)
Theorem C9_change_not_reported :
  exists st1 st2,
    wp_watch (init_wp_pool zero_state) "$pc" 0 = Ret (st1, 0)
    /\ check_wp (all_registers 0) no_memory false 33 st1 = Ret (st2, 0, [])
    /\ check_wp (all_registers 4) no_memory false 33 st2 = Abort
    /\ exists st3,
        check_wp (all_registers 4) no_memory true 33 st2
        = Ret (st3, 1, [mkChange 0 "$pc" 0 4]).
Proof.
  exists (state_after_watch (wp_watch (init_wp_pool zero_state) "$pc" 0)).
  exists (state_after_check
            (check_wp (all_registers 0) no_memory false 33
                      (state_after_watch (wp_watch (init_wp_pool zero_state) "$pc" 0)))).
  split; [apply watch_returned; vm_compute; reflexivity |].
  split; [apply check_returned; vm_compute; split; reflexivity |].
  split; [vm_compute; reflexivity |].
  eexists. apply check_returned. vm_compute. split; reflexivity.
Qed.

(** ** C10 *)

(** C10 as stated fails: [print_wp] walks the active ring along [prev], so
    it prints the oldest watchpoint first. *)
Lemma C10_oldest_first :
  (r <- watch_all (init_wp_pool zero_state) [("$a"%string, 1); ("$b"%string, 2)] ;;
   print_wp 3 (fst r))
  = Ret [(0, "$a"%string, 1); (1, "$b"%string, 2)]
  /\ (r <- watch_all (init_wp_pool zero_state) [("$a"%string, 1); ("$b"%string, 2)] ;;
      print_wp 3 (fst r))
     <> Ret [(1, "$b"%string, 2); (0, "$a"%string, 1)].
Proof.
  assert (H : (r <- watch_all (init_wp_pool zero_state)
                              [("$a"%string, 1); ("$b"%string, 2)] ;;
               print_wp 3 (fst r))
              = Ret [(0, "$a"%string, 1); (1, "$b"%string, 2)])
    by (vm_compute; reflexivity).
  split; [exact H |]. rewrite H. discriminate.
Qed.

(** C10, amended: after any sequence of at most 32 creations from the
    initial pool, [print_wp] lists the watchpoints in creation order, oldest
    first: ids 0, 1, 2, ... with the expressions and seed values in the
    order they were given. *)
Theorem C10_print_in_creation_order :
  forall st0 es,
    (length es <= 32)%nat -> Forall short es ->
    exists st,
      watch_all (init_wp_pool st0) es = Ret (st, firstn (length es) slot_ids)
      /\ forall fuel, (length es < fuel)%nat ->
                      print_wp fuel st = Ret (lines slot_ids es).
Proof.
  intros st0 es Hlen Hshort.
  pose proof (init_wp_pool_inv st0) as Hinv.
  rewrite <- (firstn_skipn (length es) slot_ids) in Hinv.
  assert (Hl1 : length es = length (firstn (length es) slot_ids))
    by (rewrite length_firstn; unfold slot_ids; rewrite length_map, length_seq; lia).
  destruct (watch_all_spec es _ _ _ _ Hinv Hl1 Hshort)
    as (st & Hall & Hinv' & Hholds & _).
  exists st. split; [exact Hall |].
  intros fuel Hfuel. rewrite (print_wp_spec st _ _ fuel Hinv').
  - rewrite app_nil_r, rev_involutive, (entries_lines _ _ _ Hholds).
    now rewrite lines_firstn.
  - rewrite app_nil_r, length_rev, <- Hl1. exact Hfuel.
Qed.

Lemma C10_print_in_creation_order_witness :
  exists st,
    watch_all (init_wp_pool zero_state) [("$a"%string, 1); ("$b"%string, 2)]
    = Ret (st, [0; 1])
    /\ forall fuel, (2 < fuel)%nat ->
                    print_wp fuel st
                    = Ret [(0, "$a"%string, 1); (1, "$b"%string, 2)].
Proof.
  apply (C10_print_in_creation_order zero_state [("$a"%string, 1); ("$b"%string, 2)]).
  - simpl. lia.
  - repeat constructor.
Defined.

(** * Further properties of the watchpoint pool *)

(** ** What [check_wp] reports *)

Section Report.

Variable regs : string -> Z * bool.
Variable vmem : Z -> Z -> Z.
Variable garbage : bool.

(** The return value says whether a line was printed. *)
Definition code_of (res : Z) (out : list change) : Prop :=
  (res = 0 /\ out = []) \/ (res = 1 /\ out <> []).

Lemma check_wp_loop_code (fuel : nat) :
  forall st cur res out st' res' out',
    code_of res out ->
    check_wp_loop regs vmem garbage fuel st cur res out = Ret (st', res', out') ->
    code_of res' out'.
Proof.
  induction fuel as [| fuel IH]; intros st cur res out st' res' out' Hc H;
    [discriminate |].
  cbn [check_wp_loop] in H.
  destruct (id_of st (nxt st cur) =? -1); [now injection H as <- <- <- |].
  destruct (counter (mem st (nxt st cur)) =? 0); [exact (IH _ _ _ _ _ _ _ Hc H) |].
  match type of H with
  | bind ?m _ = _ => destruct m as [[val success] | | |]; cbn [bind] in H;
                     try discriminate
  end.
  destruct success; cbn [negb] in H; [| discriminate].
  match type of H with
  | context [negb (val =? ?lv)] => destruct (val =? lv); cbn [negb] in H
  end.
  - exact (IH _ _ _ _ _ _ _ Hc H).
  - refine (IH _ _ _ _ _ _ _ _ H). right. split; [reflexivity |].
    intros E. now apply app_eq_nil in E.
Qed.

Lemma check_wp_others (st st' : state) (act fr : list Z) (fuel : nat) (res : Z)
  (out : list change) :
  pool_inv st act fr ->
  check_wp regs vmem garbage fuel st = Ret (st', res, out) ->
  forall w, ~ In w act -> entries_of w out = [].
Proof.
  intros Hinv H. unfold check_wp in H. rewrite (inv_head _ _ _ Hinv) in H.
  apply (check_wp_loop_spec _ _ _ act) in H.
  - destruct H as (_ & _ & Hout & _). exact Hout.
  - exact (inv_id_head _ _ _ Hinv).
  - intros i Hi.
    assert (Hr : 0 <= i < NR_WP)
      by (apply (inv_range _ _ _ Hinv), in_or_app; now left).
    split; [now apply (inv_id_pool _ _ _ Hinv) | lia].
  - exact (inv_NoDup_act _ _ _ Hinv).
  - exact (inv_active _ _ _ Hinv).
Qed.

End Report.

(** Two values have the same low 32 bits when they differ by a multiple of
    2^32. *)
Lemma to_int32_same (a b : Z) : to_int32 a = to_int32 b <-> (b - a) mod 2 ^ 32 = 0.
Proof.
  unfold to_int32. split; intros H.
  - assert (E : (a + 2 ^ 31) mod 2 ^ 32 = (b + 2 ^ 31) mod 2 ^ 32) by lia.
    replace (b - a) with ((b + 2 ^ 31) - (a + 2 ^ 31)) by lia.
    rewrite Zminus_mod, E, Z.sub_diag. reflexivity.
  - assert (E : (b + 2 ^ 31) mod 2 ^ 32 = (a + 2 ^ 31) mod 2 ^ 32).
    { replace (b + 2 ^ 31) with ((a + 2 ^ 31) + (b - a)) by lia.
      rewrite Zplus_mod, H, Z.add_0_r. apply Z.mod_mod. lia. }
    lia.
Qed.

(** X11: when [check_wp] returns, it returns 1 if it printed a line and 0 if it
    printed none; each line is for an active watchpoint that had been
    checked before and whose stored value the call has changed, and shows
    its expression and, as [%d] prints them, the low 32 bits of the value
    stored before the call and of the value stored by the call.  The two
    numbers of a line are equal when the two values differ by a multiple of
    2^32. *)
Theorem X11_check_wp_report :
  forall regs vmem garbage fuel st act fr st' res out,
    pool_inv st act fr ->
    check_wp regs vmem garbage fuel st = Ret (st', res, out) ->
    ((res = 0 /\ out = []) \/ (res = 1 /\ out <> []))
    /\ forall c,
        In c out ->
        In (ch_id c) act
        /\ counter_of st (pool (ch_id c)) <> 0
        /\ ch_expr c = expr_of st (pool (ch_id c))
        /\ ch_old c = to_int32 (last_val_of st (pool (ch_id c)))
        /\ ch_new c = to_int32 (last_val_of st' (pool (ch_id c)))
        /\ last_val_of st (pool (ch_id c)) <> last_val_of st' (pool (ch_id c))
        /\ (ch_old c = ch_new c <->
            (last_val_of st' (pool (ch_id c)) - last_val_of st (pool (ch_id c)))
              mod 2 ^ 32 = 0).
Proof.
  intros regs vmem garbage fuel st act fr st' res out Hinv H. split.
  - apply (check_wp_loop_code regs vmem garbage fuel st (head st) 0 [] st');
      [left; now split | exact H].
  - intros c Hc.
    assert (Hin : In c (entries_of (ch_id c) out))
      by (apply filter_In; split; [exact Hc | apply Z.eqb_refl]).
    destruct (in_dec Z.eq_dec (ch_id c) act) as [Hw | Hw].
    + destruct (check_wp_spec _ _ _ _ _ _ _ _ _ _ Hinv H) as (_ & _ & Hv & _).
      destruct (Hv _ Hw) as [_ Hvis].
      destruct (Z.eqb_spec (counter_of st (pool (ch_id c))) 0) as [E | E].
      * destruct Hvis as [_ Hnil]. now rewrite Hnil in Hin.
      * destruct Hvis as (v & _ & Hl & Hadd). rewrite Hadd in Hin.
        destruct (Z.eqb_spec v (last_val_of st (pool (ch_id c)))) as [| Hne];
          [destruct Hin |].
        destruct Hin as [Ec | []].
        pose proof (f_equal ch_expr Ec) as E1. pose proof (f_equal ch_old Ec) as E2.
        pose proof (f_equal ch_new Ec) as E3. cbn [ch_expr ch_old ch_new] in E1, E2, E3.
        rewrite <- E2, <- E3, Hl.
        repeat split; auto; try congruence.
        -- intros Heq. now apply to_int32_same.
        -- intros Hmod. now apply to_int32_same.
    + now rewrite (check_wp_others _ _ _ _ _ _ _ _ _ _ Hinv H _ Hw) in Hin.
Qed.

(** [w $pc] with [$pc = 0], a first check, and a check after [$pc] became
    2^32: the line shows 0 twice. *)
Lemma X11_check_wp_report_witness :
  exists st act fr st',
    pool_inv st act fr
    /\ check_wp (all_registers 4294967296) no_memory true 33 st
       = Ret (st', 1, [mkChange 0 "$pc" 0 0])
    /\ In 0 act
    /\ counter_of st (pool 0) <> 0
    /\ expr_of st (pool 0) = "$pc"%string
    /\ last_val_of st (pool 0) <> last_val_of st' (pool 0)
    /\ (last_val_of st' (pool 0) - last_val_of st (pool 0)) mod 2 ^ 32 = 0.
Proof.
  pose proof (watch_returned (wp_watch (init_wp_pool zero_state) "$pc" 0) 0) as E0.
  match type of E0 with _ -> _ = Ret (?s, _) =>
    pose proof (check_returned (check_wp (all_registers 0) no_memory true 33 s) 0 [])
      as E1
  end.
  match type of E1 with _ -> _ = Ret (?s, _, _) =>
    pose proof (check_returned (check_wp (all_registers 4294967296) no_memory true 33 s)
                               1 [mkChange 0 "$pc" 0 0]) as E2
  end.
  specialize (E0 ltac:(vm_compute; reflexivity)).
  specialize (E1 ltac:(vm_compute; split; reflexivity)).
  specialize (E2 ltac:(vm_compute; split; reflexivity)).
  assert (Hpart : partitioned (init_wp_pool zero_state))
    by (exists [], slot_ids; apply init_wp_pool_inv).
  destruct (wp_watch_ret _ _ _ _ _ Hpart E0) as (act & fr & Hinv1 & _).
  destruct (check_wp_spec _ _ _ _ _ _ _ _ _ _ Hinv1 E1) as (Hinv2 & _).
  destruct (X11_check_wp_report _ _ _ _ _ _ _ _ _ _ Hinv2 E2) as [_ Hlines].
  destruct (Hlines (mkChange 0 "$pc" 0 0) (or_introl eq_refl))
    as (H1 & H2 & H3 & _ & _ & H6 & H7).
  cbn [ch_id ch_expr ch_old ch_new] in *.
  do 4 eexists. split; [exact Hinv2 |]. split; [exact E2 |].
  split; [exact H1 |]. split; [exact H2 |]. split; [now rewrite <- H3 |].
  split; [exact H6 | exact (proj1 H7 eq_refl)].
Defined.

(** X12: [check_wp] reads its local [success] after [expr], which never stores
    [true] in it.  When the variable happens to hold [false], a call that
    meets a watchpoint checked before does not return: it fails the
    assertion or does something undefined. *)
Theorem X12_check_wp_needs_the_flag :
  forall regs vmem fuel st act fr w,
    pool_inv st act fr -> In w act -> counter_of st (pool w) <> 0 ->
    (32 < fuel)%nat ->
    check_wp regs vmem false fuel st = Abort
    \/ check_wp regs vmem false fuel st = Undef.
Proof.
  intros regs vmem fuel st act fr w Hinv Hw Hc Hfuel.
  pose proof (check_wp_fuel regs vmem false st fuel
                            (ex_intro _ act (ex_intro _ fr Hinv)) Hfuel) as Hf.
  destruct (check_wp regs vmem false fuel st) as [[[st' res] out] | | |] eqn:E;
    auto; [| contradiction].
  destruct (check_wp_spec _ _ _ _ _ _ _ _ _ _ Hinv E) as (_ & _ & Hv & _).
  destruct (Hv _ Hw) as [_ Hvis].
  destruct (Z.eqb_spec (counter_of st (pool w)) 0) as [| _]; [contradiction |].
  destruct Hvis as (v & Heval & _).
  destruct (expr_success_flag _ _ _ _ _ _ Heval) as [[Hok _] | [Hok _]]; discriminate.
Qed.

Lemma X12_check_wp_needs_the_flag_witness :
  exists st,
    counter_of st (pool 0) = 1
    /\ (check_wp (all_registers 4) no_memory false 33 st = Abort
        \/ check_wp (all_registers 4) no_memory false 33 st = Undef).
Proof.
  pose proof (watch_returned (wp_watch (init_wp_pool zero_state) "$pc" 0) 0) as E0.
  match type of E0 with _ -> _ = Ret (?s, _) =>
    pose proof (check_returned (check_wp (all_registers 0) no_memory true 33 s) 0 [])
      as E1
  end.
  specialize (E0 ltac:(vm_compute; reflexivity)).
  specialize (E1 ltac:(vm_compute; split; reflexivity)).
  assert (Hpart : partitioned (init_wp_pool zero_state))
    by (exists [], slot_ids; apply init_wp_pool_inv).
  destruct (wp_watch_ret _ _ _ _ _ Hpart E0) as (act & fr & Hinv1 & _).
  destruct (check_wp_spec _ _ _ _ _ _ _ _ _ _ Hinv1 E1) as (Hinv2 & _).
  eexists. split; [| apply (X12_check_wp_needs_the_flag (all_registers 4) no_memory 33
                                                    _ _ _ 0 Hinv2)].
  - vm_compute. reflexivity.
  - now left.
  - vm_compute. discriminate.
  - lia.
Defined.

(** ** Removing a watchpoint from the list *)





(** * Properties of the command handlers *)

Import Sdb.

Lemma expr_lex_failure (regs : string -> Z * bool) (vmem : Z -> Z -> Z) (e : string)
  (success : bool) (pos : Z) :
  make_token e = Ret (LexFail pos) -> Expr.expr regs vmem e success = Ret (0, false).
Proof. intros H. unfold Expr.expr. now rewrite H. Qed.

(** X14: [cmd_w] creates a watchpoint only if its uninitialised [success]
    held [true] before the call of [expr]: when [make_token] fails on the
    expression, or when the variable held [false], a call that returns has
    printed "invalid expression" and left the pool as it was; otherwise a
    call that returns has created a watchpoint that holds the expression and
    its value and has not been checked yet. *)
Theorem X14_cmd_w_depends_on_flag :
  forall regs vmem st e,
    (forall success pos,
        make_token e = Ret (LexFail pos) ->
        cmd_w regs vmem st (Some e) success = Ret (st, [Invalid_expression], 0))
    /\ (forall st' out r,
           cmd_w regs vmem st (Some e) false = Ret (st', out, r) ->
           st' = st /\ out = [Invalid_expression] /\ r = 0)
    /\ (forall st' out r toks,
           partitioned st ->
           make_token e = Ret (LexOk toks) ->
           cmd_w regs vmem st (Some e) true = Ret (st', out, r) ->
           exists id v,
             Expr.expr regs vmem e true = Ret (v, true)
             /\ out = [Watchpoint id e] /\ r = 0
             /\ tracked st' id 0 v e).
Proof.
  intros regs vmem st e. split; [| split].
  - intros success pos H. unfold cmd_w.
    now rewrite (expr_lex_failure _ _ _ _ _ H).
  - intros st' out r H. unfold cmd_w in H.
    destruct (Expr.expr regs vmem e false) as [[v ok] | | |] eqn:E; cbn [bind] in H;
      try discriminate.
    destruct (expr_success_flag _ _ _ _ _ _ E) as [[-> _] | [-> _]];
      cbn [negb] in H; injection H as <- <- <-; auto.
  - intros st' out r toks Hpart Hlex H. unfold cmd_w in H.
    destruct (Expr.expr regs vmem e true) as [[v ok] | | |] eqn:E; cbn [bind] in H;
      try discriminate.
    destruct (expr_success_flag _ _ _ _ _ _ E) as [(_ & _ & pos & Hfail) | [-> _]];
      [congruence |].
    cbn [negb] in H.
    destruct (wp_watch st e v) as [[st1 id] | | |] eqn:W; cbn [bind fst snd] in H;
      try discriminate.
    injection H as <- <- <-. exists id, v. repeat split.
    + exact (proj1 (wp_watch_creates _ _ _ _ _ Hpart W)).
    + exact (proj1 (proj2 (wp_watch_creates _ _ _ _ _ Hpart W))).
    + exact (proj1 (proj2 (proj2 (wp_watch_creates _ _ _ _ _ Hpart W)))).
    + exact (proj2 (proj2 (proj2 (wp_watch_creates _ _ _ _ _ Hpart W)))).
Qed.

(** The state a handler returned. *)
Definition state_after_cmd (o : outcome (state * list printed * Z)) : state :=
  match o with
  | Ret r => fst (fst r)
  | _ => zero_state
  end.

Lemma cmd_returned (o : outcome (state * list printed * Z)) (out : list printed)
  (r : Z) :
  match o with Ret x => snd (fst x) = out /\ snd x = r | _ => False end ->
  o = Ret (state_after_cmd o, out, r).
Proof. destruct o as [[[s l] j] | | |]; simpl; intros H; try tauto. now destruct H; subst. Qed.

Lemma X14_cmd_w_depends_on_flag_witness :
  cmd_w (all_registers 4) no_memory (init_wp_pool zero_state) (Some "$pc+a"%string) true
  = Ret (init_wp_pool zero_state, [Invalid_expression], 0)
  /\ cmd_w (all_registers 4) no_memory (init_wp_pool zero_state) (Some "1+$pc"%string)
           false
     = Ret (init_wp_pool zero_state, [Invalid_expression], 0)
  /\ exists st',
      cmd_w (all_registers 4) no_memory (init_wp_pool zero_state) (Some "1+$pc"%string)
            true
      = Ret (st', [Watchpoint 0 "1+$pc"], 0)
      /\ tracked st' 0 0 5 "1+$pc".
Proof.
  pose proof (X14_cmd_w_depends_on_flag (all_registers 4) no_memory
                                    (init_wp_pool zero_state) "$pc+a"%string)
    as (Hfail & _).
  pose proof (X14_cmd_w_depends_on_flag (all_registers 4) no_memory
                                    (init_wp_pool zero_state) "1+$pc"%string)
    as (_ & Hfalse & Htrue).
  split; [| split].
  - apply (Hfail true 4). reflexivity.
  - pose proof (cmd_returned
                  (cmd_w (all_registers 4) no_memory (init_wp_pool zero_state)
                         (Some "1+$pc"%string) false)
                  [Invalid_expression] 0 ltac:(vm_compute; split; reflexivity)) as E.
    destruct (Hfalse _ _ _ E) as (Hst & _). rewrite Hst in E. exact E.
  - pose proof (cmd_returned
                  (cmd_w (all_registers 4) no_memory (init_wp_pool zero_state)
                         (Some "1+$pc"%string) true)
                  [Watchpoint 0 "1+$pc"] 0 ltac:(vm_compute; split; reflexivity)) as E.
    assert (Hpart : partitioned (init_wp_pool zero_state))
      by (exists [], slot_ids; apply init_wp_pool_inv).
    destruct (Htrue _ _ _ _ Hpart eq_refl E) as (id & v & Hv & Hout & _ & Ht).
    injection Hout as <-. injection Hv as <-.
    eexists. split; [exact E | exact Ht].
Defined.

(** X15: [cmd_p] prints the value of an expression only if its uninitialised
    [result] held [true] before the call of [expr]: when [make_token] fails,
    or when the variable held [false], a call that returns has printed
    "Invalid expression"; when the variable held [true] and [cal_expr]
    returns a value, the call prints this value as a 64-bit word. *)
Theorem X15_cmd_p_depends_on_flag :
  forall regs vmem e,
    (forall result pos,
        make_token e = Ret (LexFail pos) ->
        cmd_p regs vmem (Some e) result = Ret ([Invalid_expression], 0))
    /\ (forall out r,
           cmd_p regs vmem (Some e) false = Ret (out, r) ->
           out = [Invalid_expression] /\ r = 0)
    /\ (forall toks v,
           make_token e = Ret (LexOk toks) ->
           cal_expr regs vmem toks 0 (Z.of_nat (length toks) - 1) = Ret v ->
           cmd_p regs vmem (Some e) true = Ret ([Result (to_word v)], 0)).
Proof.
  intros regs vmem e. split; [| split].
  - intros result pos H. unfold cmd_p. now rewrite (expr_lex_failure _ _ _ _ _ H).
  - intros out r H. unfold cmd_p in H.
    destruct (Expr.expr regs vmem e false) as [[v ok] | | |] eqn:E; cbn [bind] in H;
      try discriminate.
    destruct (expr_success_flag _ _ _ _ _ _ E) as [[-> _] | [-> _]];
      injection H as <- <-; auto.
  - intros toks v Hlex Hval. unfold cmd_p, Expr.expr. rewrite Hlex. cbn [bind].
    now rewrite Hval.
Qed.

Lemma X15_cmd_p_depends_on_flag_witness :
  cmd_p (all_registers 4) no_memory (Some "$pc+a"%string) true
  = Ret ([Invalid_expression], 0)
  /\ cmd_p (all_registers 4) no_memory (Some "1+2"%string) false
     = Ret ([Invalid_expression], 0)
  /\ cmd_p (all_registers 4) no_memory (Some "1+2"%string) true = Ret ([Result 3], 0).
Proof.
  pose proof (X15_cmd_p_depends_on_flag (all_registers 4) no_memory "$pc+a"%string)
    as (Hfail & _).
  pose proof (X15_cmd_p_depends_on_flag (all_registers 4) no_memory "1+2"%string)
    as (_ & Hfalse & Htrue).
  split; [| split].
  - apply (Hfail true 4). reflexivity.
  - assert (E : cmd_p (all_registers 4) no_memory (Some "1+2"%string) false
                 = Ret ([Invalid_expression], 0)) by reflexivity.
    destruct (Hfalse _ _ E) as [_ _]. exact E.
  - apply (Htrue [mkToken TK_INT "1"; mkToken TK_ADD ""; mkToken TK_INT "2"] 3);
      reflexivity.
Defined.

Lemma strtol10_eq (nptr : string) :
  strtol10 nptr =
  match skip_spaces nptr with
  | String c s =>
      if Ascii.eqb c "-" then Z.max INT64_MIN (- strtol_digits 10 s 0)
      else if Ascii.eqb c "+" then Z.min INT64_MAX (strtol_digits 10 s 0)
      else Z.min INT64_MAX (strtol_digits 10 (String c s) 0)
  | EmptyString => Z.min INT64_MAX (strtol_digits 10 EmptyString 0)
  end.
Proof.
  unfold strtol10. destruct (skip_spaces nptr) as [| c s]; [reflexivity |].
  destruct c as [[|] [|] [|] [|] [|] [|] [|] [|]]; reflexivity.
Qed.

Lemma strtol_digits_no_digit (c : ascii) (rest : string) :
  is_digit c = false -> strtol_digits 10 (String c rest) 0 = 0.
Proof.
  intros H. cbn [strtol_digits]. unfold digit_val.
  unfold is_digit in H. rewrite H. unfold in_range.
  repeat match goal with
         | |- context [Nat.leb ?a ?b] => destruct (Nat.leb_spec a b)
         end; cbn [andb]; try reflexivity;
    match goal with
    | |- context [?d <? 10] => destruct (Z.ltb_spec d 10); [lia | reflexivity]
    end.
Qed.

(** X16: [cmd_d] takes the number of the watchpoint from [strtol], which
    returns 0 for a text that does not start with a number: [d] followed by
    such a text removes watchpoint 0, and without any text it prints its
    usage line and leaves the pool as it is. *)
Theorem X16_cmd_d_without_number :
  forall st,
    cmd_d st None = (st, [Usage], 0)
    /\ forall c rest,
        is_space c = false -> is_digit c = false ->
        c <> "+"%char -> c <> "-"%char ->
        cmd_d st (Some (String c rest)) = (fst (free_wp st 0), [], 0).
Proof.
  intros st. split; [reflexivity |]. intros c rest Hsp Hd Hplus Hminus.
  unfold cmd_d. rewrite strtol10_eq. cbn [skip_spaces]. rewrite Hsp.
  destruct (Ascii.eqb_spec c "-"); [contradiction |].
  destruct (Ascii.eqb_spec c "+"); [contradiction |].
  now rewrite (strtol_digits_no_digit c rest Hd).
Qed.

Lemma X16_cmd_d_without_number_witness :
  cmd_d (init_wp_pool zero_state) (Some "x"%string)
  = (fst (free_wp (init_wp_pool zero_state) 0), [], 0).
Proof.
  apply (proj2 (X16_cmd_d_without_number (init_wp_pool zero_state)) "x"%char ""%string);
    try reflexivity; discriminate.
Defined.

(** ** A new watchpoint in the list *)

Lemma cmd_info_w (fuel : nat) (st : state) (act fr : list Z) :
  pool_inv st act fr -> (length act < fuel)%nat ->
  cmd_info fuel st (Some "w"%string)
  = Ret ([Param "w"; Listing (map (entry st) (rev act))], 0).
Proof.
  intros Hinv Hfuel. unfold cmd_info. cbn [String.eqb Ascii.eqb Bool.eqb orb app].
  now rewrite (print_wp_spec st act fr fuel Hinv Hfuel).
Qed.

(** X20: [w EXPR] followed by [info w].  In a pool where every slot is in one
    of the two rings, a [cmd_w] that returns has either printed "invalid
    expression", and [info w] lists what it listed before, or printed the
    line of a new watchpoint, and [info w] lists what it listed before and
    then, as its last line, the new watchpoint with its id, the text given
    to [w] and the value [expr] returned for it.  With no free slot left,
    [cmd_w] on an expression [make_token] accepts does not return when
    [cal_expr] returns a value and the flag held [true]: [new_wp] fails
    its assertion. *)
Theorem X20_cmd_w_then_cmd_info :
  forall regs vmem st act fr e success fuel,
    pool_inv st act fr -> (length act + 1 < fuel)%nat ->
    exists l,
      cmd_info fuel st (Some "w"%string) = Ret ([Param "w"; Listing l], 0)
      /\ (forall st' out r,
             cmd_w regs vmem st (Some e) success = Ret (st', out, r) ->
             (out = [Invalid_expression]
              /\ cmd_info fuel st' (Some "w"%string) = Ret ([Param "w"; Listing l], 0))
             \/ (exists id v,
                    Expr.expr regs vmem e success = Ret (v, true)
                    /\ out = [Watchpoint id e]
                    /\ ~ In id (map (fun x => fst (fst x)) l)
                    /\ cmd_info fuel st' (Some "w"%string)
                       = Ret ([Param "w"; Listing (l ++ [(id, e, v)])], 0)))
      /\ (forall v,
             fr = [] -> Expr.expr regs vmem e success = Ret (v, true) ->
             cmd_w regs vmem st (Some e) success = Abort).
Proof.
  intros regs vmem st act fr e success fuel Hinv Hfuel.
  exists (map (entry st) (rev act)).
  split; [apply (cmd_info_w fuel st act fr Hinv); lia |]. split.
  - intros st' out r H. unfold cmd_w in H.
    destruct (Expr.expr regs vmem e success) as [[v ok] | | |] eqn:E; cbn [bind] in H;
      try discriminate.
    destruct ok; cbn [negb] in H.
    + right.
      destruct (wp_watch st e v) as [[st1 id] | | |] eqn:W; cbn [bind fst snd] in H;
        try discriminate.
      injection H as <- <- <-. exists id, v.
      destruct fr as [| x fr];
        [rewrite (wp_watch_exhausted _ _ e v Hinv) in W; discriminate |].
      assert (Hlen : (String.length e < 100)%nat).
      { unfold wp_watch in W.
        destruct (new_wp_spec _ _ _ _ Hinv) as (st2 & Hnew & _).
        rewrite Hnew in W. cbn [bind] in W.
        destruct (100 <=? String.length e)%nat eqn:El; [discriminate |].
        now apply Nat.leb_gt in El. }
      destruct (wp_watch_spec _ _ _ _ e v Hinv Hlen)
        as (st2 & Hw & Hinv2 & _ & He & Hl & Hothers).
      rewrite Hw in W. injection W as <- <-.
      assert (Hx : ~ In x act).
      { intros Hin. apply (inv_disjoint _ _ _ Hinv x Hin). now left. }
      split; [reflexivity |]. split; [reflexivity |]. split.
      * rewrite map_map. cbn [entry fst]. rewrite map_id. now rewrite <- in_rev.
      * rewrite (cmd_info_w fuel st2 (x :: act) fr Hinv2) by (cbn [length]; lia).
        cbn [rev]. rewrite map_app. cbn [map]. unfold entry at 2. rewrite He, Hl.
        do 5 f_equal. f_equal. apply map_ext_in. intros i Hi. apply in_rev in Hi.
        assert (Hq : pool i <> pool x) by (intros Hq; inversion Hq; congruence).
        destruct (Hothers _ Hq) as (_ & He' & Hl').
        unfold entry. now rewrite He', Hl'.
    + left. injection H as <- <- <-. split; [reflexivity |].
      apply (cmd_info_w fuel st act fr Hinv). lia.
  - intros v -> E. unfold cmd_w. rewrite E. cbn [bind negb].
    now rewrite (wp_watch_exhausted _ _ e v Hinv).
Qed.

Lemma X20_cmd_w_then_cmd_info_witness :
  cmd_info 2 (state_after_cmd
                (cmd_w (all_registers 4) no_memory (init_wp_pool zero_state)
                       (Some "1+$pc"%string) true))
           (Some "w"%string)
  = Ret ([Param "w"; Listing [(0, "1+$pc"%string, 5)]], 0).
Proof.
  destruct (X20_cmd_w_then_cmd_info (all_registers 4) no_memory (init_wp_pool zero_state)
                                [] slot_ids "1+$pc"%string true 2%nat
                                (init_wp_pool_inv zero_state) ltac:(simpl; lia))
    as (l & Hbefore & Hafter & _).
  assert (Hl : cmd_info 2 (init_wp_pool zero_state) (Some "w"%string)
               = Ret ([Param "w"; Listing []], 0)) by reflexivity.
  rewrite Hl in Hbefore. injection Hbefore as <-.
  pose proof (cmd_returned
                (cmd_w (all_registers 4) no_memory (init_wp_pool zero_state)
                       (Some "1+$pc"%string) true)
                [Watchpoint 0 "1+$pc"] 0 ltac:(vm_compute; split; reflexivity)) as E.
  destruct (Hafter _ _ _ E) as [[Hout _] | (id & v & Hv & Hout & _ & Hinfo)];
    [discriminate |].
  injection Hout as <-.
  assert (Ev : Expr.expr (all_registers 4) no_memory "1+$pc" true = Ret (5, true))
    by reflexivity.
  rewrite Ev in Hv. injection Hv as <-. exact Hinfo.
Defined.
